(** * The structural path resolver of move2kube's new parameterizer

    A shallow embedding of [internal/newparameterizer/common/utils.go]
    (package [common]): the multi-match traversal [GetAll]/[GetRecurse],
    the single-path accessors [Get], [Set] and [SetCreatingNew], the segment
    tests [isNormal], [getIndex] and the two regular expressions they rely on.

    Modelling decisions, all visible in the definitions below:
    - a Go [interface{}] value is a [Node]: a [mapT] is a [gmap string Node],
      a [[]interface{}] is a [list Node], everything else is a scalar;
    - the readers take a configuration as a finite tree.  The writers
      [Set] and [SetCreatingNew] assign in place; they are given twice.  On
      the tree they return the updated tree, which is what a call leaves
      when no map on its way is nil and no map or slice is reachable along
      two different paths ([Tree], [SetFrom_Tree], [SetCreatingNewFrom_Tree]
      prove it).  In [InPlace] the maps and the arrays behind the
      slices are objects of a store, a map may be nil or be held at several
      places, and an assignment to an entry of a nil map is a panic;
    - the [Matches] maps of the results are Go reference objects that
      [GetRecurse] allocates while it runs.  They live in an explicit heap
      and an [RT] holds the address of its map, so that sharing between two
      results is expressible;
    - [results *[]RT] is threaded as state, together with that heap. *)

From Stdlib Require Import ZArith Ascii String.
From stdpp Require Import gmap strings list fin_maps pretty.

#[local] Set Warnings "-register-all".

(** ** Values *)

(** The dynamically typed tree.  [Mapping] is Go's [mapT], that is
    [map[string]interface{}]; [Sequence] is [[]interface{}]; the other
    constructors are the values for which both type assertions fail:
    strings, which the predicate loop tells apart, integers, booleans, the
    nil interface [Null], and [Other] for a value of any other dynamic type
    (a float, a map of another type, ...), which the code never opens. *)
Inductive Node : Type :=
  | Mapping (m : gmap string Node)
  | Sequence (l : list Node)
  | Str (s : string)
  | Int (z : Z)
  | Boolean (b : bool)
  | Null
  | Other (tag : nat).

Definition isMapping (v : Node) : bool :=
  match v with Mapping _ => true | _ => false end.

(** The errors of the package, one constructor per [fmt.Errorf] call site.
    Only the data needed to tell them apart is kept. *)
Inductive Err : Type :=
  | ErrSubkeyNotInMap (subKey : string)        (* utils.go:73 *)
  | ErrSubkeyNotAnIndex (subKey : string)      (* utils.go:79 *)
  | ErrIndexOutOfRange (idx : nat)             (* utils.go:82 *)
  | ErrNotMapOrSlice (value : Node)            (* utils.go:88 *)
  | ErrInvalidSubkey (subKey : string)         (* utils.go:92 *)
  | ErrExpectedSlice (value : Node)            (* utils.go:112 *)
  | ErrElementNotObject (value : Node)         (* utils.go:120 *)
  | ErrFieldNotString (value : Node)           (* utils.go:128 *)
  | ErrEmptyKey                                (* utils.go:183, 232 *)
  | ErrNoSubKeys (key : string)                (* utils.go:187, 236 *)
  | ErrSetSubkeyNotInMap (subKey : string)     (* utils.go:197, 216 *)
  | ErrSetInvalidIndex (subKey : string)       (* utils.go:206, 224 *)
  | ErrSetReachedScalar (subKey : string)      (* utils.go:208 *)
  | ErrSetNotMapOrArray (value : Node).        (* utils.go:226 *)

(** ** Code outside this file

    [GetSubKeys] calls [common.SplitOnDotExpectInsideQuotes] and
    [common.StripQuotes] ([internal/common]), and [getIndex] calls
    [cast.ToIntE] (the [spf13/cast] library).  The development is
    parameterised by them: every theorem holds whatever these three
    functions compute. *)
Class External : Type := {
  SplitOnDotExpectInsideQuotes : string → list string;
  StripQuotes : string → string;
  ToIntE : string → option Z
}.

(** ** Strings and the two regular expressions *)

Definition isDigit (c : ascii) : bool :=
  let n := N_of_ascii c in (48 <=? n)%N && (n <=? 57)%N.

(** [\w] of Go's regexp: [[0-9A-Za-z_]]. *)
Definition isWord (c : ascii) : bool :=
  let n := N_of_ascii c in
  isDigit c || ((65 <=? n)%N && (n <=? 90)%N)
            || ((97 <=? n)%N && (n <=? 122)%N) || (n =? 95)%N.

(** [.] of Go's regexp without the [s] flag: anything but a line feed. *)
Definition isDot (c : ascii) : bool := negb (N_of_ascii c =? 10)%N.

Fixpoint allChars (p : ascii → bool) (s : string) : bool :=
  match s with
  | EmptyString => true
  | String c s' => p c && allChars p s'
  end.

(** The longest prefix of [s] made of characters satisfying [p], and the
    rest of [s]: what a greedy [p+] consumes. *)
Fixpoint span (p : ascii → bool) (s : string) : string * string :=
  match s with
  | EmptyString => (EmptyString, EmptyString)
  | String c s' =>
      if p c then let '(a, b) := span p s' in (String c a, b)
      else (EmptyString, s)
  end.

(** The head of [s], if any, does not satisfy [p]. *)
Definition stopsAt (p : ascii → bool) (s : string) : Prop :=
  match s with EmptyString => True | String c _ => p c = false end.

Definition isEmpty (s : string) : bool :=
  match s with EmptyString => true | _ => false end.

(** [strings.Contains(k, "[")]. *)
Fixpoint containsBracket (k : string) : bool :=
  match k with
  | EmptyString => false
  | String c k' => Ascii.eqb c "[" || containsBracket k'
  end.

Fixpoint HasSuffix (s suffix : string) : bool :=
  String.eqb s suffix ||
  match s with
  | EmptyString => false
  | String _ s' => HasSuffix s' suffix
  end.

(** [strings.TrimSuffix]. *)
Fixpoint TrimSuffix (s suffix : string) : string :=
  if String.eqb s suffix then EmptyString
  else match s with
       | EmptyString => EmptyString
       | String c s' =>
           if HasSuffix s' suffix then String c (TrimSuffix s' suffix) else s
       end.

(** [strings.TrimPrefix]. *)
Fixpoint TrimPrefix (s pre : string) : string :=
  match pre with
  | EmptyString => s
  | String c pre' =>
      match s with
      | EmptyString => s
      | String d s' =>
          if Ascii.eqb c d && String.prefix pre' s' then TrimPrefix s' pre'
          else s
      end
  end.

(** [arrayIndexRegex = ^\[(\d+)\]$].  [arrayIndexRegex k] is the text of
    the capture group when [k] matches, as [FindSubmatch] returns it in
    [matches[1]]; [None] is the nil result. *)
Definition arrayIndexRegex (k : string) : option string :=
  match k with
  | String "[" rest =>
      let '(ds, tl) := span isDigit rest in
      if negb (isEmpty ds) && String.eqb tl "]" then Some ds else None
  | _ => None
  end.

(** The tail [(=.+)?\]$] of [complexSubKeyRegex]; the result is the text of
    the third group, empty when the group did not take part. *)
Definition complexTail (t : string) : option string :=
  if String.eqb t "]" then Some EmptyString
  else match t with
       | String "=" v =>
           let body := TrimSuffix v "]" in
           if HasSuffix v "]" && negb (isEmpty body) && allChars isDot body
           then Some (String "=" body) else None
       | _ => None
       end.

(** [complexSubKeyRegex = ^\[(\w+:)?(\w+)(=.+)?\]$].  The result is the
    three capture groups of the unique match, [subMatches[0][1..3]] in
    [GetRecurse]; a group that did not take part is the empty string, as
    [FindAllStringSubmatch] reports it. *)
Definition complexSubKeyRegex (k : string) : option (string * string * string) :=
  match k with
  | String "[" rest =>
      let '(w1, t1) := span isWord rest in
      if isEmpty w1 then None
      else match t1 with
           | String ":" t2 =>
               let '(w2, t3) := span isWord t2 in
               if isEmpty w2 then None
               else match complexTail t3 with
                    | Some g3 => Some (w1 +:+ ":", w2, g3)
                    | None => None
                    end
           | _ =>
               match complexTail t1 with
               | Some g3 => Some (EmptyString, w1, g3)
               | None => None
               end
           end
  | _ => None
  end.

(** [isNormal] (utils.go:41). *)
Definition isNormal (k : string) : bool :=
  negb (containsBracket k) || bool_decide (is_Some (arrayIndexRegex k)).

(** ** Results, the heap of [Matches] maps, and the state of a traversal *)

(** Address of a [map[string]string] allocated by [GetRecurse]. *)
Abbreviation loc := nat.

(** [RT] (utils.go:35).  [Key] is a slice built by [append] and copied
    into a fresh array at the leaf (utils.go:57-59), so no two results
    share key storage and a plain list is exact.  [Matches] is a map
    reference: [None] is the nil map, [Some l] the map at address [l]. *)
Record RT : Type := mkRT {
  Key : list string;
  Value : Node;
  Matches : option loc
}.

Record State : Type := mkState {
  results : list RT;                 (* the slice behind [results *[]RT] *)
  heap : list (gmap string string)   (* the [Matches] maps allocated so far *)
}.

(** State-passing computations; the Go [error] result is an [option Err]. *)
Definition M (A : Type) : Type := State → A * State.

#[export] Instance M_ret : MRet M := fun A a st => (a, st).

#[export] Instance M_bind : MBind M :=
  fun A B k c st => let '(a, st') := c st in k a st'.

(** Appending [r] to the slice that [results] points to (utils.go:61). *)
Definition appendResult (r : RT) : M unit :=
  fun st => (tt, mkState (results st ++ [r]) (heap st)).

(** A map literal [map[string]string{}] filled with [m]: a new address. *)
Definition newMap (m : gmap string string) : M loc :=
  fun st => (length (heap st), mkState (results st) (heap st ++ [m])).

(** The contents of the map at [l]. *)
Definition readMap (l : loc) : M (gmap string string) :=
  fun st => (default ∅ (heap st !! l), st).

(** What a caller reads in [r.Matches]; ranging over a nil map reads
    nothing. *)
Definition bindings (h : list (gmap string string)) (r : RT) : gmap string string :=
  match Matches r with
  | None => ∅
  | Some l => default ∅ (h !! l)
  end.

(** ** The functions of utils.go *)

Section Resolver.
Context `{External}.

(** [GetSubKeys] (utils.go:267). *)
Definition GetSubKeys (key : string) : list string :=
  StripQuotes <$> SplitOnDotExpectInsideQuotes key.

(** [getIndex] (utils.go:276).  The index is returned as a [nat]: the
    function rejects negative values. *)
Definition getIndex (key : string) : option nat :=
  match arrayIndexRegex key with
  | None => None
  | Some digits =>
      match ToIntE digits with
      | None => None
      | Some idx => if (idx <? 0)%Z then None else Some (Z.to_nat idx)
      end
  end.

(** utils.go:91-109: the three parts [(matchName, matchKey, matchValue)] of
    a sub key like [[containerName:name=nginx]], or [None] when the sub key
    does not match [complexSubKeyRegex].  The regular expression is
    anchored, so [FindAllStringSubmatch] gives exactly one match with four
    entries and the two length tests at utils.go:95-100 never fire. *)
Definition predicateParts (subKey : string) : option (string * string * string) :=
  match complexSubKeyRegex subKey with
  | None => None
  | Some (g1, g2, g3) =>
      let matchName := if isEmpty g1 then g2 else TrimSuffix g1 ":" in
      let matchValue := if negb (isEmpty g3) then TrimPrefix g3 "=" else g3 in
      Some (matchName, g2, matchValue)
  end.

(** The sub key that [GetRecurse] appends for the element at [arrIdx]:
    ["[" + cast.ToString(arrIdx) + "]"], the decimal numeral of an [int]. *)
Definition indexKey (arrIdx : nat) : string := "[" +:+ pretty arrIdx +:+ "]".

(** The loop at utils.go:117-150 over the elements of [valueArr] that are
    still to be visited.  [arrIdx] is the index of the first of them and
    [rec] is the recursive call [GetRecurse(subKeys, subKeyIdx+1, ...)]. *)
Fixpoint predicateLoop (rec : Node → RT → M (option Err))
    (matchName matchKey matchValue : string)
    (arrIdx : nat) (elems : list Node) (currentResult : RT) : M (option Err) :=
  match elems with
  | [] => mret None
  | valueMapI :: elems' =>
      match valueMapI with
      | Mapping valueMap =>
          match valueMap !! matchKey with
          | None =>
              predicateLoop rec matchName matchKey matchValue
                (S arrIdx) elems' currentResult
          | Some (Str actualMatchValue) =>
              if negb (isEmpty matchValue)
                 && negb (String.eqb matchValue actualMatchValue)
              then predicateLoop rec matchName matchKey matchValue
                     (S arrIdx) elems' currentResult
              else
                orig ← match Matches currentResult with
                       | None => newMap ∅
                       | Some l => mret l
                       end;
                content ← readMap orig;
                copy ← newMap (<[matchName := actualMatchValue]> content);
                err ← rec valueMapI
                        (mkRT (Key currentResult ++ [indexKey arrIdx])
                              (Value currentResult) (Some copy));
                match err with
                | Some e => mret (Some e)
                | None =>
                    predicateLoop rec matchName matchKey matchValue
                      (S arrIdx) elems'
                      (mkRT (Key currentResult) (Value currentResult) (Some orig))
                end
          | Some actualMatchValueI =>
              mret (Some (ErrFieldNotString actualMatchValueI))
          end
      | _ => mret (Some (ErrElementNotObject valueMapI))
      end
  end.

(** [GetRecurse] (utils.go:55) on the sub keys that are still to be
    resolved, [subKeys[subKeyIdx:]]: the function reads nothing else of
    the pair [(subKeys, subKeyIdx)]. *)
Fixpoint GetRecurseFrom (subKeys : list string) (value : Node)
    (currentResult : RT) : M (option Err) :=
  match subKeys with
  | [] =>
      _ ← appendResult (mkRT (Key currentResult) value (Matches currentResult));
      mret None
  | subKey :: rest =>
      if isNormal subKey then
        match value with
        | Mapping valueMap =>
            match valueMap !! subKey with
            | Some value' =>
                GetRecurseFrom rest value'
                  (mkRT (Key currentResult ++ [subKey])
                        (Value currentResult) (Matches currentResult))
            | None => mret (Some (ErrSubkeyNotInMap subKey))
            end
        | Sequence valueArr =>
            match getIndex subKey with
            | None => mret (Some (ErrSubkeyNotAnIndex subKey))
            | Some idx =>
                (* [valueArr !! idx] is [None] exactly when
                   [idx >= len(valueArr)] *)
                match valueArr !! idx with
                | None => mret (Some (ErrIndexOutOfRange idx))
                | Some value' =>
                    GetRecurseFrom rest value'
                      (mkRT (Key currentResult ++ [subKey])
                            (Value currentResult) (Matches currentResult))
                end
            end
        | _ => mret (Some (ErrNotMapOrSlice value))
        end
      else
        match predicateParts subKey with
        | None => mret (Some (ErrInvalidSubkey subKey))
        | Some (matchName, matchKey, matchValue) =>
            match value with
            | Sequence valueArr =>
                predicateLoop (GetRecurseFrom rest)
                  matchName matchKey matchValue 0 valueArr currentResult
            | _ => mret (Some (ErrExpectedSlice value))
            end
        end
  end.

Definition GetRecurse (subKeys : list string) (subKeyIdx : nat) (value : Node)
    (currentResult : RT) : M (option Err) :=
  GetRecurseFrom (drop subKeyIdx subKeys) value currentResult.

(** [GetAll] (utils.go:46).  It returns the slice and the error together,
    whatever the error is; the heap is where its [Matches] maps live. *)
Definition GetAll (key : string) (resource : Node)
    (h : list (gmap string string))
  : list RT * option Err * list (gmap string string) :=
  let subKeys := GetSubKeys key in
  let currentResult := mkRT [] Null None in
  let '(err, st) := GetRecurse subKeys 0 resource currentResult (mkState [] h) in
  (results st, err, heap st).

(** The loop of [Get] (utils.go:158-176) on the remaining sub keys. *)
Fixpoint GetFrom (subKeys : list string) (value : Node) : Node * bool :=
  match subKeys with
  | [] => (value, true)
  | subKey :: rest =>
      match value with
      | Mapping valueMap =>
          match valueMap !! subKey with
          | Some value' => GetFrom rest value'
          | None => (Null, false)
          end
      | Sequence valueArr =>
          match getIndex subKey with
          | Some idx =>
              match valueArr !! idx with
              | Some value' => GetFrom rest value'
              | None => (value, false)
              end
          | None => (value, false)
          end
      | _ => (value, false)
      end
  end.

(** [Get] (utils.go:155). *)
Definition Get (key : string) (config : Node) : Node * bool :=
  GetFrom (GetSubKeys key) config.

(** The body of [Set] after its two guards (utils.go:189-226), on the
    remaining sub keys; the result is the configuration after the call and
    the error.  The last sub key is the write, the others are iterations of
    the loop over [subKeys[:len(subKeys)-1]].  The guards keep the empty
    list away; it is given the value unchanged.  The configuration is a
    tree; [InPlace.SetFrom] below is the call on maps and slices that may
    be held at several places. *)
Fixpoint SetFrom (subKeys : list string) (newValue value : Node)
  : Node * option Err :=
  match subKeys with
  | [] => (value, None)
  | [subKey] =>
      match value with
      | Mapping valueMap =>
          match valueMap !! subKey with
          | Some _ => (Mapping (<[subKey := newValue]> valueMap), None)
          | None => (value, Some (ErrSetSubkeyNotInMap subKey))
          end
      | Sequence valueArr =>
          match getIndex subKey with
          | Some idx =>
              if bool_decide (idx < length valueArr)
              then (Sequence (<[idx := newValue]> valueArr), None)
              else (value, Some (ErrSetInvalidIndex subKey))
          | None => (value, Some (ErrSetInvalidIndex subKey))
          end
      | _ => (value, Some (ErrSetNotMapOrArray value))
      end
  | subKey :: rest =>
      match value with
      | Mapping valueMap =>
          match valueMap !! subKey with
          | Some child =>
              let '(child', err) := SetFrom rest newValue child in
              (Mapping (<[subKey := child']> valueMap), err)
          | None => (value, Some (ErrSetSubkeyNotInMap subKey))
          end
      | Sequence valueArr =>
          match getIndex subKey with
          | Some idx =>
              match valueArr !! idx with
              | Some child =>
                  let '(child', err) := SetFrom rest newValue child in
                  (Sequence (<[idx := child']> valueArr), err)
              | None => (value, Some (ErrSetInvalidIndex subKey))
              end
          | None => (value, Some (ErrSetInvalidIndex subKey))
          end
      | _ => (value, Some (ErrSetReachedScalar subKey))
      end
  end.

(** [Set] (utils.go:181); [Set] is a reserved word here, hence the prime. *)
Definition Set' (key : string) (newValue config : Node) : Node * option Err :=
  if isEmpty key then (config, Some ErrEmptyKey)
  else
    let subKeys := GetSubKeys key in
    if bool_decide (length subKeys = 0) then (config, Some (ErrNoSubKeys key))
    else SetFrom subKeys newValue config.

(** The body of [SetCreatingNew] after its guards (utils.go:238-261): the
    map [config] points to, after the call.  The guards keep the empty list
    away.  The configuration is a tree of maps that are not nil;
    [InPlace.SetCreatingNewFrom] below is the call on maps that may be nil
    or be held at several places. *)
Fixpoint SetCreatingNewFrom (subKeys : list string) (newValue : Node)
    (config : gmap string Node) : gmap string Node :=
  match subKeys with
  | [] => config
  | [lastSubKey] => <[lastSubKey := newValue]> config
  | subKey :: rest =>
      match config !! subKey with
      | Some (Mapping valueMap) =>
          <[subKey := Mapping (SetCreatingNewFrom rest newValue valueMap)]> config
      | _ =>
          (* absent, or present and not a map: a new map takes its place *)
          <[subKey := Mapping (SetCreatingNewFrom rest newValue ∅)]> config
      end
  end.

(** [SetCreatingNew] (utils.go:230). *)
Definition SetCreatingNew (key : string) (newValue : Node)
    (config : gmap string Node) : gmap string Node * option Err :=
  if isEmpty key then (config, Some ErrEmptyKey)
  else
    let subKeys := GetSubKeys key in
    if bool_decide (length subKeys = 0) then (config, Some (ErrNoSubKeys key))
    else (SetCreatingNewFrom subKeys newValue config, None).

(** The map that [SetCreatingNew] continues in below an intermediate key:
    the one found there, or a new empty one. *)
Definition childMap (o : option Node) : gmap string Node :=
  match o with
  | Some (Mapping valueMap) => valueMap
  | _ => ∅
  end.

(** The node found by looking the sub keys up as literal map keys, one
    Mapping inside the other. *)
Fixpoint lookupPath (subKeys : list string) (v : Node) : option Node :=
  match subKeys with
  | [] => Some v
  | k :: rest =>
      match v with
      | Mapping m =>
          match m !! k with
          | Some v' => lookupPath rest v'
          | None => None
          end
      | _ => None
      end
  end.

(** ** The traversal without the heap

    [walk] is [GetRecurseFrom] with the bindings passed by value and the
    results returned instead of appended.  It is not part of the program:
    the theorem [GetRecurseFrom_walk] shows that the program computes it,
    and the properties of the results are then read off [walk]. *)

Record Found : Type := mkFound {
  fKey : list string;
  fValue : Node;
  fBindings : gmap string string
}.

Fixpoint walkLoop
    (rec : Node → list string → gmap string string → list Found * option Err)
    (matchName matchKey matchValue : string) (arrIdx : nat) (elems : list Node)
    (key : list string) (b : gmap string string) : list Found * option Err :=
  match elems with
  | [] => ([], None)
  | valueMapI :: elems' =>
      match valueMapI with
      | Mapping valueMap =>
          match valueMap !! matchKey with
          | None =>
              walkLoop rec matchName matchKey matchValue (S arrIdx) elems' key b
          | Some (Str actualMatchValue) =>
              if negb (isEmpty matchValue)
                 && negb (String.eqb matchValue actualMatchValue)
              then walkLoop rec matchName matchKey matchValue (S arrIdx) elems' key b
              else
                let '(found, err) :=
                  rec valueMapI (key ++ [indexKey arrIdx])
                      (<[matchName := actualMatchValue]> b) in
                match err with
                | Some e => (found, Some e)
                | None =>
                    let '(found', err') :=
                      walkLoop rec matchName matchKey matchValue
                        (S arrIdx) elems' key b in
                    (found ++ found', err')
                end
          | Some actualMatchValueI => ([], Some (ErrFieldNotString actualMatchValueI))
          end
      | _ => ([], Some (ErrElementNotObject valueMapI))
      end
  end.

Fixpoint walk (subKeys : list string) (value : Node)
    (key : list string) (b : gmap string string) : list Found * option Err :=
  match subKeys with
  | [] => ([mkFound key value b], None)
  | subKey :: rest =>
      if isNormal subKey then
        match value with
        | Mapping valueMap =>
            match valueMap !! subKey with
            | Some value' => walk rest value' (key ++ [subKey]) b
            | None => ([], Some (ErrSubkeyNotInMap subKey))
            end
        | Sequence valueArr =>
            match getIndex subKey with
            | None => ([], Some (ErrSubkeyNotAnIndex subKey))
            | Some idx =>
                match valueArr !! idx with
                | None => ([], Some (ErrIndexOutOfRange idx))
                | Some value' => walk rest value' (key ++ [subKey]) b
                end
            end
        | _ => ([], Some (ErrNotMapOrSlice value))
        end
      else
        match predicateParts subKey with
        | None => ([], Some (ErrInvalidSubkey subKey))
        | Some (matchName, matchKey, matchValue) =>
            match value with
            | Sequence valueArr =>
                walkLoop (walk rest) matchName matchKey matchValue 0 valueArr key b
            | _ => ([], Some (ErrExpectedSlice value))
            end
        end
  end.

(** A result of the program and a result of [walk] that are the same
    match, the bindings being read in the heap [h]. *)
Definition sameMatch (h : list (gmap string string)) (r : RT) (f : Found) : Prop :=
  Key r = fKey f ∧ Value r = fValue f ∧ bindings h r = fBindings f.

(** The address in [r] was allocated between the heaps [h] and [h']. *)
Definition freshIn (h h' : list (gmap string string)) (r : RT) : Prop :=
  ∃ l, Matches r = Some l ∧ length h ≤ l < length h'.

(** The address in [currentResult], if any, is allocated in [st]. *)
Definition validIn (st : State) (currentResult : RT) : Prop :=
  ∀ l, Matches currentResult = Some l → l < length (heap st).

(** What it means for a traversal [c] of the program to compute the
    heap-free traversal [p]. *)
Definition computes (c : RT → M (option Err))
    (p : list string → gmap string string → list Found * option Err) : Prop :=
  ∀ cur st, validIn st cur →
    ∃ new hnew,
      c cur st = (snd (p (Key cur) (bindings (heap st) cur)),
                  mkState (results st ++ new) (heap st ++ hnew))
      ∧ Forall2 (sameMatch (heap st ++ hnew)) new
                (fst (p (Key cur) (bindings (heap st) cur)))
      ∧ NoDup (Matches <$> new)
      ∧ (Forall (freshIn (heap st) (heap st ++ hnew)) new
         ∨ (length new ≤ 1 ∧ Forall (fun r => Matches r = Matches cur) new)).

(** ** Declarative reading of a path

    These relations say what a path means on a tree without running the
    traversal; the theorems relate the program to them. *)

(** One step of plain navigation: a literal key of a [Mapping], or an
    index into a [Sequence]. *)
Inductive navStep : string → Node → Node → Prop :=
  | nav_key k m v :
      m !! k = Some v → navStep k (Mapping m) v
  | nav_index k l idx v :
      getIndex k = Some idx → l !! idx = Some v → navStep k (Sequence l) v.

(** Plain navigation along a whole path: no missing key, no index out of
    range, no scalar met before the end. *)
Inductive Navigates : list string → Node → Node → Prop :=
  | navigates_nil v : Navigates [] v v
  | navigates_cons k rest v v' w :
      navStep k v v' → Navigates rest v' w → Navigates (k :: rest) v w.

(** The element [e] is selected by a predicate on [field] with the filter
    [filter] (empty: presence only), and [a] is the value of the field. *)
Inductive selects (field filter : string) : Node → string → Prop :=
  | selects_intro m a :
      m !! field = Some (Str a) → filter = EmptyString ∨ filter = a →
      selects field filter (Mapping m) a.

Definition selected (field filter : string) (e : Node) : bool :=
  match e with
  | Mapping m =>
      match m !! field with
      | Some (Str a) => isEmpty filter || String.eqb filter a
      | _ => false
      end
  | _ => false
  end.

(** An element a predicate loop accepts without an error: a [Mapping]
    whose [field], when present, is a string. *)
Definition admissible (field : string) (e : Node) : bool :=
  match e with
  | Mapping m =>
      match m !! field with
      | Some (Str _) | None => true
      | Some _ => false
      end
  | _ => false
  end.

(** [Reaches subKeys v subKeys' n]: some branch of the traversal of
    [subKeys] from [v] arrives at the node [n] with [subKeys'] left. *)
Inductive Reaches : list string → Node → list string → Node → Prop :=
  | reaches_here subKeys v : Reaches subKeys v subKeys v
  | reaches_normal k rest v v' subKeys' n :
      isNormal k = true → navStep k v v' →
      Reaches rest v' subKeys' n → Reaches (k :: rest) v subKeys' n
  | reaches_predicate k rest l j e a name field filter subKeys' n :
      isNormal k = false → predicateParts k = Some (name, field, filter) →
      l !! j = Some e → selects field filter e a →
      Reaches rest e subKeys' n → Reaches (k :: rest) (Sequence l) subKeys' n.

(** [Branch subKeys v ks caps w]: one complete branch.  [ks] is its
    concrete key path, [caps] the pairs (capture name, value of the field of
    the chosen element) of its predicates in path order, [w] the node it
    ends on. *)
Inductive Branch : list string → Node → list string →
    list (string * string) → Node → Prop :=
  | branch_nil v : Branch [] v [] [] v
  | branch_normal k rest v v' ks caps w :
      isNormal k = true → navStep k v v' →
      Branch rest v' ks caps w → Branch (k :: rest) v (k :: ks) caps w
  | branch_predicate k rest l j e a name field filter ks caps w :
      isNormal k = false → predicateParts k = Some (name, field, filter) →
      l !! j = Some e → selects field filter e a →
      Branch rest e ks caps w →
      Branch (k :: rest) (Sequence l) (indexKey j :: ks) ((name, a) :: caps) w.

(** The bindings a branch accumulates from [b]: each capture is written
    in path order, a later one replaces an earlier one of the same name. *)
Definition capture (b : gmap string string) (caps : list (string * string))
  : gmap string string :=
  foldl (fun b' c => <[c.1 := c.2]> b') b caps.

(** [Independent subKeys v ms]: every branch of the path resolves, and
    the predicates match [ms] elements, whatever branch they are met on. *)
Inductive Independent : list string → Node → list nat → Prop :=
  | independent_nil v : Independent [] v []
  | independent_normal k rest v v' ms :
      isNormal k = true → navStep k v v' →
      Independent rest v' ms → Independent (k :: rest) v ms
  | independent_predicate k rest l name field filter ms :
      isNormal k = false → predicateParts k = Some (name, field, filter) →
      forallb (admissible field) l = true →
      (∀ e, e ∈ l → selected field filter e = true → Independent rest e ms) →
      Independent (k :: rest) (Sequence l)
        (length (List.filter (selected field filter) l) :: ms).

(** The path has no predicate segment. *)
Definition predicateFree (subKeys : list string) : Prop :=
  Forall (fun k => isNormal k = true) subKeys.

(** The heap-free traversal [p] of the sub keys [rest] only returns
    branches of [rest], and returns them with their key path and bindings. *)
Definition soundFor (rest : list string)
    (p : Node → list string → gmap string string → list Found * option Err) : Prop :=
  ∀ e key b f, f ∈ fst (p e key b) →
    ∃ ks caps, fKey f = key ++ ks ∧ Branch rest e ks caps (fValue f)
               ∧ fBindings f = capture b caps.

(** The traversal of [subKeys] from [v] ends with an error, whatever the
    key and bindings accumulated so far. *)
Definition failsAt (subKeys : list string) (v : Node) : Prop :=
  ∀ key b, snd (walk subKeys v key b) ≠ None.

End Resolver.

(** [m1 × ... × mk]. *)
Definition product (ms : list nat) : nat := foldr Nat.mul 1 ms.

(** ** The text grammar of the bracketed segments *)

(** [k] is ["[" digits "]"]. *)
Definition IndexSyntax (k digits : string) : Prop :=
  k = "[" +:+ digits +:+ "]" ∧ digits ≠ EmptyString ∧ allChars isDigit digits = true.

Definition nonEmptyWord (s : string) : Prop :=
  s ≠ EmptyString ∧ allChars isWord s = true.

(** [k] is ["[" (name ":")? field ("=" value)? "]"]. *)
Definition PredicateSyntax (k : string) (name : option string) (field : string)
    (value : option string) : Prop :=
  k = "[" +:+ from_option (fun n => n +:+ ":") EmptyString name +:+ field
          +:+ from_option (fun v => "=" +:+ v) EmptyString value +:+ "]"
  ∧ from_option nonEmptyWord True name
  ∧ nonEmptyWord field
  ∧ from_option (fun v => v ≠ EmptyString ∧ allChars isDot v = true) True value.

(** ** What a write keeps *)


(** ** The order of the traversal, and where it stops *)

(** [ks] comes before [pos] in the order of the traversal: where the two
    first differ, both hold the index key of an element of the same
    sequence, and [ks] holds the one of the earlier element. *)
Definition before (ks pos : list string) : Prop :=
  ∃ p j1 j2 r1 r2,
    ks = p ++ indexKey j1 :: r1 ∧ pos = p ++ indexKey j2 :: r2 ∧ j1 < j2.

(** The key paths stand in the order of the traversal. *)
Definition inOrder (keys : list (list string)) : Prop :=
  ∀ i j ks1 ks2, i < j → keys !! i = Some ks1 → keys !! j = Some ks2 →
                 before ks1 ks2.

Section Stops.
Context `{External}.

(** [Fails subKeys v pos]: a branch of the traversal of [subKeys] from [v]
    ends with an error at the position [pos].  The position is the key path
    of the branch when it fails, followed, when a predicate loop fails on
    an element, by the index key of that element. *)
Inductive Fails : list string → Node → list string → Prop :=
  | fails_normal k rest v :
      isNormal k = true → (∀ v', ¬ navStep k v v') → Fails (k :: rest) v []
  | fails_invalid k rest v :
      isNormal k = false → predicateParts k = None → Fails (k :: rest) v []
  | fails_not_sequence k rest v :
      isNormal k = false → (∀ l, v ≠ Sequence l) → Fails (k :: rest) v []
  | fails_element k rest l j e name field filter :
      isNormal k = false → predicateParts k = Some (name, field, filter) →
      l !! j = Some e → admissible field e = false →
      Fails (k :: rest) (Sequence l) [indexKey j]
  | fails_below_normal k rest v v' pos :
      isNormal k = true → navStep k v v' → Fails rest v' pos →
      Fails (k :: rest) v (k :: pos)
  | fails_below_predicate k rest l j e a name field filter pos :
      isNormal k = false → predicateParts k = Some (name, field, filter) →
      l !! j = Some e → selects field filter e a → Fails rest e pos →
      Fails (k :: rest) (Sequence l) (indexKey j :: pos).

End Stops.

(** ** The writers in place

    [Set] and [SetCreatingNew] return no configuration: they assign into
    the maps and slices of the one they are given.  A map is a reference,
    which may be nil and may be held at several places of a
    configuration.  Here the maps and the arrays behind the slices are
    objects of a store, and a value holds their addresses; the functions
    are the calls as the code makes them.  [SetFrom] and
    [SetCreatingNewFrom] above give the configuration after a call as a
    tree: that is what the call leaves when no map on the way is nil and no
    map or slice is held at two places. *)

Module InPlace.

(** Address of a map, or of the array behind a slice. *)
Abbreviation addr := nat.

(** A value of type [interface{}].  [MapV (Some a)] is the [mapT] at [a]
    and [MapV None] the nil [mapT], which reads as an empty map and
    cannot be assigned into; [SliceV a] is a [[]interface{}] over the
    array at [a], whole (the code never reslices); the other constructors
    are those of [Node]. *)
Inductive Val : Type :=
  | MapV (a : option addr)
  | SliceV (a : addr)
  | StrV (s : string)
  | IntV (z : Z)
  | BoolV (b : bool)
  | NullV
  | OtherV (tag : nat).

Inductive Obj : Type :=
  | MapO (m : gmap string Val)
  | ArrayO (l : list Val).

Abbreviation Store := (list Obj).

(** The entries of a map; a nil map has none. *)
Definition mapAt (σ : Store) (a : option addr) : gmap string Val :=
  match a with
  | Some a' => match σ !! a' with Some (MapO m) => m | _ => ∅ end
  | None => ∅
  end.

(** The elements of a slice. *)
Definition arrayAt (σ : Store) (a : addr) : list Val :=
  match σ !! a with Some (ArrayO l) => l | _ => [] end.

(** [valueMap[subKey] = newValue] on the map at [a]. *)
Definition assignKey (a : addr) (subKey : string) (newValue : Val) (σ : Store)
  : Store :=
  <[a := MapO (<[subKey := newValue]> (mapAt σ (Some a)))]> σ.

(** [valueArr[idx] = newValue] on the array at [a]. *)
Definition assignIndex (a : addr) (idx : nat) (newValue : Val) (σ : Store)
  : Store :=
  <[a := ArrayO (<[idx := newValue]> (arrayAt σ a))]> σ.

(** The value an error message prints, for a value that is neither a map
    nor a slice. *)
Definition scalar (v : Val) : Node :=
  match v with
  | StrV s => Str s
  | IntV z => Int z
  | BoolV b => Boolean b
  | OtherV tag => Other tag
  | _ => Null
  end.

(** The references of a store lead to objects of their kind: no Go value
    holds the address of nothing. *)
Definition refOk (σ : Store) (v : Val) : bool :=
  match v with
  | MapV (Some a) => match σ !! a with Some (MapO _) => true | _ => false end
  | SliceV a => match σ !! a with Some (ArrayO _) => true | _ => false end
  | _ => true
  end.

Definition objOk (σ : Store) (o : Obj) : Prop :=
  match o with
  | MapO m => map_Forall (fun _ v => refOk σ v = true) m
  | ArrayO l => Forall (fun v => refOk σ v = true) l
  end.

#[global] Instance objOk_dec σ o : Decision (objOk σ o).
Proof. destruct o; apply _. Defined.

Definition closed (σ : Store) : Prop := Forall (objOk σ) σ.

#[global] Instance closed_dec σ : Decision (closed σ).
Proof. unfold closed. apply _. Defined.

(** What a call leaves: it returns, with the store it leaves and its
    error, or it panics (an assignment to an entry of a nil map). *)
Inductive Outcome : Type :=
  | Returns (σ : Store) (err : option Err)
  | Panics.

(** A place of the store: the entry of a map under a key, or the element
    of an array at an index. *)
Inductive Slot : Type :=
  | KeySlot (a : addr) (k : string)
  | IndexSlot (a : addr) (idx : nat).

(** What a place holds. *)
Definition holds (σ : Store) (s : Slot) : option Val :=
  match s with
  | KeySlot a k => mapAt σ (Some a) !! k
  | IndexSlot a idx => arrayAt σ a !! idx
  end.

(** The address of a place. *)
Definition slotAddr (s : Slot) : addr :=
  match s with KeySlot a _ | IndexSlot a _ => a end.

Section Writers.
Context `{External}.

(** The loop of [Get] (utils.go:158-176). *)
Fixpoint GetFrom (subKeys : list string) (value : Val) (σ : Store) : Val * bool :=
  match subKeys with
  | [] => (value, true)
  | subKey :: rest =>
      match value with
      | MapV valueMap =>
          match mapAt σ valueMap !! subKey with
          | Some value' => GetFrom rest value' σ
          | None => (NullV, false)
          end
      | SliceV valueArr =>
          match getIndex subKey with
          | Some idx =>
              match arrayAt σ valueArr !! idx with
              | Some value' => GetFrom rest value' σ
              | None => (value, false)
              end
          | None => (value, false)
          end
      | _ => (value, false)
      end
  end.

(** [Get] (utils.go:155). *)
Definition Get (key : string) (config : Val) (σ : Store) : Val * bool :=
  GetFrom (GetSubKeys key) config σ.

(** The body of [Set] after its guards (utils.go:189-226): the store it
    leaves and its error.  The assignments are utils.go:213 and 221, each
    behind the test that the entry or the element is there. *)
Fixpoint SetFrom (subKeys : list string) (newValue value : Val) (σ : Store)
  : Store * option Err :=
  match subKeys with
  | [] => (σ, None)
  | [subKey] =>
      match value with
      | MapV valueMap =>
          match mapAt σ valueMap !! subKey, valueMap with
          | Some _, Some a => (assignKey a subKey newValue σ, None)
          | _, _ => (σ, Some (ErrSetSubkeyNotInMap subKey))
          end
      | SliceV valueArr =>
          match getIndex subKey with
          | Some idx =>
              if bool_decide (idx < length (arrayAt σ valueArr))
              then (assignIndex valueArr idx newValue σ, None)
              else (σ, Some (ErrSetInvalidIndex subKey))
          | None => (σ, Some (ErrSetInvalidIndex subKey))
          end
      | _ => (σ, Some (ErrSetNotMapOrArray (scalar value)))
      end
  | subKey :: rest =>
      match value with
      | MapV valueMap =>
          match mapAt σ valueMap !! subKey with
          | Some value' => SetFrom rest newValue value' σ
          | None => (σ, Some (ErrSetSubkeyNotInMap subKey))
          end
      | SliceV valueArr =>
          match getIndex subKey with
          | Some idx =>
              match arrayAt σ valueArr !! idx with
              | Some value' => SetFrom rest newValue value' σ
              | None => (σ, Some (ErrSetInvalidIndex subKey))
              end
          | None => (σ, Some (ErrSetInvalidIndex subKey))
          end
      | _ => (σ, Some (ErrSetReachedScalar subKey))
      end
  end.

(** [Set] (utils.go:181). *)
Definition Set' (key : string) (newValue config : Val) (σ : Store)
  : Store * option Err :=
  if isEmpty key then (σ, Some ErrEmptyKey)
  else
    let subKeys := GetSubKeys key in
    if bool_decide (length subKeys = 0) then (σ, Some (ErrNoSubKeys key))
    else SetFrom subKeys newValue config σ.

(** [config[subKey] = newValue] (utils.go:246, 257, 261): a panic on the
    nil map. *)
Definition assign (config : option addr) (subKey : string) (newValue : Val)
    (σ : Store) : option Store :=
  match config with
  | Some a => Some (assignKey a subKey newValue σ)
  | None => None
  end.

(** The body of [SetCreatingNew] after its guards (utils.go:238-262): the
    store it leaves, or [None] for a panic.  [mapT{}] is a new object, at
    the first free address. *)
Fixpoint SetCreatingNewFrom (subKeys : list string) (newValue : Val)
    (config : option addr) (σ : Store) : option Store :=
  match subKeys with
  | [] => Some σ
  | [lastSubKey] => assign config lastSubKey newValue σ
  | subKey :: rest =>
      match mapAt σ config !! subKey with
      | Some (MapV valueMap) => SetCreatingNewFrom rest newValue valueMap σ
      | _ =>
          (* absent, or present and not a map *)
          let newMap := length σ in
          match assign config subKey (MapV (Some newMap)) (σ ++ [MapO ∅]) with
          | Some σ' => SetCreatingNewFrom rest newValue (Some newMap) σ'
          | None => None
          end
      end
  end.

(** [SetCreatingNew] (utils.go:230). *)
Definition SetCreatingNew (key : string) (newValue : Val)
    (config : option addr) (σ : Store) : Outcome :=
  if isEmpty key then Returns σ (Some ErrEmptyKey)
  else
    let subKeys := GetSubKeys key in
    if bool_decide (length subKeys = 0) then Returns σ (Some (ErrNoSubKeys key))
    else
      match SetCreatingNewFrom subKeys newValue config σ with
      | Some σ' => Returns σ' None
      | None => Panics
      end.

(** The places [Get] looks into, in the order it does. *)
Fixpoint reads (subKeys : list string) (value : Val) (σ : Store) : list Slot :=
  match subKeys with
  | [] => []
  | subKey :: rest =>
      match value with
      | MapV (Some a) =>
          KeySlot a subKey ::
          match mapAt σ (Some a) !! subKey with
          | Some value' => reads rest value' σ
          | None => []
          end
      | SliceV a =>
          match getIndex subKey with
          | Some idx =>
              IndexSlot a idx ::
              match arrayAt σ a !! idx with
              | Some value' => reads rest value' σ
              | None => []
              end
          | None => []
          end
      | _ => []
      end
  end.

End Writers.

(** [Leads σ config p c]: from the map [config], the literal keys [p]
    lead from map to map, to the map [c]. *)
Inductive Leads (σ : Store) : option addr → list string → option addr → Prop :=
  | leads_nil c : Leads σ c [] c
  | leads_cons c k p c' c'' :
      mapAt σ c !! k = Some (MapV c') → Leads σ c' p c'' →
      Leads σ c (k :: p) c''.

(** The sub keys run into a nil map: a proper prefix of them leads to
    it, so that an assignment into it follows. *)
Definition MeetsNil (σ : Store) (config : option addr) (subKeys : list string)
  : Prop :=
  ∃ p q, subKeys = p ++ q ∧ q ≠ [] ∧ Leads σ config p None.

End InPlace.

(** ** Configurations that are trees

    The functions of [Section Resolver] take the configuration as a tree.
    [Tree] says when a value of a store is one; the properties below show
    that on such values the writers in place are the writers on trees. *)

(** [Tree σ v n fp]: in the store [σ] the value [v] holds the tree [n].
    The maps and arrays of the tree are the objects at the addresses [fp];
    none of them is held at two places of the tree, and no map is nil. *)
Inductive Tree (σ : InPlace.Store) : InPlace.Val → Node → gset nat → Prop :=
  | tree_str s : Tree σ (InPlace.StrV s) (Str s) ∅
  | tree_int z : Tree σ (InPlace.IntV z) (Int z) ∅
  | tree_bool b : Tree σ (InPlace.BoolV b) (Boolean b) ∅
  | tree_null : Tree σ InPlace.NullV Null ∅
  | tree_other tag : Tree σ (InPlace.OtherV tag) (Other tag) ∅
  | tree_map a mv mn (fps : string → gset nat) fp :
      σ !! a = Some (InPlace.MapO mv) →
      (∀ k, mv !! k = None ↔ mn !! k = None) →
      (∀ k v n, mv !! k = Some v → mn !! k = Some n → Tree σ v n (fps k)) →
      (∀ k v, mv !! k = Some v → a ∉ fps k) →
      (∀ k1 k2 v1 v2, k1 ≠ k2 → mv !! k1 = Some v1 → mv !! k2 = Some v2 →
                      fps k1 ## fps k2) →
      (∀ x, x ∈ fp ↔ x = a ∨ ∃ k v, mv !! k = Some v ∧ x ∈ fps k) →
      Tree σ (InPlace.MapV (Some a)) (Mapping mn) fp
  | tree_slice a lv ln (fps : nat → gset nat) fp :
      σ !! a = Some (InPlace.ArrayO lv) →
      length lv = length ln →
      (∀ i v n, lv !! i = Some v → ln !! i = Some n → Tree σ v n (fps i)) →
      (∀ i v, lv !! i = Some v → a ∉ fps i) →
      (∀ i1 i2 v1 v2, i1 ≠ i2 → lv !! i1 = Some v1 → lv !! i2 = Some v2 →
                      fps i1 ## fps i2) →
      (∀ x, x ∈ fp ↔ x = a ∨ ∃ i v, lv !! i = Some v ∧ x ∈ fps i) →
      Tree σ (InPlace.SliceV a) (Sequence ln) fp.

(** ** An instance of the outside code, to run the functions *)

(** The double quote character, by its code. *)
Definition doubleQuote : ascii := ascii_of_nat 34.

Fixpoint splitOnDots (s : string) (inQuotes : bool) (piece : string) : list string :=
  match s with
  | EmptyString => [piece]
  | String c s' =>
      if Ascii.eqb c "." && negb inQuotes
      then piece :: splitOnDots s' false EmptyString
      else splitOnDots s' (if Ascii.eqb c doubleQuote then negb inQuotes else inQuotes)
             (piece +:+ String c EmptyString)
  end.

(** Modelled from the spec: [common.SplitOnDotExpectInsideQuotes], of
    [internal/common], is not among the sources.  "Split on [.], treating
    any [.] inside a matching pair of double quotes as literal"; an empty
    input has zero segments. *)
Definition specSplit (key : string) : list string :=
  if isEmpty key then [] else splitOnDots key false EmptyString.

(** Modelled from the spec: [common.StripQuotes], of [internal/common], is
    not among the sources.  "Strip one layer of surrounding quotes from
    each piece." *)
Definition specStripQuotes (s : string) : string :=
  match s with
  | String c s' =>
      if Ascii.eqb c doubleQuote && HasSuffix s' (String doubleQuote EmptyString)
      then TrimSuffix s' (String doubleQuote EmptyString) else s
  | EmptyString => s
  end.

Fixpoint decimalValue (acc : Z) (digits : string) : option Z :=
  match digits with
  | EmptyString => Some acc
  | String c ds =>
      if isDigit c
      then decimalValue (10 * acc + (Z.of_N (N_of_ascii c) - 48)) ds
      else None
  end.

Fixpoint octalValue (acc : Z) (digits : string) : option Z :=
  match digits with
  | EmptyString => Some acc
  | String c ds =>
      if isDigit c && (N_of_ascii c <=? 55)%N
      then octalValue (8 * acc + (Z.of_N (N_of_ascii c) - 48)) ds
      else None
  end.

(** The largest [int], of 64 bits. *)
Definition maxInt : Z := 9223372036854775807.

(** Modelled from the library: [cast.ToIntE], of [github.com/spf13/cast],
    is not among the sources.  On a string it is
    [strconv.ParseInt(s, 0, 0)].  This is its reading of the strings
    [getIndex] passes, the sequences of decimal digits: after a leading
    [0] the digits are octal, otherwise they are decimal, and a value above
    the largest [int] is an error.  Any other string is refused here. *)
Definition specToIntE (s : string) : option Z :=
  match s with
  | EmptyString => None
  | String c ds =>
      match (if Ascii.eqb c "0" then octalValue 0 ds else decimalValue 0 s) with
      | Some v => if (v <=? maxInt)%Z then Some v else None
      | None => None
      end
  end.

Definition specExternal : External := {|
  SplitOnDotExpectInsideQuotes := specSplit;
  StripQuotes := specStripQuotes;
  ToIntE := specToIntE
|}.

(** ** Trees for the examples *)

Definition containers : Node :=
  Mapping {[ "containers" :=
    Sequence [ Mapping {[ "name" := Str "nginx"; "image" := Str "a" ]};
               Mapping {[ "name" := Str "sidecar"; "image" := Str "b" ]} ] ]}.

Definition strayItems : Node :=
  Mapping {[ "items" := Sequence [ Mapping {[ "name" := Str "a" ]}; Str "stray" ] ]}.

Definition numberedItems : Node :=
  Mapping {[ "items" := Sequence [ Mapping {[ "name" := Int 7 ]} ] ]}.

Definition unevenItems : Node :=
  Mapping {[ "items" :=
    Sequence [ Mapping {[ "name" := Str "a"; "x" := Int 1 ]};
               Mapping {[ "name" := Str "b" ]} ] ]}.

Definition bracketKey : Node := Mapping {[ "[0]" := Str "x" ]}.

Definition podConfig : gmap string Node :=
  {[ "kind" := Str "Pod"; "metadata" := Mapping {[ "name" := Str "web" ]} ]}.

(** ** Stores for the examples *)

(** One map held under the keys ["a"] and ["b"], another under ["c"]. *)
Definition sharedStore : InPlace.Store :=
  [ InPlace.MapO {[ "a" := InPlace.MapV (Some 1); "b" := InPlace.MapV (Some 1);
                    "c" := InPlace.MapV (Some 2) ]};
    InPlace.MapO {[ "v" := InPlace.IntV 1 ]};
    InPlace.MapO {[ "v" := InPlace.IntV 1 ]} ].

(** A map whose entry ["a"] is a nil map. *)
Definition nilStore : InPlace.Store :=
  [ InPlace.MapO {[ "a" := InPlace.MapV None ]} ].


(** A map with one scalar entry, and the tree it holds. *)
Definition nameStore : InPlace.Store :=
  [ InPlace.MapO {[ "name" := InPlace.StrV "web" ]} ].

Definition nameTree : gmap string Node := {[ "name" := Str "web" ]}.

(** * Properties *)

(** ** Strings *)

#[local] Arguments String.append : simpl nomatch.
#[local] Arguments String.eqb : simpl never.

Lemma append_assoc (a b c : string) : (a +:+ b) +:+ c = a +:+ (b +:+ c).
Proof. induction a as [|x a IH]; simpl; [done | by f_equal]. Qed.

Lemma append_length (a b : string) :
  String.length (a +:+ b) = String.length a + String.length b.
Proof. induction a as [|x a IH]; simpl; [done | by f_equal]. Qed.

Lemma isEmpty_true (s : string) : isEmpty s = true ↔ s = EmptyString.
Proof. by destruct s. Qed.

Lemma isEmpty_false (s : string) : isEmpty s = false ↔ s ≠ EmptyString.
Proof. by destruct s. Qed.

Lemma span_spec p s a b :
  span p s = (a, b) → s = a +:+ b ∧ allChars p a = true ∧ stopsAt p b.
Proof.
  revert a b. induction s as [|c s IH]; simpl; intros a b Hs.
  - by inversion Hs.
  - destruct (p c) eqn:Hc.
    + destruct (span p s) as [a' b'] eqn:Hsp. inversion Hs; subst.
      destruct (IH _ _ eq_refl) as (-> & Ha & Hb). simpl. by rewrite Hc, Ha.
    + inversion Hs; subst. simpl. by rewrite Hc.
Qed.

Lemma span_app p a b :
  allChars p a = true → stopsAt p b → span p (a +:+ b) = (a, b).
Proof.
  intros Ha Hb. induction a as [|c a IH]; simpl in *.
  - destruct b as [|d b]; simpl in *; [done | by rewrite Hb].
  - apply andb_true_iff in Ha as [-> Ha]. by rewrite (IH Ha).
Qed.

Lemma HasSuffix_app a suffix : HasSuffix (a +:+ suffix) suffix = true.
Proof.
  induction a as [|c a IH]; simpl.
  - destruct suffix; simpl; by rewrite ?String.eqb_refl.
  - rewrite IH. apply orb_true_r.
Qed.

Lemma HasSuffix_inv s suffix :
  HasSuffix s suffix = true → ∃ a, s = a +:+ suffix.
Proof.
  induction s as [|c s IH]; simpl; intros Hs.
  - rewrite orb_false_r in Hs. apply String.eqb_eq in Hs as <-. by exists EmptyString.
  - apply orb_true_iff in Hs as [Hs | Hs].
    + apply String.eqb_eq in Hs as <-. by exists EmptyString.
    + destruct (IH Hs) as [a ->]. by exists (String c a).
Qed.

Lemma TrimSuffix_app a suffix : TrimSuffix (a +:+ suffix) suffix = a.
Proof.
  induction a as [|c a IH].
  - simpl. destruct suffix; simpl; by rewrite ?String.eqb_refl.
  - cbn [String.append TrimSuffix].
    destruct (String.eqb (String c (a +:+ suffix)) suffix) eqn:He.
    + apply String.eqb_eq in He. apply (f_equal String.length) in He.
      simpl in He. rewrite append_length in He. lia.
    + by rewrite HasSuffix_app, IH.
Qed.

Lemma TrimPrefix_eq v : TrimPrefix (String "=" v) "=" = v.
Proof. by destruct v. Qed.

(** ** The regular expressions accept the text grammar *)

Lemma arrayIndexRegex_spec k digits :
  arrayIndexRegex k = Some digits ↔ IndexSyntax k digits.
Proof.
  unfold arrayIndexRegex, IndexSyntax. split.
  - destruct k as [|c rest]; [done |].
    destruct (Ascii.eqb_spec c "["); [subst | by repeat case_match].
    destruct (span isDigit rest) as [ds tl] eqn:Hsp.
    apply span_spec in Hsp as (-> & Hds & _).
    destruct (isEmpty ds) eqn:He; simpl; [by repeat case_match|].
    destruct (String.eqb_spec tl "]"); [subst | by repeat case_match].
    intros [= <-]. by apply isEmpty_false in He.
  - intros (-> & Hne & Hds). simpl.
    rewrite (span_app isDigit digits "]" Hds) by done.
    apply isEmpty_false in Hne. by rewrite Hne.
Qed.

Lemma complexTail_spec t g3 :
  complexTail t = Some g3 ↔
  (t = "]" ∧ g3 = EmptyString)
  ∨ (∃ v, t = "=" +:+ v +:+ "]" ∧ g3 = "=" +:+ v
          ∧ v ≠ EmptyString ∧ allChars isDot v = true).
Proof.
  unfold complexTail. split.
  - destruct (String.eqb_spec t "]") as [-> | Hne]; [intros [= <-]; by left |].
    destruct t as [|c v]; [done |].
    destruct (Ascii.eqb_spec c "="); [subst | by repeat case_match].
    destruct (HasSuffix v "]") eqn:Hsuf; simpl; [| by repeat case_match].
    apply HasSuffix_inv in Hsuf as [body ->]. rewrite TrimSuffix_app.
    destruct (isEmpty body) eqn:He; simpl; [by repeat case_match |].
    destruct (allChars isDot body) eqn:Hdot; [| by repeat case_match].
    intros [= <-]. right. exists body. by apply isEmpty_false in He.
  - intros [[-> ->] | (v & -> & -> & Hne & Hdot)]; [done |].
    destruct (String.eqb_spec ("=" +:+ v +:+ "]") "]") as [Heq | _]; [done |].
    simpl. rewrite HasSuffix_app, TrimSuffix_app, Hdot.
    apply isEmpty_false in Hne. by rewrite Hne.
Qed.

Lemma complexTail_stops t g3 : complexTail t = Some g3 → stopsAt isWord t.
Proof.
  intros [[-> _] | (v & -> & _)]%complexTail_spec; done.
Qed.

Lemma complexSubKeyRegex_spec k g1 g2 g3 :
  complexSubKeyRegex k = Some (g1, g2, g3) ↔
  ∃ name value,
    PredicateSyntax k name g2 value
    ∧ g1 = from_option (fun n => n +:+ ":") EmptyString name
    ∧ g3 = from_option (fun v => "=" +:+ v) EmptyString value.
Proof.
  assert (Htail : ∀ t g, complexTail t = Some g →
            ∃ value, t = from_option (fun v => "=" +:+ v) EmptyString value +:+ "]"
              ∧ g = from_option (fun v => "=" +:+ v) EmptyString value
              ∧ from_option (fun v => v ≠ EmptyString ∧ allChars isDot v = true)
                  True value).
  { intros t g [[-> ->] | (v & -> & -> & Hv)]%complexTail_spec.
    - by exists None.
    - exists (Some v). simpl. by rewrite ?append_assoc. }
  assert (Htail' : ∀ value,
            from_option (fun v => v ≠ EmptyString ∧ allChars isDot v = true)
              True value →
            complexTail (from_option (fun v => "=" +:+ v) EmptyString value +:+ "]")
            = Some (from_option (fun v => "=" +:+ v) EmptyString value)).
  { intros [v|] Hv; apply complexTail_spec; simpl; [right | by left].
    exists v. by rewrite ?append_assoc. }
  unfold complexSubKeyRegex, PredicateSyntax. split.
  - destruct k as [|c rest]; [done |].
    destruct (Ascii.eqb_spec c "["); [subst | by repeat case_match].
    destruct (span isWord rest) as [w1 t1] eqn:Hsp1.
    apply span_spec in Hsp1 as (-> & Hw1 & _).
    destruct (isEmpty w1) eqn:He1; [by repeat case_match |].
    apply isEmpty_false in He1.
    destruct t1 as [|c t2].
    + destruct (complexTail EmptyString) eqn:Ht; [| done].
      by apply complexTail_spec in Ht as [[? _] | (v & ? & _)].
    + destruct (Ascii.eqb_spec c ":") as [-> | Hc].
      * destruct (span isWord t2) as [w2 t3] eqn:Hsp2.
        apply span_spec in Hsp2 as (-> & Hw2 & _).
        destruct (isEmpty w2) eqn:He2; [done |]. apply isEmpty_false in He2.
        destruct (complexTail t3) as [g|] eqn:Ht; [| done].
        intros [= <- <- <-]. destruct (Htail _ _ Ht) as (value & -> & -> & Hv).
        exists (Some w1), value. simpl. by rewrite ?append_assoc.
      * assert (Hgoal : match complexTail (String c t2) with
                        | Some g3 => Some (EmptyString, w1, g3)
                        | None => None
                        end = Some (g1, g2, g3) →
                ∃ name value,
                  (String "[" (w1 +:+ String c t2)
                   = "[" +:+ from_option (fun n => n +:+ ":") EmptyString name
                       +:+ g2 +:+ from_option (fun v => "=" +:+ v) EmptyString value
                       +:+ "]"
                   ∧ from_option nonEmptyWord True name ∧ nonEmptyWord g2
                   ∧ from_option (fun v => v ≠ EmptyString ∧ allChars isDot v = true)
                       True value)
                  ∧ g1 = from_option (fun n => n +:+ ":") EmptyString name
                  ∧ g3 = from_option (fun v => "=" +:+ v) EmptyString value).
        { destruct (complexTail (String c t2)) as [g|] eqn:Ht; [| done].
          intros [= <- <- <-]. destruct (Htail _ _ Ht) as (value & -> & -> & Hv).
          by exists None, value. }
        by repeat case_match.
  - intros (name & value & (-> & Hname & [Hf1 Hf2] & Hv) & -> & ->).
    pose proof (Htail' value Hv) as Ht.
    destruct name as [n|]; simpl in *.
    + destruct Hname as [Hn1 Hn2]. rewrite !append_assoc.
      rewrite (span_app isWord n) by done.
      apply isEmpty_false in Hn1. rewrite Hn1. simpl.
      rewrite (span_app isWord g2) by (done || by eapply complexTail_stops).
      apply isEmpty_false in Hf1. by rewrite Hf1, Ht.
    + rewrite (span_app isWord g2) by (done || by eapply complexTail_stops).
      apply isEmpty_false in Hf1. rewrite Hf1.
      destruct value as [v|]; simpl in *; by rewrite ?Ht.
Qed.

Lemma isEmpty_append_colon n : isEmpty (n +:+ ":") = false.
Proof. by destruct n. Qed.

(** [predicateParts] reads the grammar of the spec: the capture name
    defaults to the field, the filter is empty when [=value] is absent. *)
Lemma predicateParts_spec k matchName matchKey matchValue :
  predicateParts k = Some (matchName, matchKey, matchValue) ↔
  ∃ name value,
    PredicateSyntax k name matchKey value
    ∧ matchName = default matchKey name
    ∧ matchValue = default EmptyString value.
Proof.
  unfold predicateParts. split.
  - destruct (complexSubKeyRegex k) as [[[g1 g2] g3]|] eqn:Hre; [| done].
    apply complexSubKeyRegex_spec in Hre as (name & value & Hsyn & -> & ->).
    intros [= <- <- <-]. exists name, value. split; [done |].
    destruct name as [n|], value as [v|]; simpl;
      rewrite ?isEmpty_append_colon, ?TrimSuffix_app, ?TrimPrefix_eq;
      try done; by destruct v.
  - intros (name & value & Hsyn & -> & ->).
    assert (Hre : complexSubKeyRegex k
              = Some (from_option (fun n => n +:+ ":") EmptyString name, matchKey,
                      from_option (fun v => "=" +:+ v) EmptyString value)).
    { apply complexSubKeyRegex_spec. by exists name, value. }
    rewrite Hre.
    destruct name as [n|], value as [v|]; simpl;
      rewrite ?isEmpty_append_colon, ?TrimSuffix_app, ?TrimPrefix_eq;
      try done; by destruct v.
Qed.

(** ** The program computes the heap-free traversal *)

Section Simulation.
Context `{External}.

Lemma bindings_app h h' r :
  (∀ l, Matches r = Some l → l < length h) →
  bindings (h ++ h') r = bindings h r.
Proof.
  unfold bindings. intros Hv. destruct (Matches r) as [l|]; [| done].
  by rewrite lookup_app_l by auto.
Qed.

Lemma sameMatch_app h h' r f :
  (∀ l, Matches r = Some l → l < length h) →
  sameMatch h r f → sameMatch (h ++ h') r f.
Proof.
  intros Hv (? & ? & ?). repeat split; [done.. |]. by rewrite bindings_app.
Qed.

Lemma freshIn_valid h h' r : freshIn h h' r → ∀ l, Matches r = Some l → l < length h'.
Proof. intros (l & Hl & ?) l' Hl'. rewrite Hl in Hl'. injection Hl' as <-. lia. Qed.

Lemma Forall2_sameMatch_app h h' new found :
  Forall (fun r => ∀ l, Matches r = Some l → l < length h) new →
  Forall2 (sameMatch h) new found → Forall2 (sameMatch (h ++ h')) new found.
Proof.
  intros Hv Hs. induction Hs as [|r f new found Hrf Hs IH]; [constructor |].
  apply Forall_cons in Hv as [Hr Hv].
  constructor; [by apply sameMatch_app | by apply IH].
Qed.

Lemma freshIn_disjoint h h' h'' new1 new2 :
  Forall (freshIn h h') new1 → Forall (freshIn h' h'') new2 →
  ∀ x, x ∈ Matches <$> new1 → x ∉ Matches <$> new2.
Proof.
  intros H1 H2 x (r1 & -> & Hr1)%list_elem_of_fmap (r2 & Heq & Hr2)%list_elem_of_fmap.
  rewrite Forall_forall in H1, H2.
  destruct (H1 _ Hr1) as (l1 & Hl1 & ?), (H2 _ Hr2) as (l2 & Hl2 & ?).
  rewrite Hl1, Hl2 in Heq. injection Heq as ->. lia.
Qed.

Lemma predicateLoop_walkLoop rec prec matchName matchKey matchValue :
  (∀ e, computes (rec e) (prec e)) →
  ∀ elems arrIdx cur st, validIn st cur →
    ∃ new hnew,
      predicateLoop rec matchName matchKey matchValue arrIdx elems cur st
      = (snd (walkLoop prec matchName matchKey matchValue arrIdx elems
                (Key cur) (bindings (heap st) cur)),
         mkState (results st ++ new) (heap st ++ hnew))
      ∧ Forall2 (sameMatch (heap st ++ hnew)) new
          (fst (walkLoop prec matchName matchKey matchValue arrIdx elems
                  (Key cur) (bindings (heap st) cur)))
      ∧ NoDup (Matches <$> new)
      ∧ Forall (freshIn (heap st) (heap st ++ hnew)) new.
Proof.
  intros Hrec. induction elems as [|e elems IH]; intros arrIdx cur [rs h] Hvalid.
  { exists [], []. simpl. rewrite !app_nil_r. repeat split; constructor. }
  assert (Hstop : ∀ (err : option Err),
    ∃ new hnew : list _,
      (err, mkState rs h) = (err, mkState (rs ++ new) (h ++ hnew))
      ∧ Forall2 (sameMatch (h ++ hnew)) new []
      ∧ NoDup (Matches <$> new) ∧ Forall (freshIn h (h ++ hnew)) new).
  { intros err. exists [], []. rewrite !app_nil_r. repeat split; constructor. }
  simpl. destruct e as [m| | | | | |]; try apply Hstop.
  destruct (m !! matchKey) as [[| |a| | | |]|] eqn:Hfield; try apply Hstop;
    [| by apply IH].
  destruct (negb (isEmpty matchValue) && negb (String.eqb matchValue a));
    [by apply IH |].
  (* the element is selected *)
  set (b := bindings h cur).
  assert (Horig : ∃ orig h0,
    (match Matches cur with Some l => mret l | None => newMap ∅ end) (mkState rs h)
    = (orig, mkState rs (h ++ h0))
    ∧ orig < length (h ++ h0) ∧ default ∅ ((h ++ h0) !! orig) = b).
  { unfold b, bindings. destruct (Matches cur) as [l|] eqn:Hl.
    - exists l, []. rewrite app_nil_r. repeat split. by apply Hvalid.
    - exists (length h), [∅]. repeat split.
      + rewrite length_app. simpl. lia.
      + by rewrite lookup_app_r, Nat.sub_diag by lia. }
  destruct Horig as (orig & h0 & Eorig & Horig & Hcontent).
  unfold mbind, M_bind at 1. rewrite Eorig.
  unfold mbind, M_bind, readMap, newMap; simpl. rewrite Hcontent.
  set (h1 := h ++ h0) in *.
  set (cur2 := mkRT (Key cur ++ [indexKey arrIdx]) (Value cur) (Some (length h1))).
  destruct (Hrec (Mapping m) cur2 (mkState rs (h1 ++ [<[matchName:=a]> b])))
    as (new1 & hnew1 & Erec & Hsame1 & Hnd1 & Hfresh1).
  { intros l [= <-]. simpl. rewrite length_app. simpl. lia. }
  simpl in Erec, Hsame1, Hfresh1.
  assert (Hb2 : bindings (h1 ++ [<[matchName:=a]> b]) cur2 = <[matchName:=a]> b).
  { unfold bindings, cur2. simpl. by rewrite lookup_app_r, Nat.sub_diag by lia. }
  rewrite Hb2 in Erec, Hsame1. subst cur2.
  rewrite Erec.
  destruct (prec (Mapping m) (Key cur ++ [indexKey arrIdx]) (<[matchName:=a]> b))
    as [found1 err1] eqn:Eprec.
  simpl in *.
  assert (Hfresh1' : Forall (freshIn h (h1 ++ [<[matchName:=a]> b] ++ hnew1)) new1).
  { destruct Hfresh1 as [Hf | [Hlen Hf]].
    - eapply Forall_impl; [exact Hf |]. intros r (l & Hl & Hlt). exists l.
      split; [done |]. unfold h1 in *. rewrite !length_app in *. simpl in *. lia.
    - eapply Forall_impl; [exact Hf |]. intros r Hr. exists (length h1).
      split; [done |]. unfold h1. rewrite !length_app. simpl. lia. }
  destruct err1 as [e1|].
  { exists new1, (h0 ++ [<[matchName:=a]> b] ++ hnew1).
    unfold h1 in *. rewrite <- !app_assoc in *. repeat split; done. }
  set (cur3 := mkRT (Key cur) (Value cur) (Some orig)).
  destruct (IH (S arrIdx) cur3
              (mkState (rs ++ new1) ((h1 ++ [<[matchName:=a]> b]) ++ hnew1)))
    as (new2 & hnew2 & Eloop & Hsame2 & Hnd2 & Hfresh2).
  { intros l [= <-]. simpl. rewrite !length_app. lia. }
  simpl in Eloop, Hsame2, Hfresh2.
  assert (Hb3 : bindings ((h1 ++ [<[matchName:=a]> b]) ++ hnew1) cur3 = b).
  { unfold bindings, cur3. simpl. rewrite <- app_assoc.
    by rewrite lookup_app_l by done. }
  rewrite Hb3 in Eloop, Hsame2. subst cur3. rewrite Eloop.
  destruct (walkLoop prec matchName matchKey matchValue (S arrIdx) elems (Key cur) b)
    as [found2 err2] eqn:Ewalk.
  simpl in *.
  exists (new1 ++ new2), (h0 ++ [<[matchName:=a]> b] ++ hnew1 ++ hnew2).
  unfold h1 in *. rewrite <- !app_assoc in *. repeat split.
  - apply Forall2_app; [| done].
    replace (h ++ h0 ++ [<[matchName:=a]> b] ++ hnew1 ++ hnew2)
      with ((h ++ h0 ++ [<[matchName:=a]> b] ++ hnew1) ++ hnew2)
      by (by rewrite <- !app_assoc).
    apply Forall2_sameMatch_app; [| done].
    eapply Forall_impl; [exact Hfresh1' |]. intros r Hr. by eapply freshIn_valid.
  - rewrite fmap_app. apply NoDup_app. repeat split; [done | | done].
    eapply freshIn_disjoint; [exact Hfresh1' | exact Hfresh2].
  - apply Forall_app. split.
    + eapply Forall_impl; [exact Hfresh1' |]. intros r (l & Hl & Hlt). exists l.
      split; [done |]. rewrite !length_app in *. simpl in *. lia.
    + eapply Forall_impl; [exact Hfresh2 |]. intros r (l & Hl & Hlt). exists l.
      split; [done |]. rewrite !length_app in *. simpl in *. lia.
Qed.

Theorem GetRecurseFrom_walk subKeys value :
  computes (GetRecurseFrom subKeys value) (walk subKeys value).
Proof.
  revert value. induction subKeys as [|subKey rest IH]; intros value cur [rs h] Hvalid.
  { exists [mkRT (Key cur) value (Matches cur)], []. simpl. rewrite app_nil_r.
    split_and!.
    - done.
    - by repeat constructor.
    - apply NoDup_singleton.
    - right. split; [done |]. by repeat constructor. }
  assert (Hstop : ∀ (err : option Err),
    ∃ new hnew : list _,
      (err, mkState rs h) = (err, mkState (rs ++ new) (h ++ hnew))
      ∧ Forall2 (sameMatch (h ++ hnew)) new []
      ∧ NoDup (Matches <$> new)
      ∧ (Forall (freshIn h (h ++ hnew)) new
         ∨ length new ≤ 1 ∧ Forall (fun r => Matches r = Matches cur) new)).
  { intros err. exists [], []. rewrite !app_nil_r.
    split_and!; [done | constructor | constructor | left; constructor]. }
  assert (Hdown : ∀ value',
    ∃ new hnew,
      GetRecurseFrom rest value'
        (mkRT (Key cur ++ [subKey]) (Value cur) (Matches cur)) (mkState rs h)
      = (snd (walk rest value' (Key cur ++ [subKey]) (bindings h cur)),
         mkState (rs ++ new) (h ++ hnew))
      ∧ Forall2 (sameMatch (h ++ hnew)) new
          (fst (walk rest value' (Key cur ++ [subKey]) (bindings h cur)))
      ∧ NoDup (Matches <$> new)
      ∧ (Forall (freshIn h (h ++ hnew)) new
         ∨ length new ≤ 1 ∧ Forall (fun r => Matches r = Matches cur) new)).
  { intros value'.
    apply (IH value' (mkRT (Key cur ++ [subKey]) (Value cur) (Matches cur))
             (mkState rs h)).
    exact Hvalid. }
  simpl. destruct (isNormal subKey).
  - destruct value as [m|l| | | | |]; try apply Hstop.
    + destruct (m !! subKey); [apply Hdown | apply Hstop].
    + destruct (getIndex subKey) as [idx|]; [| apply Hstop].
      destruct (l !! idx); [apply Hdown | apply Hstop].
  - destruct (predicateParts subKey) as [[[matchName matchKey] matchValue]|];
      [| apply Hstop].
    destruct value as [m|l| | | | |]; try apply Hstop.
    destruct (predicateLoop_walkLoop (GetRecurseFrom rest) (walk rest)
                matchName matchKey matchValue IH l 0 cur (mkState rs h) Hvalid)
      as (new & hnew & E & Hsame & Hnd & Hfresh).
    exists new, hnew. split_and!; [done.. |]. by left.
Qed.

End Simulation.

(** ** Results are branches of the path *)

Section Soundness.
Context `{External}.

Lemma Branch_length subKeys v ks caps w :
  Branch subKeys v ks caps w → length ks = length subKeys.
Proof. induction 1; simpl; congruence. Qed.

(** What [selected] computes is the relation [selects]. *)
Lemma selected_selects field filter e :
  selected field filter e = true ↔ ∃ a, selects field filter e a.
Proof.
  split.
  - destruct e as [m| | | | | |]; simpl; try done.
    destruct (m !! field) as [[| |a| | | |]|] eqn:Hf; try done.
    intros [He | He%String.eqb_eq]%orb_true_iff; exists a; constructor; auto.
    left. by apply isEmpty_true.
  - intros [a [m a' Hf [-> | ->]]]; simpl; rewrite Hf; [done |].
    rewrite String.eqb_refl. apply orb_true_r.
Qed.

(** The test of the loop at utils.go:130 lets exactly the selected
    elements through. *)
Lemma loop_test_selects filter a :
  negb (isEmpty filter) && negb (String.eqb filter a) = false ↔
  filter = EmptyString ∨ filter = a.
Proof.
  rewrite andb_false_iff, !negb_false_iff, isEmpty_true, String.eqb_eq. tauto.
Qed.

Lemma walkLoop_sound rest rec name field filter :
  soundFor rest rec →
  ∀ elems arrIdx key b f,
    f ∈ fst (walkLoop rec name field filter arrIdx elems key b) →
    ∃ j e a ks caps,
      elems !! j = Some e ∧ selects field filter e a
      ∧ fKey f = key ++ indexKey (arrIdx + j) :: ks
      ∧ Branch rest e ks caps (fValue f)
      ∧ fBindings f = capture (<[name := a]> b) caps.
Proof.
  intros Hrec. induction elems as [|e elems IH]; intros arrIdx key b f; simpl.
  { by intros ?%elem_of_nil. }
  assert (Hnext :
    f ∈ fst (walkLoop rec name field filter (S arrIdx) elems key b) →
    ∃ j e' a ks caps,
      (e :: elems) !! j = Some e' ∧ selects field filter e' a
      ∧ fKey f = key ++ indexKey (arrIdx + j) :: ks
      ∧ Branch rest e' ks caps (fValue f)
      ∧ fBindings f = capture (<[name := a]> b) caps).
  { intros (j & e' & a & ks & caps & Hj & Hsel & Hk & Hbr & Hb)%IH.
    exists (S j), e', a, ks, caps. split_and!; try done.
    by replace (arrIdx + S j) with (S arrIdx + j) by lia. }
  destruct e as [m| | | | | |]; try by intros ?%elem_of_nil.
  destruct (m !! field) as [[| |a| | | |]|] eqn:Hf;
    try (by intros ?%elem_of_nil); [| done].
  destruct (negb (isEmpty filter) && negb (String.eqb filter a)) eqn:Htest;
    [done |].
  apply loop_test_selects in Htest.
  destruct (rec (Mapping m) (key ++ [indexKey arrIdx]) (<[name:=a]> b))
    as [found err] eqn:Erec.
  assert (Hhere : f ∈ found →
    ∃ j e' a' ks caps,
      (Mapping m :: elems) !! j = Some e' ∧ selects field filter e' a'
      ∧ fKey f = key ++ indexKey (arrIdx + j) :: ks
      ∧ Branch rest e' ks caps (fValue f)
      ∧ fBindings f = capture (<[name := a']> b) caps).
  { intros Hin.
    destruct (Hrec (Mapping m) (key ++ [indexKey arrIdx]) (<[name:=a]> b) f)
      as (ks & caps & Hk & Hbr & Hb); [by rewrite Erec |].
    exists 0, (Mapping m), a, ks, caps.
    split_and!; [done | by constructor | | done | done].
    by rewrite Hk, <- app_assoc, Nat.add_0_r. }
  destruct err as [e1|]; [done |].
  destruct (walkLoop rec name field filter (S arrIdx) elems key b)
    as [found' err'] eqn:Eloop.
  simpl in *. intros [Hin | Hin]%elem_of_app; auto.
Qed.

Theorem walk_sound subKeys : soundFor subKeys (walk subKeys).
Proof.
  induction subKeys as [|subKey rest IH]; intros v key b f; simpl.
  { intros ->%list_elem_of_singleton. exists [], []. simpl.
    rewrite app_nil_r. split_and!; [done | constructor | done]. }
  assert (Hdown : ∀ v', navStep subKey v v' → isNormal subKey = true →
    f ∈ fst (walk rest v' (key ++ [subKey]) b) →
    ∃ ks caps, fKey f = key ++ ks ∧ Branch (subKey :: rest) v ks caps (fValue f)
               ∧ fBindings f = capture b caps).
  { intros v' Hstep Hn (ks & caps & Hk & Hbr & Hb)%IH.
    exists (subKey :: ks), caps. split_and!; [| by econstructor | done].
    by rewrite Hk, <- app_assoc. }
  destruct (isNormal subKey) eqn:Hn.
  - destruct v as [m|l| | | | |]; try by intros ?%elem_of_nil.
    + destruct (m !! subKey) as [v'|] eqn:Hm; [| by intros ?%elem_of_nil].
      apply Hdown; [by constructor | done].
    + destruct (getIndex subKey) as [idx|] eqn:Hi; [| by intros ?%elem_of_nil].
      destruct (l !! idx) as [v'|] eqn:Hl; [| by intros ?%elem_of_nil].
      apply Hdown; [by econstructor | done].
  - destruct (predicateParts subKey) as [[[name field] filter]|] eqn:Hp;
      [| by intros ?%elem_of_nil].
    destruct v as [m|l| | | | |]; try by intros ?%elem_of_nil.
    intros (j & e & a & ks & caps & Hj & Hsel & Hk & Hbr & Hb)%(walkLoop_sound rest);
      [| exact IH].
    exists (indexKey j :: ks), ((name, a) :: caps).
    split_and!; [done | by econstructor | done].
Qed.

End Soundness.

(** ** Errors reach the caller *)

Section Failure.
Context `{External}.

Lemma walkLoop_fails_selected rec name field filter e a :
  (∀ key b, snd (rec e key b) ≠ None) → selects field filter e a →
  ∀ elems j arrIdx key b, elems !! j = Some e →
    snd (walkLoop rec name field filter arrIdx elems key b) ≠ None.
Proof.
  intros Hrec Hsel. induction elems as [|e' elems IH]; intros j arrIdx key b Hj.
  { by rewrite lookup_nil in Hj. }
  simpl. destruct e' as [m| | | | | |]; try done.
  destruct (m !! field) as [[| |a'| | | |]|] eqn:Hf; try done.
  - destruct (negb (isEmpty filter) && negb (String.eqb filter a')) eqn:Htest.
    + destruct j as [|j]; simpl in Hj; [| by eapply IH].
      injection Hj as <-. inversion Hsel as [m' a'' Hf' Hfa]; subst.
      rewrite Hf in Hf'. injection Hf' as <-.
      apply loop_test_selects in Hfa. congruence.
    + destruct (rec (Mapping m) (key ++ [indexKey arrIdx]) (<[name:=a']> b))
        as [found err] eqn:Erec.
      destruct err as [e1|]; [done |].
      destruct j as [|j]; simpl in Hj.
      * injection Hj as <-. specialize (Hrec (key ++ [indexKey arrIdx]) (<[name:=a']> b)).
        by rewrite Erec in Hrec.
      * specialize (IH j (S arrIdx) key b Hj).
        by destruct (walkLoop rec name field filter (S arrIdx) elems key b).
  - destruct j as [|j]; simpl in Hj; [| by eapply IH].
    injection Hj as <-. inversion Hsel; subst. congruence.
Qed.

Lemma walkLoop_fails_inadmissible rec name field filter :
  ∀ elems arrIdx key b,
    Exists (fun e => admissible field e = false) elems →
    snd (walkLoop rec name field filter arrIdx elems key b) ≠ None.
Proof.
  induction elems as [|e elems IH]; intros arrIdx key b Hex.
  { by apply Exists_nil in Hex. }
  simpl. destruct e as [m| | | | | |]; try done.
  destruct (m !! field) as [[| |a| | | |]|] eqn:Hf; try done.
  - assert (Hex' : Exists (fun e => admissible field e = false) elems).
    { apply Exists_cons in Hex as [Hhd | ?]; [| done]. simpl in Hhd.
      by rewrite Hf in Hhd. }
    destruct (negb (isEmpty filter) && negb (String.eqb filter a)); [by apply IH |].
    destruct (rec (Mapping m) (key ++ [indexKey arrIdx]) (<[name:=a]> b))
      as [found [e1|]]; [done |].
    specialize (IH (S arrIdx) key b Hex').
    by destruct (walkLoop rec name field filter (S arrIdx) elems key b).
  - apply IH. apply Exists_cons in Hex as [Hhd | ?]; [| done]. simpl in Hhd.
    by rewrite Hf in Hhd.
Qed.

(** Every error aborts the call: a failure anywhere a branch arrives is
    the failure of the whole traversal. *)
Theorem walk_fails_reaches subKeys v subKeys' n :
  Reaches subKeys v subKeys' n → failsAt subKeys' n → failsAt subKeys v.
Proof.
  induction 1 as [| k rest v v' sk' n Hn Hstep _ IH
                  | k rest l j e a name field filter sk' n Hn Hp Hj Hsel _ IH];
    intros Hfail; [done | |]; specialize (IH Hfail); intros key b; simpl;
    rewrite Hn.
  - destruct Hstep as [k m v' Hm | k l idx v' Hi Hl].
    + rewrite Hm. apply IH.
    + rewrite Hi, Hl. apply IH.
  - rewrite Hp. by eapply walkLoop_fails_selected.
Qed.

Lemma failsAt_missing_key k rest m :
  isNormal k = true → m !! k = None → failsAt (k :: rest) (Mapping m).
Proof. intros Hn Hm key b. simpl. by rewrite Hn, Hm. Qed.

Lemma failsAt_index_out_of_range k rest l idx :
  isNormal k = true → getIndex k = Some idx → length l ≤ idx →
  failsAt (k :: rest) (Sequence l).
Proof.
  intros Hn Hi Hlen key b. simpl. rewrite Hn, Hi.
  by rewrite (lookup_ge_None_2 l idx Hlen).
Qed.

Lemma failsAt_inadmissible k rest l name field filter :
  isNormal k = false → predicateParts k = Some (name, field, filter) →
  Exists (fun e => admissible field e = false) l →
  failsAt (k :: rest) (Sequence l).
Proof.
  intros Hn Hp Hex key b. simpl. rewrite Hn, Hp.
  by apply walkLoop_fails_inadmissible.
Qed.

Lemma failsAt_invalid k rest v :
  isNormal k = false → predicateParts k = None → failsAt (k :: rest) v.
Proof. intros Hn Hp key b. simpl. by rewrite Hn, Hp. Qed.

(** ** What [GetAll] returns, in terms of [walk] *)

Lemma GetAll_walk key resource h :
  ∃ rs hnew,
    GetAll key resource h
    = (rs, snd (walk (GetSubKeys key) resource [] ∅), h ++ hnew)
    ∧ Forall2 (sameMatch (h ++ hnew)) rs
        (fst (walk (GetSubKeys key) resource [] ∅))
    ∧ NoDup (Matches <$> rs)
    ∧ (Forall (freshIn h (h ++ hnew)) rs
       ∨ length rs ≤ 1 ∧ Forall (fun r => Matches r = None) rs).
Proof.
  destruct (GetRecurseFrom_walk (GetSubKeys key) resource
              (mkRT [] Null None) (mkState [] h))
    as (new & hnew & E & Hsame & Hnd & Hfresh); [done |].
  exists new, hnew. unfold GetAll, GetRecurse. rewrite drop_0, E. done.
Qed.

Lemma GetAll_error key resource h :
  snd (fst (GetAll key resource h)) = snd (walk (GetSubKeys key) resource [] ∅).
Proof. destruct (GetAll_walk key resource h) as (rs & hnew & -> & _). done. Qed.

(** Every result, also one returned next to an error, is a complete
    branch of the path: its key path, its value and its bindings. *)
Theorem GetAll_sound key resource h rs err h' r :
  GetAll key resource h = (rs, err, h') → r ∈ rs →
  ∃ caps, Branch (GetSubKeys key) resource (Key r) caps (Value r)
          ∧ bindings h' r = capture ∅ caps.
Proof.
  destruct (GetAll_walk key resource h) as (rs' & hnew & -> & Hsame & _).
  intros [= <- <- <-] Hr.
  destruct (proj1 (list_elem_of_lookup _ _) Hr) as [i Hi].
  destruct (Forall2_lookup_l _ _ _ _ _ Hsame Hi) as (f & Hf & Hk & Hv & Hb).
  destruct (walk_sound (GetSubKeys key) resource [] ∅ f)
    as (ks & caps & Hks & Hbr & Hcaps); [by eapply list_elem_of_lookup_2 |].
  exists caps. simpl in Hks. by rewrite Hk, Hv, Hb, Hks.
Qed.

End Failure.

(** ** Paths without predicates *)

Section PredicateFree.
Context `{External}.

Lemma navStep_deterministic k v v1 v2 : navStep k v v1 → navStep k v v2 → v1 = v2.
Proof. destruct 1; inversion 1; congruence. Qed.

(** [Get] finds a value exactly when plain navigation arrives at it. *)
Lemma GetFrom_Navigates subKeys v w :
  GetFrom subKeys v = (w, true) ↔ Navigates subKeys v w.
Proof.
  split.
  - revert v. induction subKeys as [|k rest IH]; intros v; simpl.
    { intros [= ->]. constructor. }
    destruct v as [m|l| | | | |]; try done.
    + destruct (m !! k) as [v'|] eqn:Hm; [| done].
      intros Hg. econstructor; [by constructor | by apply IH].
    + destruct (getIndex k) as [idx|] eqn:Hi; [| done].
      destruct (l !! idx) as [v'|] eqn:Hl; [| done].
      intros Hg. econstructor; [by econstructor | by apply IH].
  - induction 1 as [| k rest v v' w Hstep _ IH]; simpl; [done |].
    destruct Hstep as [k m v' Hm | k l idx v' Hi Hl].
    + by rewrite Hm.
    + by rewrite Hi, Hl.
Qed.

Lemma walk_predicateFree subKeys :
  predicateFree subKeys → ∀ v key b,
    match GetFrom subKeys v with
    | (w, true) => walk subKeys v key b = ([mkFound (key ++ subKeys) w b], None)
    | (_, false) => ∃ e, walk subKeys v key b = ([], Some e)
    end.
Proof.
  induction 1 as [|k rest Hk Hrest IH]; intros v key b; simpl.
  { by rewrite app_nil_r. }
  rewrite Hk.
  assert (Hdown : ∀ v',
    match GetFrom rest v' with
    | (w, true) =>
        walk rest v' (key ++ [k]) b = ([mkFound (key ++ k :: rest) w b], None)
    | (_, false) => ∃ e, walk rest v' (key ++ [k]) b = ([], Some e)
    end).
  { intros v'. specialize (IH v' (key ++ [k]) b).
    by rewrite <- app_assoc in IH. }
  destruct v as [m|l| | | | |]; try by eexists.
  - destruct (m !! k) as [v'|]; [apply Hdown | by eexists].
  - destruct (getIndex k) as [idx|]; [| by eexists].
    destruct (l !! idx) as [v'|]; [apply Hdown | by eexists].
Qed.

End PredicateFree.

(** ** Independent predicates *)

Lemma append_inj_r (a b c : string) : a +:+ c = b +:+ c → a = b.
Proof.
  revert b. induction a as [|x a IH]; intros [|y b] Heq; simpl in *.
  - done.
  - apply (f_equal String.length) in Heq. simpl in Heq.
    rewrite append_length in Heq. lia.
  - apply (f_equal String.length) in Heq. simpl in Heq.
    rewrite append_length in Heq. lia.
  - injection Heq as -> Heq. f_equal. by apply IH.
Qed.

Lemma indexKey_inj i j : indexKey i = indexKey j → i = j.
Proof.
  unfold indexKey. intros Heq. simpl in Heq. injection Heq as Heq.
  apply append_inj_r in Heq. by apply (inj pretty) in Heq.
Qed.

Section Independence.
Context `{External}.

Lemma walkLoop_independent rest rec name field filter P :
  soundFor rest rec →
  ∀ elems arrIdx key b,
    forallb (admissible field) elems = true →
    (∀ e, e ∈ elems → selected field filter e = true →
       ∀ key b, ∃ fs, rec e key b = (fs, None) ∧ length fs = P
                      ∧ NoDup (fKey <$> fs)) →
    ∃ fs, walkLoop rec name field filter arrIdx elems key b = (fs, None)
          ∧ length fs = length (List.filter (selected field filter) elems) * P
          ∧ NoDup (fKey <$> fs).
Proof.
  intros Hsound. induction elems as [|e elems IH]; intros arrIdx key b Hadm Hrec.
  { exists []. simpl. split_and!; [done | done | constructor]. }
  simpl in Hadm. apply andb_true_iff in Hadm as [Hadm_e Hadm].
  assert (Hrec' : ∀ e', e' ∈ elems → selected field filter e' = true →
            ∀ key b, ∃ fs, rec e' key b = (fs, None) ∧ length fs = P
                           ∧ NoDup (fKey <$> fs)).
  { intros e' He'. apply Hrec. by right. }
  specialize (IH (S arrIdx) key b Hadm Hrec').
  destruct e as [m| | | | | |]; try done. simpl in *.
  destruct (m !! field) as [[| |a| | | |]|] eqn:Hf; try done.
  replace (negb (isEmpty filter) && negb (String.eqb filter a))
    with (negb (isEmpty filter || String.eqb filter a))
    by apply negb_orb.
  destruct (isEmpty filter || String.eqb filter a) eqn:Hsel; simpl; [| done].
  destruct (Hrec (Mapping m)) with (key := key ++ [indexKey arrIdx])
                                   (b := <[name:=a]> b)
    as (fs1 & E1 & Hlen1 & Hnd1); [by left | by simpl; rewrite Hf |].
  destruct IH as (fs2 & E2 & Hlen2 & Hnd2).
  pose proof (walkLoop_sound rest rec name field filter Hsound elems (S arrIdx) key b)
    as Hloop.
  pose proof (Hsound (Mapping m) (key ++ [indexKey arrIdx]) (<[name:=a]> b)) as Hhere.
  rewrite E1, E2 in *. simpl in *.
  exists (fs1 ++ fs2). split_and!; [done | rewrite length_app; lia |].
  rewrite fmap_app. apply NoDup_app. split_and!; [done | | done].
  intros k (f1 & -> & Hf1)%list_elem_of_fmap (f2 & Heq & Hf2)%list_elem_of_fmap.
  destruct (Hhere f1 Hf1) as (ks1 & _ & Hk1 & _).
  destruct (Hloop f2 Hf2) as (j & _ & _ & ks2 & _ & _ & _ & Hk2 & _).
  rewrite Hk1, Hk2, <- app_assoc in Heq. apply app_inv_head in Heq.
  assert (Heq' : indexKey arrIdx = indexKey (S arrIdx + j)).
  { change ([indexKey arrIdx] ++ ks1) with (indexKey arrIdx :: ks1) in Heq.
    exact (f_equal (hd EmptyString) Heq). }
  apply indexKey_inj in Heq'. lia.
Qed.

Theorem walk_independent subKeys v ms :
  Independent subKeys v ms → ∀ key b,
    ∃ fs, walk subKeys v key b = (fs, None)
          ∧ length fs = product ms ∧ NoDup (fKey <$> fs).
Proof.
  induction 1 as [ v | k rest v v' ms Hn Hstep _ IH
                 | k rest l name field filter ms Hn Hp Hadm _ IH ];
    intros key b; simpl.
  - eexists. split_and!; [done | done | apply NoDup_singleton].
  - rewrite Hn. destruct Hstep as [k m v' Hm | k l idx v' Hi Hl].
    + rewrite Hm. apply IH.
    + rewrite Hi, Hl. apply IH.
  - rewrite Hn, Hp.
    destruct (walkLoop_independent rest (walk rest) name field filter (product ms)
                (walk_sound rest) l 0 key b Hadm IH)
      as (fs & E & Hlen & Hnd).
    exists fs. by rewrite E.
Qed.

End Independence.

(** ** [Set] and [SetCreatingNew] *)

Section Writes.
Context `{External}.

Lemma SetFrom_step k k2 rest newValue value :
  SetFrom (k :: k2 :: rest) newValue value
  = match value with
    | Mapping valueMap =>
        match valueMap !! k with
        | Some child =>
            let '(child', err) := SetFrom (k2 :: rest) newValue child in
            (Mapping (<[k := child']> valueMap), err)
        | None => (value, Some (ErrSetSubkeyNotInMap k))
        end
    | Sequence valueArr =>
        match getIndex k with
        | Some idx =>
            match valueArr !! idx with
            | Some child =>
                let '(child', err) := SetFrom (k2 :: rest) newValue child in
                (Sequence (<[idx := child']> valueArr), err)
            | None => (value, Some (ErrSetInvalidIndex k))
            end
        | None => (value, Some (ErrSetInvalidIndex k))
        end
    | _ => (value, Some (ErrSetReachedScalar k))
    end.
Proof. reflexivity. Qed.

(** An error of [Set] leaves the configuration as it was: the only writes
    are the two assignments before [return nil]. *)
Lemma SetFrom_error_unchanged subKeys newValue v v' e :
  SetFrom subKeys newValue v = (v', Some e) → v' = v.
Proof.
  revert v v'. induction subKeys as [|k rest IH]; intros v v'; [done |].
  destruct rest as [|k2 rest].
  - simpl. repeat case_match; congruence.
  - rewrite SetFrom_step. set (rest' := k2 :: rest) in *. destruct v as [m|l| | | | |];
      try (by intros [= <- ?]).
    + destruct (m !! k) as [child|] eqn:Hm; [| by intros [= <- ?]].
      destruct (SetFrom rest' newValue child) as [child' err] eqn:E.
      intros [= <- ->]. apply IH in E as ->. by rewrite insert_id.
    + destruct (getIndex k) as [idx|]; [| by intros [= <- ?]].
      destruct (l !! idx) as [child|] eqn:Hl; [| by intros [= <- ?]].
      destruct (SetFrom rest' newValue child) as [child' err] eqn:E.
      intros [= <- ->]. apply IH in E as ->. by rewrite list_insert_id.
Qed.

Lemma SetCreatingNewFrom_step k k2 rest newValue config :
  SetCreatingNewFrom (k :: k2 :: rest) newValue config
  = <[k := Mapping (SetCreatingNewFrom (k2 :: rest) newValue
                      (childMap (config !! k)))]> config.
Proof.
  change (SetCreatingNewFrom (k :: k2 :: rest) newValue config)
    with (match config !! k with
          | Some (Mapping valueMap) =>
              <[k := Mapping (SetCreatingNewFrom (k2 :: rest) newValue valueMap)]>
                config
          | _ => <[k := Mapping (SetCreatingNewFrom (k2 :: rest) newValue ∅)]> config
          end).
  by destruct (config !! k) as [[| | | | | |]|].
Qed.

(** What [SetCreatingNew] wrote is found under the sub keys read as
    literal map keys. *)
Lemma lookupPath_SetCreatingNewFrom subKeys newValue config :
  subKeys ≠ [] →
  lookupPath subKeys (Mapping (SetCreatingNewFrom subKeys newValue config))
  = Some newValue.
Proof.
  revert config. induction subKeys as [|k rest IH]; intros config Hne; [done |].
  destruct rest as [|k2 rest].
  - simpl. by rewrite lookup_insert_eq.
  - rewrite SetCreatingNewFrom_step. cbn [lookupPath].
    rewrite lookup_insert_eq. by apply IH.
Qed.

End Writes.

(** ** Bindings of a branch *)

Lemma capture_app b caps1 caps2 :
  capture b (caps1 ++ caps2) = capture (capture b caps1) caps2.
Proof. apply foldl_app. Qed.

Lemma capture_lookup_other b caps n :
  n ∉ caps.*1 → capture b caps !! n = b !! n.
Proof.
  revert b. induction caps as [|[n' a'] caps IH]; intros b Hn; [done |].
  simpl in *. apply not_elem_of_cons in Hn as [Hne Hn].
  rewrite IH by done. by rewrite lookup_insert_ne.
Qed.

(** A capture name is bound to the field value of the element chosen by
    the last predicate of the branch that captures under that name. *)
Lemma capture_last b caps1 n a caps2 :
  n ∉ caps2.*1 → capture b (caps1 ++ (n, a) :: caps2) !! n = Some a.
Proof.
  intros Hn. rewrite capture_app. simpl.
  rewrite capture_lookup_other by done. apply lookup_insert_eq.
Qed.

(** ** No branch is missed, and none is returned twice *)

Section Completeness.
Context `{External}.

Lemma walkLoop_complete rec name field filter f e a :
  selects field filter e a →
  ∀ elems j arrIdx key b fs,
    elems !! j = Some e →
    walkLoop rec name field filter arrIdx elems key b = (fs, None) →
    (∀ fs', rec e (key ++ [indexKey (arrIdx + j)]) (<[name := a]> b) = (fs', None) →
            f ∈ fs') →
    f ∈ fs.
Proof.
  intros Hsel. induction elems as [|e' elems IH]; intros j arrIdx key b fs Hj.
  { by rewrite lookup_nil in Hj. }
  simpl. destruct e' as [m| | | | | |]; try done.
  assert (Hnext : ∀ j' fs0, j = S j' →
            walkLoop rec name field filter (S arrIdx) elems key b = (fs0, None) →
            (∀ fs', rec e (key ++ [indexKey (arrIdx + j)]) (<[name := a]> b)
                    = (fs', None) → f ∈ fs') → f ∈ fs0).
  { intros j' fs0 -> Hloop Hrec. apply (IH j' (S arrIdx) key b fs0); [done | done |].
    by replace (S arrIdx + j') with (arrIdx + S j') by lia. }
  destruct (m !! field) as [[| |a'| | | |]|] eqn:Hf; try done.
  - destruct (negb (isEmpty filter) && negb (String.eqb filter a')) eqn:Htest.
    + destruct j as [|j']; [| by apply (Hnext j')].
      simpl in Hj. injection Hj as <-. inversion Hsel as [m' a'' Hf' Hfa]; subst.
      rewrite Hf in Hf'. injection Hf' as <-.
      apply loop_test_selects in Hfa. congruence.
    + destruct (rec (Mapping m) (key ++ [indexKey arrIdx]) (<[name:=a']> b))
        as [found [e1|]] eqn:Erec; [done |].
      destruct (walkLoop rec name field filter (S arrIdx) elems key b)
        as [found' err'] eqn:Eloop.
      intros [= <- ->] Hrec. apply elem_of_app. destruct j as [|j'].
      * left. simpl in Hj. injection Hj as <-.
        inversion Hsel as [m' a'' Hf' Hfa]; subst.
        rewrite Hf in Hf'. injection Hf' as <-.
        apply Hrec. by rewrite Nat.add_0_r.
      * right. by apply (Hnext j').
  - destruct j as [|j']; [| by apply (Hnext j')].
    simpl in Hj. injection Hj as <-. inversion Hsel; subst. congruence.
Qed.

Lemma walk_complete subKeys v ks caps w :
  Branch subKeys v ks caps w →
  ∀ key b fs, walk subKeys v key b = (fs, None) →
    mkFound (key ++ ks) w (capture b caps) ∈ fs.
Proof.
  induction 1 as [ v | k rest v v' ks caps w Hn Hstep _ IH
                 | k rest l j e a name field filter ks caps w Hn Hp Hj Hsel _ IH ];
    intros key b fs; simpl.
  - intros [= <-]. rewrite app_nil_r. by left.
  - rewrite Hn. replace (key ++ k :: ks) with ((key ++ [k]) ++ ks)
      by (by rewrite <- app_assoc).
    destruct Hstep as [k m v' Hm | k l idx v' Hi Hl].
    + rewrite Hm. apply IH.
    + rewrite Hi, Hl. apply IH.
  - rewrite Hn, Hp. intros Hloop.
    eapply (walkLoop_complete (walk rest)); [done | done | done |].
    intros fs' Hrec. simpl in Hrec. apply IH in Hrec.
    by rewrite <- app_assoc in Hrec.
Qed.

Lemma walkLoop_NoDup rest rec name field filter :
  soundFor rest rec →
  (∀ e key b, NoDup (fKey <$> (rec e key b).1)) →
  ∀ elems arrIdx key b,
    NoDup (fKey <$> (walkLoop rec name field filter arrIdx elems key b).1).
Proof.
  intros Hsound Hrec. induction elems as [|e elems IH]; intros arrIdx key b.
  { constructor. }
  simpl. destruct e as [m| | | | | |]; try constructor.
  destruct (m !! field) as [[| |a| | | |]|] eqn:Hf; try constructor; [| apply IH].
  destruct (negb (isEmpty filter) && negb (String.eqb filter a)); [apply IH |].
  pose proof (Hrec (Mapping m) (key ++ [indexKey arrIdx]) (<[name:=a]> b)) as Hnd1.
  pose proof (Hsound (Mapping m) (key ++ [indexKey arrIdx]) (<[name:=a]> b)) as Hhere.
  destruct (rec (Mapping m) (key ++ [indexKey arrIdx]) (<[name:=a]> b))
    as [found [e1|]]; [done |].
  pose proof (IH (S arrIdx) key b) as Hnd2.
  pose proof (walkLoop_sound rest rec name field filter Hsound elems (S arrIdx) key b)
    as Hloop.
  destruct (walkLoop rec name field filter (S arrIdx) elems key b) as [found' err'].
  simpl in *. rewrite fmap_app. apply NoDup_app. split_and!; [done | | done].
  intros k (f1 & -> & Hf1)%list_elem_of_fmap (f2 & Heq & Hf2)%list_elem_of_fmap.
  destruct (Hhere f1 Hf1) as (ks1 & _ & Hk1 & _).
  destruct (Hloop f2 Hf2) as (j & _ & _ & ks2 & _ & _ & _ & Hk2 & _).
  rewrite Hk1, Hk2, <- app_assoc in Heq. apply app_inv_head in Heq.
  assert (Heq' : indexKey arrIdx = indexKey (S arrIdx + j)).
  { change ([indexKey arrIdx] ++ ks1) with (indexKey arrIdx :: ks1) in Heq.
    exact (f_equal (hd EmptyString) Heq). }
  apply indexKey_inj in Heq'. lia.
Qed.

Lemma walk_NoDup subKeys v key b : NoDup (fKey <$> (walk subKeys v key b).1).
Proof.
  revert v key b. induction subKeys as [|k rest IH]; intros v key b; simpl.
  { apply NoDup_singleton. }
  destruct (isNormal k).
  - destruct v as [m|l| | | | |]; try constructor.
    + destruct (m !! k); [apply IH | constructor].
    + destruct (getIndex k) as [idx|]; [| constructor].
      destruct (l !! idx); [apply IH | constructor].
  - destruct (predicateParts k) as [[[name field] filter]|]; [| constructor].
    destruct v as [m|l| | | | |]; try constructor.
    apply (walkLoop_NoDup rest); [apply walk_sound | apply IH].
Qed.

End Completeness.

(** ** The traversal stops at the first failure *)

Lemma before_nil_r ks : ¬ before ks [].
Proof. intros (p & j1 & j2 & r1 & r2 & _ & Hpos & _). by destruct p. Qed.

Lemma before_nil_l pos : ¬ before [] pos.
Proof. intros (p & j1 & j2 & r1 & r2 & Hks & _). by destruct p. Qed.

Lemma before_cons x y a b :
  before (x :: a) (y :: b)
  ↔ (∃ j1 j2, x = indexKey j1 ∧ y = indexKey j2 ∧ j1 < j2) ∨ (x = y ∧ before a b).
Proof.
  split.
  - intros (p & j1 & j2 & r1 & r2 & Hks & Hpos & Hlt). destruct p as [|z p].
    + injection Hks as -> ->. injection Hpos as -> ->. left. eauto.
    + injection Hks as -> ->. injection Hpos as -> ->. right. split; [done |].
      by exists p, j1, j2, r1, r2.
  - intros [(j1 & j2 & -> & -> & Hlt) | [-> (p & j1 & j2 & r1 & r2 & -> & -> & Hlt)]].
    + by exists [], j1, j2, a, b.
    + by exists (y :: p), j1, j2, r1, r2.
Qed.

Lemma before_same x a b : before (x :: a) (x :: b) ↔ before a b.
Proof.
  rewrite before_cons. split; [| by right].
  intros [(j1 & j2 & -> & Heq & Hlt) | [_ ?]]; [| done].
  apply indexKey_inj in Heq. lia.
Qed.

Lemma before_index j1 j2 a b :
  before (indexKey j1 :: a) (indexKey j2 :: b) ↔ j1 < j2 ∨ (j1 = j2 ∧ before a b).
Proof.
  rewrite before_cons. split.
  - intros [(i1 & i2 & ->%indexKey_inj & ->%indexKey_inj & Hlt)
           | [->%indexKey_inj ?]]; auto.
  - intros [Hlt | [-> ?]]; [left; eauto | by right].
Qed.

Lemma inOrder_nil : inOrder [].
Proof. intros i j ks1 ks2 _ Hi. by rewrite lookup_nil in Hi. Qed.

Lemma inOrder_singleton ks : inOrder [ks].
Proof.
  intros i j ks1 ks2 Hlt Hi Hj. apply lookup_lt_Some in Hj. simpl in Hj. lia.
Qed.

Lemma inOrder_app keys1 keys2 :
  inOrder keys1 → inOrder keys2 →
  (∀ ks1 ks2, ks1 ∈ keys1 → ks2 ∈ keys2 → before ks1 ks2) →
  inOrder (keys1 ++ keys2).
Proof.
  intros H1 H2 H12 i j ks1 ks2 Hlt Hi Hj.
  destruct (decide (j < length keys1)) as [Hj1 | Hj1].
  - rewrite lookup_app_l in Hi, Hj by lia. by apply (H1 i j).
  - rewrite lookup_app_r in Hj by lia.
    destruct (decide (i < length keys1)) as [Hi1 | Hi1].
    + rewrite lookup_app_l in Hi by lia.
      apply H12; by eapply list_elem_of_lookup_2.
    + rewrite lookup_app_r in Hi by lia. eapply (H2 (i - length keys1)); [| done..].
      lia.
Qed.

Section StopsProofs.
Context `{External}.

Lemma selects_deterministic field filter e a a' :
  selects field filter e a → selects field filter e a' → a = a'.
Proof. intros [m a1 Hf _]. inversion 1; subst. congruence. Qed.

(** Where a branch fails, the traversal ends with an error. *)
Lemma Fails_failsAt subKeys v pos : Fails subKeys v pos → failsAt subKeys v.
Proof.
  induction 1 as [ k rest v Hn Hstep | k rest v Hn Hp | k rest v Hn Hv
                 | k rest l j e name field filter Hn Hp Hj Hadm
                 | k rest v v' pos Hn Hstep _ IH
                 | k rest l j e a name field filter pos Hn Hp Hj Hsel _ IH ].
  - intros key b. simpl. rewrite Hn. destruct v as [m|l| | | | |]; try done.
    + destruct (m !! k) as [v'|] eqn:Hm; [| done].
      destruct (Hstep v'). by constructor.
    + destruct (getIndex k) as [idx|] eqn:Hi; [| done].
      destruct (l !! idx) as [v'|] eqn:Hl; [| done].
      destruct (Hstep v'). by econstructor.
  - by apply failsAt_invalid.
  - intros key b. simpl. rewrite Hn.
    destruct (predicateParts k) as [[[name field] filter]|]; [| done].
    destruct v as [m|l| | | | |]; try done. by destruct (Hv l).
  - eapply failsAt_inadmissible; [done.. |]. apply Exists_exists.
    exists e. split; [by eapply list_elem_of_lookup_2 | done].
  - eapply (walk_fails_reaches _ _ rest v'); [| done].
    eapply reaches_normal; [done.. | apply reaches_here].
  - eapply (walk_fails_reaches _ _ rest e); [| done].
    eapply reaches_predicate; [done.. | apply reaches_here].
Qed.

(** A loop that ends with an error went through the elements before some
    element [j] without one, and failed on [j]: the element is not
    admissible, or it is selected and the traversal below it failed. *)
Lemma walkLoop_stops rec name field filter elems :
  ∀ arrIdx key b fs err,
    walkLoop rec name field filter arrIdx elems key b = (fs, Some err) →
    ∃ j e fs0,
      elems !! j = Some e
      ∧ walkLoop rec name field filter arrIdx (take j elems) key b = (fs0, None)
      ∧ ((admissible field e = false ∧ fs = fs0)
         ∨ ∃ a fs1,
             selects field filter e a
             ∧ rec e (key ++ [indexKey (arrIdx + j)]) (<[name := a]> b)
               = (fs1, Some err)
             ∧ fs = fs0 ++ fs1).
Proof.
  induction elems as [|e elems IH]; intros arrIdx key b fs err; [done |].
  assert (Hnext : ∀ fs' (pre : list Found),
    walkLoop rec name field filter (S arrIdx) elems key b = (fs', Some err) →
    (∀ j fs0, walkLoop rec name field filter (S arrIdx) (take j elems) key b
              = (fs0, None) →
       walkLoop rec name field filter arrIdx (take (S j) (e :: elems)) key b
       = (pre ++ fs0, None)) →
    ∃ j e' fs0,
      (e :: elems) !! j = Some e'
      ∧ walkLoop rec name field filter arrIdx (take j (e :: elems)) key b
        = (fs0, None)
      ∧ ((admissible field e' = false ∧ pre ++ fs' = fs0)
         ∨ ∃ a fs1,
             selects field filter e' a
             ∧ rec e' (key ++ [indexKey (arrIdx + j)]) (<[name := a]> b)
               = (fs1, Some err)
             ∧ pre ++ fs' = fs0 ++ fs1)).
  { intros fs' pre (j & e' & fs0 & Hj & Htake & Hcase)%IH Hpre.
    exists (S j), e', (pre ++ fs0). split_and!; [done | by apply Hpre |].
    destruct Hcase as [[Hadm ->] | (a & fs1 & Hsel & Hrec & ->)]; [by left |].
    right. exists a, fs1. split_and!; [done | | by rewrite app_assoc].
    by replace (arrIdx + S j) with (S arrIdx + j) by lia. }
  simpl. destruct e as [m| | | | | |];
    try (intros [= <- <-]; eexists 0, _, []; split_and!; [done | done |]; by left).
  destruct (m !! field) as [[| |a| | | |]|] eqn:Hf;
    try (intros [= <- <-]; eexists 0, _, []; split_and!; [done | done |];
         left; simpl; by rewrite Hf).
  - destruct (negb (isEmpty filter) && negb (String.eqb filter a)) eqn:Htest.
    + intros Hloop. apply (Hnext fs []) in Hloop; [done |].
      intros j fs0 Htake. simpl. by rewrite Hf, Htest.
    + apply loop_test_selects in Htest as Hsel.
      destruct (rec (Mapping m) (key ++ [indexKey arrIdx]) (<[name:=a]> b))
        as [found [e1|]] eqn:Erec.
      * intros [= <- <-]. exists 0, (Mapping m), []. split_and!; [done | done |].
        right. exists a, found. split_and!; [by constructor | | done].
        by rewrite Nat.add_0_r.
      * destruct (walkLoop rec name field filter (S arrIdx) elems key b)
          as [found' err'] eqn:Eloop.
        intros [= <- ->]. apply (Hnext found' found); [done |].
        intros j fs0 Htake. simpl. by rewrite Hf, Htest, Erec, Htake.
  - intros Hloop. apply (Hnext fs []) in Hloop; [done |].
    intros j fs0 Htake. simpl. by rewrite Hf.
Qed.

(** A traversal that ends with an error stopped at a position where a
    branch fails, and returns the branches before that position, no more
    and no less. *)
Lemma walk_stops subKeys :
  ∀ v key b fs err,
    walk subKeys v key b = (fs, Some err) →
    ∃ pos,
      Fails subKeys v pos
      ∧ (∀ pos', Fails subKeys v pos' → ¬ before pos' pos)
      ∧ (∀ ks caps w, Branch subKeys v ks caps w → before ks pos →
           mkFound (key ++ ks) w (capture b caps) ∈ fs)
      ∧ (∀ f, f ∈ fs →
           ∃ ks caps, fKey f = key ++ ks ∧ Branch subKeys v ks caps (fValue f)
                      ∧ fBindings f = capture b caps ∧ before ks pos).
Proof.
  induction subKeys as [|k rest IH]; intros v key b fs err; [done |].
  assert (Hhere : Fails (k :: rest) v [] →
    ∃ pos,
      Fails (k :: rest) v pos
      ∧ (∀ pos', Fails (k :: rest) v pos' → ¬ before pos' pos)
      ∧ (∀ ks caps w, Branch (k :: rest) v ks caps w → before ks pos →
           mkFound (key ++ ks) w (capture b caps) ∈ [])
      ∧ (∀ f, f ∈ [] →
           ∃ ks caps, fKey f = key ++ ks
                      ∧ Branch (k :: rest) v ks caps (fValue f)
                      ∧ fBindings f = capture b caps ∧ before ks pos)).
  { intros Hf. exists []. split_and!; [done | | |].
    - by intros pos' _ ?%before_nil_r.
    - by intros ks caps w _ ?%before_nil_r.
    - by intros f ?%elem_of_nil. }
  assert (Hdown : ∀ v', isNormal k = true → navStep k v v' →
    walk rest v' (key ++ [k]) b = (fs, Some err) →
    ∃ pos,
      Fails (k :: rest) v pos
      ∧ (∀ pos', Fails (k :: rest) v pos' → ¬ before pos' pos)
      ∧ (∀ ks caps w, Branch (k :: rest) v ks caps w → before ks pos →
           mkFound (key ++ ks) w (capture b caps) ∈ fs)
      ∧ (∀ f, f ∈ fs →
           ∃ ks caps, fKey f = key ++ ks
                      ∧ Branch (k :: rest) v ks caps (fValue f)
                      ∧ fBindings f = capture b caps ∧ before ks pos)).
  { intros v' Hn Hstep (pos & Hfails & Hfirst & Hall & Honly)%IH.
    exists (k :: pos). split_and!; [by econstructor | | |].
    - intros pos' Hf' Hbefore.
      inversion Hf' as [ | | | | k' rest' v0 v'' pos1 _ Hstep' Hf1 | ]; subst;
        try congruence; try (by apply before_nil_l in Hbefore).
      rewrite (navStep_deterministic _ _ _ _ Hstep' Hstep) in Hf1.
      apply before_same in Hbefore. by apply (Hfirst pos1).
    - intros ks caps w Hbr Hbefore.
      inversion Hbr as [| k' rest' v0 v'' ks' caps' w' _ Hstep' Hbr' |]; subst;
        [| congruence].
      rewrite (navStep_deterministic _ _ _ _ Hstep' Hstep) in Hbr'.
      apply before_same in Hbefore.
      specialize (Hall ks' caps w Hbr' Hbefore). by rewrite <- app_assoc in Hall.
    - intros f (ks & caps & Hk & Hbr & Hb & Hbefore)%Honly.
      exists (k :: ks), caps. split_and!; [| by econstructor | done |].
      + by rewrite Hk, <- app_assoc.
      + by apply before_same. }
  simpl. destruct (isNormal k) eqn:Hn.
  - destruct v as [m|l| | | | |];
      try (intros [= <- <-]; apply Hhere; apply fails_normal; [done |];
           by inversion 1).
    + destruct (m !! k) as [v'|] eqn:Hm.
      * apply Hdown; [done | by constructor].
      * intros [= <- <-]. apply Hhere, fails_normal; [done |].
        inversion 1; congruence.
    + destruct (getIndex k) as [idx|] eqn:Hi.
      * destruct (l !! idx) as [v'|] eqn:Hl.
        -- apply Hdown; [done | by econstructor].
        -- intros [= <- <-]. apply Hhere, fails_normal; [done |].
           inversion 1; congruence.
      * intros [= <- <-]. apply Hhere, fails_normal; [done |].
        inversion 1; congruence.
  - destruct (predicateParts k) as [[[name field] filter]|] eqn:Hp.
    2: { intros [= <- <-]. by apply Hhere, fails_invalid. }
    destruct v as [m|l| | | | |];
      try (intros [= <- <-]; by apply Hhere, fails_not_sequence).
    intros (j & e & fs0 & Hj & Htake & Hcase)%walkLoop_stops.
    assert (Hearlier : ∀ j' e' a' ks' caps' w, j' < j →
      l !! j' = Some e' → selects field filter e' a' → Branch rest e' ks' caps' w →
      mkFound (key ++ indexKey j' :: ks') w (capture b ((name, a') :: caps')) ∈ fs0).
    { intros j' e' a' ks' caps' w Hlt Hj' Hsel Hbr.
      eapply (walkLoop_complete (walk rest)); [exact Hsel | | exact Htake |].
      - by rewrite lookup_take_lt.
      - intros fs' Hrec. simpl. eapply walk_complete in Hrec; [| exact Hbr].
        by rewrite <- app_assoc in Hrec. }
    assert (Hsound0 : ∀ f, f ∈ fs0 →
      ∃ j' ks caps, j' < j ∧ fKey f = key ++ indexKey j' :: ks
        ∧ Branch (k :: rest) (Sequence l) (indexKey j' :: ks) caps (fValue f)
        ∧ fBindings f = capture b caps).
    { intros f Hin.
      destruct (walkLoop_sound rest (walk rest) name field filter (walk_sound rest)
                  (take j l) 0 key b f) as (j' & e' & a' & ks & caps & Hj' & Hsel & Hk & Hbr & Hb).
      { by rewrite Htake. }
      apply lookup_take_Some in Hj' as [Hj' Hlt].
      exists j', ks, ((name, a') :: caps). split_and!; [done | done | | done].
      by econstructor. }
    assert (Hpassed : ∀ j1 e1, j1 < j → l !! j1 = Some e1 →
      admissible field e1 = false
      ∨ (∃ a1 pos1, selects field filter e1 a1 ∧ Fails rest e1 pos1) → False).
    { intros j1 e1 Hlt Hj1 Hbad.
      assert (Hok : snd (walkLoop (walk rest) name field filter 0 (take j l) key b)
                    = None) by (by rewrite Htake).
      revert Hok. destruct Hbad as [Hadm1 | (a1 & pos1 & Hsel1 & Hf1)].
      - apply walkLoop_fails_inadmissible, Exists_exists.
        exists e1. split; [| done].
        eapply list_elem_of_lookup_2. by rewrite lookup_take_lt.
      - eapply (walkLoop_fails_selected (walk rest)); [| done |].
        + by eapply Fails_failsAt.
        + by rewrite lookup_take_lt. }
    destruct Hcase as [[Hadm ->] | (a & fs1 & Hsel & Hrec & ->)].
    + exists [indexKey j]. split_and!; [by econstructor | | |].
      * intros pos' Hf' Hbefore.
        inversion Hf' as [ | | k' rest' v0 _ Hv
                           | k' rest' l' j1 e1 name' field' filter' _ Hp' Hj1 Hadm1
                           | | k' rest' l' j1 e1 a1 name' field' filter' pos1
                               _ Hp' Hj1 Hsel1 Hf1 ]; subst; try congruence.
        -- rewrite Hp in Hp'. injection Hp' as <- <- <-.
           apply before_index in Hbefore as [Hlt | [_ ?%before_nil_r]]; [| done].
           eapply Hpassed; [done.. |]. by left.
        -- rewrite Hp in Hp'. injection Hp' as <- <- <-.
           apply before_index in Hbefore as [Hlt | [_ ?%before_nil_r]]; [| done].
           eapply Hpassed; [done.. |]. right. eauto.
      * intros ks caps w Hbr Hbefore.
        inversion Hbr as [| | k' rest' l' j' e' a' name' field' filter' ks' caps' w'
                                _ Hp' Hj' Hsel' Hbr']; subst; [congruence |].
        rewrite Hp in Hp'. injection Hp' as <- <- <-.
        apply before_index in Hbefore as [Hlt | [-> ?%before_nil_r]]; [| done].
        by eapply Hearlier.
      * intros f (j' & ks & caps & Hlt & Hk & Hbr & Hb)%Hsound0.
        exists (indexKey j' :: ks), caps. split_and!; [done.. |].
        apply before_index. by left.
    + apply IH in Hrec as (pos & Hfails & Hfirst & Hall & Honly).
      exists (indexKey j :: pos). split_and!; [by econstructor | | |].
      * intros pos' Hf' Hbefore.
        inversion Hf' as [ | | k' rest' v0 _ Hv
                           | k' rest' l' j1 e1 name' field' filter' _ Hp' Hj1 Hadm1
                           | | k' rest' l' j1 e1 a1 name' field' filter' pos1
                               _ Hp' Hj1 Hsel1 Hf1 ]; subst; try congruence.
        -- rewrite Hp in Hp'. injection Hp' as <- <- <-.
           apply before_index in Hbefore as [Hlt | [_ ?%before_nil_l]]; [| done].
           eapply Hpassed; [done.. |]. by left.
        -- rewrite Hp in Hp'. injection Hp' as <- <- <-.
           apply before_index in Hbefore as [Hlt | [-> Hbefore]].
           ++ eapply Hpassed; [done.. |]. right. eauto.
           ++ rewrite Hj in Hj1. injection Hj1 as <-. by apply (Hfirst pos1).
      * intros ks caps w Hbr Hbefore.
        inversion Hbr as [| | k' rest' l' j' e' a' name' field' filter' ks' caps' w'
                                _ Hp' Hj' Hsel' Hbr']; subst; [congruence |].
        rewrite Hp in Hp'. injection Hp' as <- <- <-.
        apply elem_of_app.
        apply before_index in Hbefore as [Hlt | [-> Hbefore]].
        -- left. by eapply Hearlier.
        -- right. rewrite Hj in Hj'. injection Hj' as <-.
           rewrite (selects_deterministic _ _ _ _ _ Hsel' Hsel).
           specialize (Hall ks' caps' w Hbr' Hbefore).
           by rewrite <- app_assoc in Hall.
      * intros f [Hin | Hin]%elem_of_app.
        -- apply Hsound0 in Hin as (j' & ks & caps & Hlt & Hk & Hbr & Hb).
           exists (indexKey j' :: ks), caps. split_and!; [done.. |].
           apply before_index. by left.
        -- apply Honly in Hin as (ks & caps & Hk & Hbr & Hb & Hbefore).
           exists (indexKey j :: ks), ((name, a) :: caps).
           split_and!; [| by econstructor | done |].
           ++ by rewrite Hk, <- app_assoc.
           ++ apply before_index. by right.
Qed.

Lemma walkLoop_inOrder rest rec name field filter :
  soundFor rest rec →
  (∀ e key b, inOrder (fKey <$> (rec e key b).1)) →
  ∀ elems arrIdx key b,
    inOrder (fKey <$> (walkLoop rec name field filter arrIdx elems key b).1).
Proof.
  intros Hsound Hrec. induction elems as [|e elems IH]; intros arrIdx key b.
  { apply inOrder_nil. }
  simpl. destruct e as [m| | | | | |]; try apply inOrder_nil.
  destruct (m !! field) as [[| |a| | | |]|] eqn:Hf; try apply inOrder_nil;
    [| apply IH].
  destruct (negb (isEmpty filter) && negb (String.eqb filter a)); [apply IH |].
  pose proof (Hrec (Mapping m) (key ++ [indexKey arrIdx]) (<[name:=a]> b)) as Hord1.
  pose proof (Hsound (Mapping m) (key ++ [indexKey arrIdx]) (<[name:=a]> b)) as Hhere.
  destruct (rec (Mapping m) (key ++ [indexKey arrIdx]) (<[name:=a]> b))
    as [found [e1|]]; [done |].
  pose proof (IH (S arrIdx) key b) as Hord2.
  pose proof (walkLoop_sound rest rec name field filter Hsound elems (S arrIdx) key b)
    as Hloop.
  destruct (walkLoop rec name field filter (S arrIdx) elems key b) as [found' err'].
  simpl in *. rewrite fmap_app. apply inOrder_app; [done | done |].
  intros ks1 ks2 (f1 & -> & Hf1)%list_elem_of_fmap (f2 & -> & Hf2)%list_elem_of_fmap.
  destruct (Hhere f1 Hf1) as (ks1 & _ & Hk1 & _).
  destruct (Hloop f2 Hf2) as (j & _ & _ & ks2 & _ & _ & _ & Hk2 & _).
  rewrite Hk1, Hk2, <- app_assoc.
  exists key, arrIdx, (S arrIdx + j), ks1, ks2. split_and!; [done | done | lia].
Qed.

Lemma walk_inOrder subKeys v key b : inOrder (fKey <$> (walk subKeys v key b).1).
Proof.
  revert v key b. induction subKeys as [|k rest IH]; intros v key b; simpl.
  { apply inOrder_singleton. }
  destruct (isNormal k).
  - destruct v as [m|l| | | | |]; try apply inOrder_nil.
    + destruct (m !! k); [apply IH | apply inOrder_nil].
    + destruct (getIndex k) as [idx|]; [| apply inOrder_nil].
      destruct (l !! idx); [apply IH | apply inOrder_nil].
  - destruct (predicateParts k) as [[[name field] filter]|]; [| apply inOrder_nil].
    destruct v as [m|l| | | | |]; try apply inOrder_nil.
    apply (walkLoop_inOrder rest); [apply walk_sound | apply IH].
Qed.

End StopsProofs.

(** ** The writers in place *)

Section InPlaceProofs.
Context `{External}.

Lemma mapAt_assignKey a k v σ a' k' m :
  σ !! a = Some (InPlace.MapO m) →
  InPlace.mapAt (InPlace.assignKey a k v σ) (Some a') !! k'
  = if bool_decide (a' = a ∧ k' = k) then Some v
    else InPlace.mapAt σ (Some a') !! k'.
Proof.
  intros Ha. unfold InPlace.assignKey. simpl. rewrite Ha.
  destruct (decide (a' = a)) as [-> | Hne].
  - rewrite list_lookup_insert_eq by (by eapply lookup_lt_Some). rewrite Ha.
    destruct (decide (k' = k)) as [-> | Hk].
    + rewrite bool_decide_eq_true_2 by done. by rewrite lookup_insert_eq.
    + rewrite bool_decide_eq_false_2 by (by intros [_ ?]).
      by rewrite lookup_insert_ne.
  - rewrite list_lookup_insert_ne by done.
    by rewrite bool_decide_eq_false_2 by (by intros [? _]).
Qed.

Lemma arrayAt_assignKey a k v σ a' m :
  σ !! a = Some (InPlace.MapO m) →
  InPlace.arrayAt (InPlace.assignKey a k v σ) a' = InPlace.arrayAt σ a'.
Proof.
  intros Ha. unfold InPlace.assignKey, InPlace.arrayAt. simpl. rewrite Ha.
  destruct (decide (a' = a)) as [-> | Hne].
  - rewrite list_lookup_insert_eq by (by eapply lookup_lt_Some). by rewrite Ha.
  - by rewrite list_lookup_insert_ne.
Qed.

Lemma arrayAt_assignIndex a idx v σ a' i l :
  σ !! a = Some (InPlace.ArrayO l) →
  InPlace.arrayAt (InPlace.assignIndex a idx v σ) a' !! i
  = if bool_decide (a' = a ∧ i = idx ∧ idx < length l) then Some v
    else InPlace.arrayAt σ a' !! i.
Proof.
  intros Ha. unfold InPlace.assignIndex, InPlace.arrayAt. rewrite Ha.
  destruct (decide (a' = a)) as [-> | Hne].
  - rewrite list_lookup_insert_eq by (by eapply lookup_lt_Some). rewrite Ha.
    destruct (decide (i = idx)) as [-> | Hi].
    + case_bool_decide as Hc.
      * destruct Hc as (_ & _ & Hlt). by rewrite list_lookup_insert_eq.
      * rewrite list_insert_ge; [done |].
        destruct (decide (idx < length l)); [| lia]. by destruct Hc.
    + rewrite bool_decide_eq_false_2 by (by intros (_ & ? & _)).
      by rewrite list_lookup_insert_ne.
  - rewrite list_lookup_insert_ne by done.
    by rewrite bool_decide_eq_false_2 by (by intros [? _]).
Qed.

Lemma mapAt_assignIndex a idx v σ a' l :
  σ !! a = Some (InPlace.ArrayO l) →
  InPlace.mapAt (InPlace.assignIndex a idx v σ) (Some a') = InPlace.mapAt σ (Some a').
Proof.
  intros Ha. unfold InPlace.assignIndex, InPlace.arrayAt. simpl. rewrite Ha.
  destruct (decide (a' = a)) as [-> | Hne].
  - rewrite list_lookup_insert_eq by (by eapply lookup_lt_Some). by rewrite Ha.
  - by rewrite list_lookup_insert_ne.
Qed.

Lemma mapAt_Some_inv σ a k v :
  InPlace.mapAt σ a !! k = Some v →
  ∃ a' m, a = Some a' ∧ σ !! a' = Some (InPlace.MapO m) ∧ m !! k = Some v.
Proof.
  destruct a as [a'|]; simpl; [| by rewrite lookup_empty].
  destruct (σ !! a') as [[m|l]|] eqn:Ha; try (by rewrite lookup_empty).
  eauto.
Qed.

Lemma arrayAt_Some_inv σ a i v :
  InPlace.arrayAt σ a !! i = Some v →
  ∃ l, σ !! a = Some (InPlace.ArrayO l) ∧ l !! i = Some v.
Proof.
  unfold InPlace.arrayAt. destruct (σ !! a) as [[m|l]|] eqn:Ha; try done. eauto.
Qed.

(** [Get] depends on the places it looks into, and on nothing else. *)
Lemma GetFrom_agree subKeys σ σ' :
  ∀ v, (∀ s, s ∈ InPlace.reads subKeys v σ → InPlace.holds σ' s = InPlace.holds σ s) →
       InPlace.GetFrom subKeys v σ' = InPlace.GetFrom subKeys v σ.
Proof.
  induction subKeys as [|k rest IH]; intros v Hagree; [done |].
  cbn [InPlace.GetFrom InPlace.reads] in *.
  destruct v as [[a|]|a| | | | |]; try done.
  - assert (Hk0 := Hagree (InPlace.KeySlot a k) ltac:(by left)).
    unfold InPlace.holds in Hk0. rewrite Hk0.
    destruct (InPlace.mapAt σ (Some a) !! k) as [v'|] eqn:Hk; [| done].
    apply IH. intros s Hs. apply Hagree. by right.
  - destruct (getIndex k) as [idx|]; [| done].
    assert (Hk0 := Hagree (InPlace.IndexSlot a idx) ltac:(by left)).
    unfold InPlace.holds in Hk0. rewrite Hk0.
    destruct (InPlace.arrayAt σ a !! idx) as [v'|] eqn:Hk; [| done].
    apply IH. intros s Hs. apply Hagree. by right.
Qed.

Lemma SetFrom_in_place_step k k2 rest newValue value σ :
  InPlace.SetFrom (k :: k2 :: rest) newValue value σ
  = match value with
    | InPlace.MapV valueMap =>
        match InPlace.mapAt σ valueMap !! k with
        | Some value' => InPlace.SetFrom (k2 :: rest) newValue value' σ
        | None => (σ, Some (ErrSetSubkeyNotInMap k))
        end
    | InPlace.SliceV valueArr =>
        match getIndex k with
        | Some idx =>
            match InPlace.arrayAt σ valueArr !! idx with
            | Some value' => InPlace.SetFrom (k2 :: rest) newValue value' σ
            | None => (σ, Some (ErrSetInvalidIndex k))
            end
        | None => (σ, Some (ErrSetInvalidIndex k))
        end
    | _ => (σ, Some (ErrSetReachedScalar k))
    end.
Proof. reflexivity. Qed.

Lemma reads_cons k rest v σ :
  InPlace.reads (k :: rest) v σ
  = match v with
    | InPlace.MapV (Some a) =>
        InPlace.KeySlot a k ::
        match InPlace.mapAt σ (Some a) !! k with
        | Some value' => InPlace.reads rest value' σ
        | None => []
        end
    | InPlace.SliceV a =>
        match getIndex k with
        | Some idx =>
            InPlace.IndexSlot a idx ::
            match InPlace.arrayAt σ a !! idx with
            | Some value' => InPlace.reads rest value' σ
            | None => []
            end
        | None => []
        end
    | _ => []
    end.
Proof. reflexivity. Qed.

(** A [Set] that returns nil has assigned into one place, the last one
    [Get] looks into for the key; the place holds the new value and every
    other place holds what it held. *)
Lemma SetFrom_writes subKeys newValue σ σ' :
  ∀ v, InPlace.SetFrom subKeys newValue v σ = (σ', None) → subKeys ≠ [] →
    ∃ s, last (InPlace.reads subKeys v σ) = Some s
         ∧ InPlace.holds σ' s = Some newValue
         ∧ ∀ s', s' ≠ s → InPlace.holds σ' s' = InPlace.holds σ s'.
Proof.
  induction subKeys as [|k rest IH]; intros v Hset Hne; [done |].
  destruct rest as [|k2 rest].
  - cbn [InPlace.SetFrom InPlace.reads] in *.
    destruct v as [[a|]|a| | | | |]; try done.
    + destruct (InPlace.mapAt σ (Some a) !! k) as [old|] eqn:Hk; [| done].
      injection Hset as <-.
      destruct (mapAt_Some_inv _ _ _ _ Hk) as (a' & m & [= <-] & Ha & _).
      exists (InPlace.KeySlot a k). split_and!; [done | |].
      * unfold InPlace.holds. rewrite (mapAt_assignKey _ _ _ _ _ _ m Ha).
        by rewrite bool_decide_eq_true_2.
      * intros [a' k'|a' i] Hs; unfold InPlace.holds.
        -- rewrite (mapAt_assignKey _ _ _ _ _ _ m Ha).
           rewrite bool_decide_eq_false_2; [done |]. intros [-> ->]. done.
        -- by rewrite (arrayAt_assignKey _ _ _ _ _ m Ha).
    + destruct (getIndex k) as [idx|] eqn:Hi; [| done].
      case_bool_decide as Hlt; [| done]. injection Hset as <-.
      apply lookup_lt_is_Some_2 in Hlt as Hsome. destruct Hsome as [old Hold].
      destruct (arrayAt_Some_inv _ _ _ _ Hold) as (l & Ha & Hl).
      assert (Hlen : idx < length l) by (by eapply lookup_lt_Some).
      exists (InPlace.IndexSlot a idx). rewrite Hold. split_and!; [done | |].
      * unfold InPlace.holds. rewrite (arrayAt_assignIndex _ _ _ _ _ _ l Ha).
        by rewrite bool_decide_eq_true_2.
      * intros [a' k'|a' i] Hs; unfold InPlace.holds.
        -- by rewrite (mapAt_assignIndex _ _ _ _ _ l Ha).
        -- rewrite (arrayAt_assignIndex _ _ _ _ _ _ l Ha).
           rewrite bool_decide_eq_false_2; [done |]. intros (-> & -> & _). done.
  - rewrite SetFrom_in_place_step in Hset. rewrite reads_cons.
    destruct v as [[a|]|a| | | | |]; try done.
    + destruct (InPlace.mapAt σ (Some a) !! k) as [v'|] eqn:Hk; [| done].
      destruct (IH v' Hset ltac:(done)) as (s & Hlast & Hs).
      exists s. split; [| done]. 
      destruct (InPlace.reads (k2 :: rest) v' σ) as [|s0 ss] eqn:Hr; [done |].
      by rewrite last_cons, Hlast.
    + destruct (getIndex k) as [idx|] eqn:Hi; [| done].
      destruct (InPlace.arrayAt σ a !! idx) as [v'|] eqn:Hk; [| done].
      destruct (IH v' Hset ltac:(done)) as (s & Hlast & Hs).
      exists s. split; [| done].
      destruct (InPlace.reads (k2 :: rest) v' σ) as [|s0 ss] eqn:Hr; [done |].
      by rewrite last_cons, Hlast.
Qed.

Lemma SetCreatingNewFrom_in_place_cons k rest newValue config σ :
  rest ≠ [] →
  InPlace.SetCreatingNewFrom (k :: rest) newValue config σ
  = match InPlace.mapAt σ config !! k with
    | Some (InPlace.MapV valueMap) =>
        InPlace.SetCreatingNewFrom rest newValue valueMap σ
    | _ =>
        match InPlace.assign config k (InPlace.MapV (Some (length σ)))
                (σ ++ [InPlace.MapO ∅]) with
        | Some σ' => InPlace.SetCreatingNewFrom rest newValue (Some (length σ)) σ'
        | None => None
        end
    end.
Proof. intros Hne. destruct rest; [done | reflexivity]. Qed.

Lemma SetCreatingNewFrom_leads σ config p c newValue q :
  InPlace.Leads σ config p c → q ≠ [] →
  InPlace.SetCreatingNewFrom (p ++ q) newValue config σ
  = InPlace.SetCreatingNewFrom q newValue c σ.
Proof.
  intros Hl Hq. induction Hl as [c | c k p c' c'' Hk _ IH]; [done |].
  rewrite <- app_comm_cons, SetCreatingNewFrom_in_place_cons by (by destruct p, q).
  by rewrite Hk.
Qed.

Lemma GetFrom_leads σ config p c r :
  InPlace.Leads σ config p c →
  InPlace.GetFrom (p ++ r) (InPlace.MapV config) σ
  = InPlace.GetFrom r (InPlace.MapV c) σ.
Proof.
  induction 1 as [c | c k p c' c'' Hk _ IH]; [done |].
  rewrite <- app_comm_cons. cbn [InPlace.GetFrom]. by rewrite Hk.
Qed.

(** Where [Get] does not find a key in a map, the literal keys lead from
    map to map up to an entry that is absent or is not a map. *)
Lemma GetFrom_false_leads σ parent :
  ∀ config, (InPlace.GetFrom parent (InPlace.MapV config) σ).2 = false →
    ∃ p k q c, parent = p ++ k :: q ∧ InPlace.Leads σ config p c
               ∧ ∀ c', InPlace.mapAt σ c !! k ≠ Some (InPlace.MapV c').
Proof.
  induction parent as [|k rest IH]; intros config; [done |].
  cbn [InPlace.GetFrom].
  destruct (InPlace.mapAt σ config !! k) as [v'|] eqn:Hk.
  - destruct v' as [c1| | | | | |];
      try (intros _; exists [], k, rest, config;
           split_and!; [done | constructor | by rewrite Hk]).
    intros (p & k' & q & c & -> & Hl & Hno)%IH.
    exists (k :: p), k', q, c. split_and!; [done | by econstructor | done].
  - intros _. exists [], k, rest, config.
    split_and!; [done | constructor | by rewrite Hk].
Qed.

Lemma refOk_map σ a :
  InPlace.refOk σ (InPlace.MapV (Some a)) = true →
  ∃ m, σ !! a = Some (InPlace.MapO m).
Proof. simpl. destruct (σ !! a) as [[m|l]|]; [eauto | done..]. Qed.

Lemma refOk_slice σ a :
  InPlace.refOk σ (InPlace.SliceV a) = true →
  ∃ l, σ !! a = Some (InPlace.ArrayO l).
Proof. simpl. destruct (σ !! a) as [[m|l]|]; [done | eauto | done]. Qed.

Lemma closed_map σ a m k v :
  InPlace.closed σ → σ !! a = Some (InPlace.MapO m) → m !! k = Some v →
  InPlace.refOk σ v = true.
Proof.
  intros Hcl Ha Hk. apply (Forall_lookup_1 _ _ _ _ Hcl) in Ha. by apply (Ha k).
Qed.

Lemma closed_array σ a l i v :
  InPlace.closed σ → σ !! a = Some (InPlace.ArrayO l) → l !! i = Some v →
  InPlace.refOk σ v = true.
Proof.
  intros Hcl Ha Hi. apply (Forall_lookup_1 _ _ _ _ Hcl) in Ha.
  by apply (Forall_lookup_1 _ _ _ _ Ha) in Hi.
Qed.

Lemma Leads_refOk σ config p c :
  InPlace.closed σ → InPlace.refOk σ (InPlace.MapV config) = true →
  InPlace.Leads σ config p c → InPlace.refOk σ (InPlace.MapV c) = true.
Proof.
  intros Hcl Hok. induction 1 as [c | c k p c' c'' Hk _ IH]; [done |].
  apply IH. destruct (mapAt_Some_inv _ _ _ _ Hk) as (a & m & -> & Ha & Hm).
  by eapply closed_map.
Qed.

Lemma assignKey_app a k v σ t :
  a < length σ →
  InPlace.assignKey a k v (σ ++ t) = InPlace.assignKey a k v σ ++ t.
Proof.
  intros Hlt. unfold InPlace.assignKey. simpl.
  by rewrite lookup_app_l, insert_app_l by done.
Qed.

Lemma assignKey_last σ0 m k v :
  InPlace.assignKey (length σ0) k v (σ0 ++ [InPlace.MapO m])
  = σ0 ++ [InPlace.MapO (<[k := v]> m)].
Proof.
  unfold InPlace.assignKey. simpl.
  rewrite lookup_app_r, Nat.sub_diag by done. simpl.
  rewrite insert_app_r_alt, Nat.sub_diag by done. done.
Qed.

Lemma length_assignKey a k v σ : length (InPlace.assignKey a k v σ) = length σ.
Proof. unfold InPlace.assignKey. by rewrite length_insert. Qed.

Lemma mapAt_app σ t a :
  a < length σ → InPlace.mapAt (σ ++ t) (Some a) = InPlace.mapAt σ (Some a).
Proof. intros Hlt. simpl. by rewrite lookup_app_l. Qed.

Lemma arrayAt_app σ t a :
  a < length σ → InPlace.arrayAt (σ ++ t) a = InPlace.arrayAt σ a.
Proof. intros Hlt. unfold InPlace.arrayAt. by rewrite lookup_app_l. Qed.

(** From a map just made, [SetCreatingNew] makes one map per sub key that
    is left, each the only entry of the one before, and assigns the value
    into the last. *)
Lemma SetCreatingNewFrom_fresh newValue q :
  q ≠ [] →
  ∀ σ0, ∃ tail,
    InPlace.SetCreatingNewFrom q newValue (Some (length σ0))
      (σ0 ++ [InPlace.MapO ∅]) = Some (σ0 ++ tail)
    ∧ InPlace.GetFrom q (InPlace.MapV (Some (length σ0))) (σ0 ++ tail)
      = (newValue, true)
    ∧ dom (InPlace.mapAt (σ0 ++ tail) (Some (length σ0))) = {[ hd EmptyString q ]}.
Proof.
  induction q as [|k q IH]; intros Hne σ0; [done |].
  destruct q as [|k2 q].
  - exists [InPlace.MapO (<[k := newValue]> ∅)].
    cbn [InPlace.SetCreatingNewFrom InPlace.assign InPlace.GetFrom].
    rewrite assignKey_last. split_and!; [done | |].
    + simpl. rewrite lookup_app_r, Nat.sub_diag by done. simpl.
      by rewrite lookup_insert_eq.
    + simpl. rewrite lookup_app_r, Nat.sub_diag by done. simpl.
      by rewrite dom_insert_L, dom_empty_L, (right_id_L ∅ (∪)).
  - rewrite SetCreatingNewFrom_in_place_cons by done.
    assert (Hempty : InPlace.mapAt (σ0 ++ [InPlace.MapO ∅]) (Some (length σ0)) = ∅).
    { simpl. by rewrite lookup_app_r, Nat.sub_diag by done. }
    rewrite Hempty, lookup_empty. cbn [InPlace.assign].
    rewrite assignKey_app by (rewrite length_app; simpl; lia).
    rewrite assignKey_last.
    assert (Hlen : ∀ o : InPlace.Obj, length (σ0 ++ [o]) = S (length σ0))
      by (intros o; rewrite length_app; simpl; lia).
    rewrite Hlen.
    destruct (IH ltac:(done)
                (σ0 ++ [InPlace.MapO (<[k := InPlace.MapV (Some (S (length σ0)))]> ∅)]))
      as (tail & Hrun & Hget & Hdom).
    rewrite Hlen in Hrun, Hget.
    repeat rewrite <- app_assoc in Hrun. repeat rewrite <- app_assoc in Hget.
    repeat rewrite <- app_assoc.
    assert (Hat : InPlace.mapAt
              (σ0 ++ [InPlace.MapO (<[k := InPlace.MapV (Some (S (length σ0)))]> ∅)]
                  ++ tail) (Some (length σ0))
            = <[k := InPlace.MapV (Some (S (length σ0)))]> ∅).
    { simpl. by rewrite lookup_app_r, Nat.sub_diag by done. }
    eexists. split_and!; [exact Hrun | |].
    + cbn [InPlace.GetFrom]. by rewrite Hat, lookup_insert_eq.
    + rewrite Hat. simpl.
      by rewrite dom_insert_L, dom_empty_L, (right_id_L ∅ (∪)).
Qed.

(** The first sub key whose entry is absent or is not a map: the entry
    becomes a map made by the call, and the rest goes into maps made by
    the call. *)
Lemma SetCreatingNewFrom_create newValue k q c σ m :
  σ !! c = Some (InPlace.MapO m) → q ≠ [] →
  (∀ c', m !! k ≠ Some (InPlace.MapV c')) →
  ∃ tail,
    InPlace.SetCreatingNewFrom (k :: q) newValue (Some c) σ
    = Some (InPlace.assignKey c k (InPlace.MapV (Some (length σ))) σ ++ tail)
    ∧ InPlace.GetFrom q (InPlace.MapV (Some (length σ)))
        (InPlace.assignKey c k (InPlace.MapV (Some (length σ))) σ ++ tail)
      = (newValue, true)
    ∧ dom (InPlace.mapAt
             (InPlace.assignKey c k (InPlace.MapV (Some (length σ))) σ ++ tail)
             (Some (length σ)))
      = {[ hd EmptyString q ]}.
Proof.
  intros Hc Hq Hno. rewrite SetCreatingNewFrom_in_place_cons by done.
  assert (Hat : InPlace.mapAt σ (Some c) = m) by (simpl; by rewrite Hc).
  rewrite Hat.
  assert (Hlt : c < length σ) by (by eapply lookup_lt_Some).
  set (σ0 := InPlace.assignKey c k (InPlace.MapV (Some (length σ))) σ).
  assert (Hstep :
    match InPlace.assign (Some c) k (InPlace.MapV (Some (length σ)))
            (σ ++ [InPlace.MapO ∅]) with
    | Some σ' => InPlace.SetCreatingNewFrom q newValue (Some (length σ)) σ'
    | None => None
    end
    = InPlace.SetCreatingNewFrom q newValue (Some (length σ0))
        (σ0 ++ [InPlace.MapO ∅])).
  { cbn [InPlace.assign]. rewrite assignKey_app by done.
    subst σ0. by rewrite length_assignKey. }
  destruct (SetCreatingNewFrom_fresh newValue q Hq σ0) as (tail & Hrun & Hget & Hdom).
  assert (Hlen : length σ0 = length σ) by (subst σ0; apply length_assignKey).
  rewrite Hlen in Hget, Hdom.
  exists tail. split_and!; [| done | done].
  destruct (m !! k) as [[c'| | | | | |]|] eqn:Hk;
    try (by rewrite Hstep, Hrun). by destruct (Hno c').
Qed.



(** [Get] looks into objects of the store only. *)
Lemma reads_allocated σ subKeys :
  InPlace.closed σ →
  ∀ v s, InPlace.refOk σ v = true → s ∈ InPlace.reads subKeys v σ →
         InPlace.slotAddr s < length σ.
Proof.
  intros Hcl. induction subKeys as [|k rest IH]; intros v s Hok.
  { by intros ?%elem_of_nil. }
  rewrite reads_cons. destruct v as [[a|]|a| | | | |];
    try by intros ?%elem_of_nil.
  - apply refOk_map in Hok as [m Ha]. intros [-> | Hs]%elem_of_cons.
    + by eapply lookup_lt_Some.
    + simpl InPlace.mapAt in Hs. rewrite Ha in Hs.
      destruct (m !! k) as [v'|] eqn:Hk; [| by apply elem_of_nil in Hs].
      apply (IH v'); [| done]. by eapply closed_map.
  - apply refOk_slice in Hok as [l Ha]. destruct (getIndex k) as [idx|];
      [| by intros ?%elem_of_nil].
    intros [-> | Hs]%elem_of_cons.
    + by eapply lookup_lt_Some.
    + unfold InPlace.arrayAt in Hs. rewrite Ha in Hs.
      destruct (l !! idx) as [v'|] eqn:Hk; [| by apply elem_of_nil in Hs].
      apply (IH v'); [| done]. by eapply closed_array.
Qed.

(** An assignment into an entry of a map, and objects added to the
    store, leave what the other places of the store hold. *)
Lemma holds_assignKey_app c k x σ tail m s :
  σ !! c = Some (InPlace.MapO m) → InPlace.slotAddr s < length σ →
  s ≠ InPlace.KeySlot c k →
  InPlace.holds (InPlace.assignKey c k x σ ++ tail) s = InPlace.holds σ s.
Proof.
  intros Hc Hlt Hne. destruct s as [a k'|a i]; unfold InPlace.holds; simpl in Hlt.
  - rewrite mapAt_app by (by rewrite length_assignKey).
    rewrite (mapAt_assignKey _ _ _ _ _ _ m Hc).
    rewrite bool_decide_eq_false_2; [done |]. intros [-> ->]. done.
  - rewrite arrayAt_app by (by rewrite length_assignKey).
    by rewrite (arrayAt_assignKey _ _ _ _ _ m Hc).
Qed.

Lemma holds_key_assignKey_app c k x σ tail m :
  σ !! c = Some (InPlace.MapO m) →
  InPlace.mapAt (InPlace.assignKey c k x σ ++ tail) (Some c) !! k = Some x.
Proof.
  intros Hc. assert (Hlt : c < length σ) by (by eapply lookup_lt_Some).
  rewrite mapAt_app by (by rewrite length_assignKey).
  rewrite (mapAt_assignKey _ _ _ _ _ _ m Hc). by rewrite bool_decide_eq_true_2.
Qed.

(** The maps the literal keys lead through are still led through when
    the entries that hold maps are kept. *)
Lemma Leads_kept σ σ' config p c :
  InPlace.Leads σ config p c →
  (∀ a k v, InPlace.mapAt σ (Some a) !! k = Some (InPlace.MapV v) →
            InPlace.mapAt σ' (Some a) !! k = Some (InPlace.MapV v)) →
  InPlace.Leads σ' config p c.
Proof.
  intros Hl Hkept. induction Hl as [c | c k p c' c'' Hk _ IH]; [constructor |].
  econstructor; [| exact IH].
  destruct (mapAt_Some_inv _ _ _ _ Hk) as (a & m & -> & _ & _). by apply Hkept.
Qed.

(** What the call leaves when it has followed maps to the map at [c] and
    the entry of the next sub key is absent or is not a map. *)
Lemma SetCreatingNewFrom_creates σ config p k q c newValue :
  InPlace.closed σ → InPlace.refOk σ (InPlace.MapV config) = true →
  InPlace.Leads σ config p (Some c) → q ≠ [] →
  (∀ c', InPlace.mapAt σ (Some c) !! k ≠ Some (InPlace.MapV c')) →
  ∃ m tail,
    σ !! c = Some (InPlace.MapO m)
    ∧ InPlace.SetCreatingNewFrom (p ++ k :: q) newValue config σ
      = Some (InPlace.assignKey c k (InPlace.MapV (Some (length σ))) σ ++ tail)
    ∧ dom (InPlace.mapAt
             (InPlace.assignKey c k (InPlace.MapV (Some (length σ))) σ ++ tail)
             (Some (length σ)))
      = {[ hd EmptyString q ]}
    ∧ InPlace.GetFrom (p ++ k :: q) (InPlace.MapV config)
        (InPlace.assignKey c k (InPlace.MapV (Some (length σ))) σ ++ tail)
      = (newValue, true).
Proof.
  intros Hcl Hok Hl Hq Hno.
  destruct (refOk_map _ _ (Leads_refOk _ _ _ _ Hcl Hok Hl)) as [m Hc].
  assert (Hno' : ∀ c', m !! k ≠ Some (InPlace.MapV c')).
  { intros c'. specialize (Hno c'). simpl in Hno. by rewrite Hc in Hno. }
  destruct (SetCreatingNewFrom_create newValue k q c σ m Hc Hq Hno')
    as (tail & Hrun & Hget & Hdom).
  exists m, tail. split_and!; [done | | done |].
  - by rewrite (SetCreatingNewFrom_leads _ _ _ _ _ _ Hl).
  - set (σ' := InPlace.assignKey c k (InPlace.MapV (Some (length σ))) σ ++ tail)
      in *.
    assert (Hl' : InPlace.Leads σ' config p (Some c)).
    { apply (Leads_kept σ); [done |]. intros a k' v Hk'.
      destruct (mapAt_Some_inv _ _ _ _ Hk') as (a' & m' & [= <-] & Ha & _).
      change (InPlace.holds σ' (InPlace.KeySlot a k') = Some (InPlace.MapV v)).
      subst σ'. rewrite (holds_assignKey_app _ _ _ _ _ m); [done | done | |].
      - simpl. by eapply lookup_lt_Some.
      - intros [= -> ->]. by destruct (Hno v). }
    rewrite (GetFrom_leads _ _ _ _ _ Hl'). cbn [InPlace.GetFrom].
    subst σ'. by rewrite (holds_key_assignKey_app _ _ _ _ _ m Hc).
Qed.

(** Where [Get] does not find the parent, [Set] returns an error. *)
Lemma SetFrom_in_place_parent_absent parent last' newValue σ :
  ∀ v, (InPlace.GetFrom parent v σ).2 = false →
       ∃ e, InPlace.SetFrom (parent ++ [last']) newValue v σ = (σ, Some e).
Proof.
  induction parent as [|k rest IH]; intros v; [done |].
  assert (Hstep : ∀ v', InPlace.SetFrom ((k :: rest) ++ [last']) newValue v' σ
    = InPlace.SetFrom (k :: (rest ++ [last'])) newValue v' σ) by done.
  rewrite Hstep. destruct (rest ++ [last']) as [|k2 rest'] eqn:Hr.
  { by destruct rest. }
  rewrite SetFrom_in_place_step. cbn [InPlace.GetFrom].
  destruct v as [a|a| | | | |]; try by eexists.
  - destruct (InPlace.mapAt σ a !! k) as [v'|]; [| by eexists].
    intros Hf. destruct (IH v' Hf) as [e He]. by exists e.
  - destruct (getIndex k) as [idx|]; [| by eexists].
    destruct (InPlace.arrayAt σ a !! idx) as [v'|]; [| by eexists].
    intros Hf. destruct (IH v' Hf) as [e He]. by exists e.
Qed.

Lemma MeetsNil_cons_inv σ a k q :
  InPlace.MeetsNil σ (Some a) (k :: q) →
  ∃ c', InPlace.mapAt σ (Some a) !! k = Some (InPlace.MapV c')
        ∧ InPlace.MeetsNil σ c' q.
Proof.
  intros (p & q0 & Heq & Hq0 & Hl).
  inversion Hl as [| c k' p' c' c'' Hk Hl']; subst.
  injection Heq as <- ->. exists c'. split; [done |]. by exists p', q0.
Qed.

End InPlaceProofs.

(** * The statements of the specification *)

Section Specification.
Context `{External}.

(** C1, amended.  When a branch of the traversal arrives at a predicate
    segment on a sequence that has an element which is not a Mapping,
    [GetAll] returns an error: such an element is not skipped. *)
Theorem C1_non_mapping_element_fails key resource h k rest l name field filter e :
  Reaches (GetSubKeys key) resource (k :: rest) (Sequence l) →
  isNormal k = false → predicateParts k = Some (name, field, filter) →
  e ∈ l → isMapping e = false →
  (GetAll key resource h).1.2 ≠ None.
Proof.
  intros Hreach Hn Hp He Hmap. rewrite GetAll_error.
  apply (walk_fails_reaches _ _ _ _ Hreach).
  eapply failsAt_inadmissible; [done.. |].
  apply Exists_exists. exists e. split; [done |]. by destruct e.
Qed.

(** C2, amended.  When a branch of the traversal arrives at a Key or Index
    segment whose key is missing or whose index is out of range, [GetAll]
    returns an error.  The slice it returns with the error is not emptied.
    The traversal has stopped at the first position, in its order, where a
    branch fails, and the slice holds the results of the branches before
    that position, all of them and no other, each once and in the order of
    the traversal: each is a complete match of the path, with its key path,
    its value and its bindings. *)
Theorem C2_missing_key_aborts key resource h k rest n :
  Reaches (GetSubKeys key) resource (k :: rest) n →
  isNormal k = true →
  (∃ m, n = Mapping m ∧ m !! k = None)
  ∨ (∃ l idx, n = Sequence l ∧ getIndex k = Some idx ∧ length l ≤ idx) →
  ∃ rs e h' pos,
    GetAll key resource h = (rs, Some e, h')
    ∧ Fails (GetSubKeys key) resource pos
    ∧ (∀ pos', Fails (GetSubKeys key) resource pos' → ¬ before pos' pos)
    ∧ (∀ ks caps w,
         Branch (GetSubKeys key) resource ks caps w → before ks pos →
         ∃ r, r ∈ rs ∧ Key r = ks ∧ Value r = w
              ∧ bindings h' r = capture ∅ caps)
    ∧ (∀ r, r ∈ rs →
         ∃ caps, Branch (GetSubKeys key) resource (Key r) caps (Value r)
                 ∧ bindings h' r = capture ∅ caps
                 ∧ before (Key r) pos)
    ∧ NoDup (Key <$> rs)
    ∧ inOrder (Key <$> rs).
Proof.
  intros Hreach Hn Hmiss.
  assert (Herr : (walk (GetSubKeys key) resource [] ∅).2 ≠ None).
  { apply (walk_fails_reaches _ _ _ _ Hreach).
    destruct Hmiss as [(m & -> & Hm) | (l & idx & -> & Hi & Hlen)].
    - by apply failsAt_missing_key.
    - by eapply failsAt_index_out_of_range. }
  destruct (GetAll_walk key resource h) as (rs & hnew & E & Hsame & _).
  pose proof (walk_NoDup (GetSubKeys key) resource [] ∅) as Hnd.
  pose proof (walk_inOrder (GetSubKeys key) resource [] ∅) as Hord.
  destruct (walk (GetSubKeys key) resource [] ∅) as [fs [e|]] eqn:Hwalk; [| done].
  destruct (walk_stops _ _ _ _ _ _ Hwalk) as (pos & Hfails & Hfirst & Hall & Honly).
  simpl in *.
  assert (Hkeys : Key <$> rs = fKey <$> fs).
  { clear -Hsame. induction Hsame as [|r f rs fs (Hk & _) _ IH]; [done |].
    rewrite !fmap_cons. by rewrite Hk, IH. }
  exists rs, e, (h ++ hnew), pos.
  split_and!; [done | done | done | | | by rewrite Hkeys | by rewrite Hkeys].
  - intros ks caps w Hbr Hbefore. specialize (Hall ks caps w Hbr Hbefore).
    destruct (proj1 (list_elem_of_lookup _ _) Hall) as [i Hi].
    destruct (Forall2_lookup_r _ _ _ _ _ Hsame Hi) as (r & Hr & Hk & Hv & Hb).
    exists r. split_and!; [by eapply list_elem_of_lookup_2 | done..].
  - intros r Hr. destruct (proj1 (list_elem_of_lookup _ _) Hr) as [i Hi].
    destruct (Forall2_lookup_l _ _ _ _ _ Hsame Hi) as (f & Hf & Hk & Hv & Hb).
    destruct (Honly f) as (ks & caps & Hk' & Hbr & Hb' & Hbefore).
    { by eapply list_elem_of_lookup_2. }
    simpl in Hk'. rewrite <- Hk in Hk'. rewrite <- Hv in Hbr. subst ks.
    exists caps. split_and!; [done | congruence | done].
Qed.

(** C3, amended.  When the predicate segments of a path are independent
    and match [m1, ..., mk] elements of their sequences, and every branch
    of the path resolves, [GetAll] returns no error and exactly
    [m1 × ... × mk] results, whose concrete key paths are pairwise
    different. *)
Theorem C3_independent_predicates key resource ms h :
  Independent (GetSubKeys key) resource ms →
  ∃ rs h', GetAll key resource h = (rs, None, h')
           ∧ length rs = product ms ∧ NoDup (Key <$> rs).
Proof.
  intros Hind.
  destruct (GetAll_walk key resource h) as (rs & hnew & -> & Hsame & _).
  destruct (walk_independent _ _ _ Hind [] ∅) as (fs & Hwalk & Hlen & Hnd).
  rewrite Hwalk in *. simpl in *. exists rs, (h ++ hnew). split_and!; [done | |].
  - by rewrite (Forall2_length _ _ _ Hsame).
  - assert (Hkeys : Key <$> rs = fKey <$> fs).
    { clear -Hsame. induction Hsame as [|r f rs fs (Hk & _) _ IH]; [done |].
      rewrite !fmap_cons. by rewrite Hk, IH. }
    by rewrite Hkeys.
Qed.

(** C4, amended.  A configuration in which [Get] does not find the
    parent of the key, held in a store whose references are sound, and no
    nil map on the way of the sub keys: [Set] returns an error and leaves
    the store as it was, [SetCreatingNew] returns nil, and [Get] then finds
    the new value at the key. *)
Theorem C4_set_fails_set_creating_new_round_trip
    key newValue config σ parent lastSubKey :
  key ≠ EmptyString → GetSubKeys key = parent ++ [lastSubKey] →
  (InPlace.GetFrom parent (InPlace.MapV config) σ).2 = false →
  InPlace.closed σ → InPlace.refOk σ (InPlace.MapV config) = true →
  ¬ InPlace.MeetsNil σ config (GetSubKeys key) →
  (∃ e, InPlace.Set' key newValue (InPlace.MapV config) σ = (σ, Some e))
  ∧ ∃ σ', InPlace.SetCreatingNew key newValue config σ = InPlace.Returns σ' None
          ∧ InPlace.Get key (InPlace.MapV config) σ' = (newValue, true).
Proof.
  intros Hkey%isEmpty_false Hsub Habsent Hcl Hok Hnil.
  assert (Hlen : bool_decide (length (GetSubKeys key) = 0) = false).
  { apply bool_decide_eq_false_2. rewrite Hsub, length_app. simpl. lia. }
  split.
  - unfold InPlace.Set'. rewrite Hkey, Hlen, Hsub.
    by apply SetFrom_in_place_parent_absent.
  - unfold InPlace.SetCreatingNew, InPlace.Get. rewrite Hkey, Hlen.
    destruct (GetFrom_false_leads _ _ _ Habsent) as (p & k & q & c & Hp & Hl & Hno).
    assert (Hsub' : GetSubKeys key = p ++ k :: (q ++ [lastSubKey])).
    { by rewrite Hsub, Hp, <- app_assoc. }
    destruct c as [c|].
    2: { destruct Hnil. exists p, (k :: q ++ [lastSubKey]).
         split_and!; [done | done | done]. }
    destruct (SetCreatingNewFrom_creates σ config p k (q ++ [lastSubKey]) c newValue)
      as (m & tail & _ & Hrun & _ & Hget); [done | done | done | by destruct q | done |].
    rewrite Hsub', Hrun. eauto.
Qed.

(** C5.  For a path without predicate segments, [Get] answers
    [found = true] with the value [w] exactly when plain navigation along
    the path arrives at [w] (no missing key, no index out of range, no
    scalar on the way); [Get] is a total function into [(value, found)], so
    it has no error to raise; and [GetAll] returns one result, with the
    value of [Get] and the path itself as key path, when [Get] finds the
    value, and no result (and an error) when [Get] does not. *)
Theorem C5_get_agrees_with_navigation key config h :
  predicateFree (GetSubKeys key) →
  (∀ w, Get key config = (w, true) ↔ Navigates (GetSubKeys key) config w)
  ∧ match Get key config with
    | (w, true) =>
        ∃ r h', GetAll key config h = ([r], None, h')
                ∧ Key r = GetSubKeys key ∧ Value r = w
    | (_, false) => ∃ e h', GetAll key config h = ([], Some e, h')
    end.
Proof.
  intros Hfree. split; [intros w; apply GetFrom_Navigates |].
  destruct (GetAll_walk key config h) as (rs & hnew & -> & Hsame & _).
  pose proof (walk_predicateFree _ Hfree config [] ∅) as Hwalk.
  unfold Get. destruct (GetFrom (GetSubKeys key) config) as [w [|]].
  - rewrite Hwalk in *. simpl in *.
    apply Forall2_cons_inv_r in Hsame as (r & rs' & (Hk & Hv & _) & ->%Forall2_nil_inv_r & ->).
    by exists r, (h ++ hnew).
  - destruct Hwalk as [e Hwalk]. rewrite Hwalk in *. simpl in *.
    apply Forall2_nil_inv_r in Hsame as ->. by exists e, (h ++ hnew).
Qed.

(** C6.  Two different results of one [GetAll] call hold two different
    [Matches] maps: whatever a caller does to the map of one of them after
    the call, the bindings of the other one read the same.  The bindings of
    a result are those of its branch: they are built by writing, in path
    order, the field value of the chosen element under the capture name of
    each predicate, so every capture name of the branch is bound to the
    field value matched by the last predicate that captures under it. *)
Theorem C6_bindings_per_branch key resource h rs err h' :
  GetAll key resource h = (rs, err, h') →
  (∀ i j r1 r2, i ≠ j → rs !! i = Some r1 → rs !! j = Some r2 →
     ∃ l1 l2, Matches r1 = Some l1 ∧ Matches r2 = Some l2 ∧ l1 ≠ l2
              ∧ ∀ f, bindings (alter f l1 h') r2 = bindings h' r2)
  ∧ (∀ r, r ∈ rs →
       ∃ caps, Branch (GetSubKeys key) resource (Key r) caps (Value r)
               ∧ bindings h' r = capture ∅ caps
               ∧ ∀ caps1 n a caps2, caps = caps1 ++ (n, a) :: caps2 →
                   n ∉ caps2.*1 → bindings h' r !! n = Some a).
Proof.
  intros E. split.
  - destruct (GetAll_walk key resource h) as (rs' & hnew & E' & _ & Hnd & Hfresh).
    rewrite E in E'. injection E' as <- _ ->.
    intros i j r1 r2 Hij Hi Hj.
    destruct Hfresh as [Hfresh | [Hlen _]].
    + rewrite Forall_forall in Hfresh.
      destruct (Hfresh r1) as (l1 & Hl1 & _); [by eapply list_elem_of_lookup_2 |].
      destruct (Hfresh r2) as (l2 & Hl2 & _); [by eapply list_elem_of_lookup_2 |].
      assert (Hne : l1 ≠ l2).
      { intros ->. apply Hij. eapply (NoDup_lookup _ i j (Some l2) Hnd).
        - by rewrite list_lookup_fmap, Hi, <- Hl1.
        - by rewrite list_lookup_fmap, Hj, <- Hl2. }
      exists l1, l2. split_and!; [done.. |].
      intros f. unfold bindings. rewrite Hl2. by rewrite list_lookup_alter_ne.
    + apply lookup_lt_Some in Hi, Hj. lia.
  - intros r Hr.
    destruct (GetAll_sound key resource h rs err h' r E Hr) as (caps & Hbr & Hb).
    exists caps. split_and!; [done.. |].
    intros caps1 n a caps2 -> Hn. rewrite Hb. by apply capture_last.
Qed.

(** C7, amended.  [GetAll] tells two kinds of segments apart, not three.
    A segment without ["["], or of the form ["[" digits "]"], is a normal
    segment: against a Mapping it is looked up as a literal key, also when
    it has the form ["[" digits "]"]; against a Sequence it is an index,
    the number that [cast.ToIntE] reads in the digits if that is not
    negative, and a segment without ["["] is never an index.  A segment of
    the form ["[" (name ":")? field ("=" value)? "]"] that is not
    ["[" digits "]"] is a predicate: its capture name is [name], or [field]
    when there is no [name], and its filter is [value], or empty
    (presence only) when there is no [value]; it runs the loop over the
    elements of a Sequence.  A segment with a ["["] that has neither form
    makes the call fail with the invalid-sub-key error when the traversal
    arrives at it. *)
Theorem C7_segment_classification k :
  (containsBracket k = false → isNormal k = true ∧ getIndex k = None)
  ∧ (∀ digits, IndexSyntax k digits →
       isNormal k = true
       ∧ getIndex k = match ToIntE digits with
                      | Some idx => if (idx <? 0)%Z then None else Some (Z.to_nat idx)
                      | None => None
                      end)
  ∧ (isNormal k = true → ∀ rest cur st,
       (∀ m, GetRecurseFrom (k :: rest) (Mapping m) cur st
             = match m !! k with
               | Some value' =>
                   GetRecurseFrom rest value'
                     (mkRT (Key cur ++ [k]) (Value cur) (Matches cur)) st
               | None => (Some (ErrSubkeyNotInMap k), st)
               end)
       ∧ (∀ l, GetRecurseFrom (k :: rest) (Sequence l) cur st
               = match getIndex k with
                 | None => (Some (ErrSubkeyNotAnIndex k), st)
                 | Some idx =>
                     match l !! idx with
                     | None => (Some (ErrIndexOutOfRange idx), st)
                     | Some value' =>
                         GetRecurseFrom rest value'
                           (mkRT (Key cur ++ [k]) (Value cur) (Matches cur)) st
                     end
                 end))
  ∧ (∀ name field value,
       PredicateSyntax k name field value → (∀ digits, ¬ IndexSyntax k digits) →
       isNormal k = false
       ∧ predicateParts k = Some (default field name, field, default EmptyString value)
       ∧ ∀ rest l cur st,
           GetRecurseFrom (k :: rest) (Sequence l) cur st
           = predicateLoop (GetRecurseFrom rest) (default field name) field
               (default EmptyString value) 0 l cur st)
  ∧ (containsBracket k = true → (∀ digits, ¬ IndexSyntax k digits) →
     (∀ name field value, ¬ PredicateSyntax k name field value) →
     (∀ rest v cur st,
        GetRecurseFrom (k :: rest) v cur st = (Some (ErrInvalidSubkey k), st))
     ∧ ∀ key resource h rest n,
         Reaches (GetSubKeys key) resource (k :: rest) n →
         (GetAll key resource h).1.2 ≠ None).
Proof.
  assert (Hnoindex : (∀ digits, ¬ IndexSyntax k digits) → arrayIndexRegex k = None).
  { intros Hno. destruct (arrayIndexRegex k) as [ds|] eqn:E; [| done].
    by apply arrayIndexRegex_spec, Hno in E. }
  assert (Hbracket : ∀ name field value,
            PredicateSyntax k name field value → containsBracket k = true).
  { intros name field value (-> & _). done. }
  split_and!.
  - intros Hb. unfold isNormal, getIndex. rewrite Hb. split; [done |].
    destruct (arrayIndexRegex k) as [ds|] eqn:E; [| done].
    apply arrayIndexRegex_spec in E as (-> & _). done.
  - intros digits Hsyn%arrayIndexRegex_spec. unfold isNormal, getIndex.
    rewrite Hsyn. split; [| done].
    rewrite bool_decide_eq_true_2 by done. apply orb_true_r.
  - intros Hn rest cur st. split; intros; simpl; rewrite Hn.
    + by destruct (m !! k).
    + destruct (getIndex k) as [idx|]; [| done]. by destruct (l !! idx).
  - intros name field value Hsyn Hno.
    assert (Hn : isNormal k = false).
    { unfold isNormal. rewrite (Hbracket _ _ _ Hsyn), (Hnoindex Hno). done. }
    assert (Hp : predicateParts k
                 = Some (default field name, field, default EmptyString value)).
    { apply predicateParts_spec. by exists name, value. }
    split_and!; [done.. |]. intros. simpl. by rewrite Hn, Hp.
  - intros Hb Hno Hnp.
    assert (Hn : isNormal k = false).
    { unfold isNormal. rewrite Hb, (Hnoindex Hno). done. }
    assert (Hp : predicateParts k = None).
    { destruct (predicateParts k) as [[[n f] v']|] eqn:E; [| done].
      apply predicateParts_spec in E as (name & value & Hsyn & _).
      by apply Hnp in Hsyn. }
    split.
    + intros rest v cur st. simpl. by rewrite Hn, Hp.
    + intros key resource h rest n Hreach. rewrite GetAll_error.
      apply (walk_fails_reaches _ _ _ _ Hreach). by apply failsAt_invalid.
Qed.

(** C8.  Every MatchResult that [GetAll] returns has a concrete key path
    with as many entries as the path has segments.  This holds for the
    results of a successful call and also for those returned next to an
    error. *)
Theorem C8_key_path_length key resource h :
  Forall (fun r => length (Key r) = length (GetSubKeys key))
    (GetAll key resource h).1.1.
Proof.
  apply Forall_forall. intros r Hr.
  destruct (GetAll key resource h) as [[rs err] h'] eqn:E.
  destruct (GetAll_sound key resource h rs err h' r E Hr) as (caps & Hbr & _).
  by apply Branch_length in Hbr.
Qed.


(** C10.  When a branch of the traversal arrives at a predicate segment on
    a sequence that has a Mapping element in which the field of the
    predicate is present with a value that is not a string, [GetAll]
    returns an error, whatever the filter of the predicate is: also when it
    has none. *)
Theorem C10_non_string_field_fails key resource h k rest l name field filter m v :
  Reaches (GetSubKeys key) resource (k :: rest) (Sequence l) →
  isNormal k = false → predicateParts k = Some (name, field, filter) →
  Mapping m ∈ l → m !! field = Some v → (∀ s, v ≠ Str s) →
  (GetAll key resource h).1.2 ≠ None.
Proof.
  intros Hreach Hn Hp He Hf Hv. rewrite GetAll_error.
  apply (walk_fails_reaches _ _ _ _ Hreach).
  eapply failsAt_inadmissible; [done.. |].
  apply Exists_exists. exists (Mapping m). split; [done |]. simpl. rewrite Hf.
  destruct v; try done. by destruct (Hv s).
Qed.

End Specification.

(** * Further properties of the resolver *)

(** ** [Set] *)

Section SetProperties.
Context `{External}.

Lemma SetFrom_last k newValue value :
  SetFrom [k] newValue value
  = match value with
    | Mapping valueMap =>
        match valueMap !! k with
        | Some _ => (Mapping (<[k := newValue]> valueMap), None)
        | None => (value, Some (ErrSetSubkeyNotInMap k))
        end
    | Sequence valueArr =>
        match getIndex k with
        | Some idx =>
            if bool_decide (idx < length valueArr)
            then (Sequence (<[idx := newValue]> valueArr), None)
            else (value, Some (ErrSetInvalidIndex k))
        | None => (value, Some (ErrSetInvalidIndex k))
        end
    | _ => (value, Some (ErrSetNotMapOrArray value))
    end.
Proof. reflexivity. Qed.


(** [Set] succeeds exactly on the paths that [Get] finds. *)
Lemma SetFrom_ok_iff_found subKeys newValue v :
  subKeys ≠ [] →
  (SetFrom subKeys newValue v).2 = None ↔ (GetFrom subKeys v).2 = true.
Proof.
  revert v. induction subKeys as [|k rest IH]; intros v Hne; [done |].
  destruct rest as [|k2 rest].
  - rewrite SetFrom_last. simpl. destruct v as [m|l| | | | |]; try done.
    + by destruct (m !! k).
    + destruct (getIndex k) as [idx|]; [| done]. case_bool_decide as Hlt.
      * apply lookup_lt_is_Some_2 in Hlt as [x ->]. done.
      * rewrite lookup_ge_None_2 by lia. done.
  - rewrite SetFrom_step. cbn [GetFrom]. destruct v as [m|l| | | | |]; try done.
    + destruct (m !! k) as [child|]; [| done].
      specialize (IH child ltac:(done)).
      by destruct (SetFrom (k2 :: rest) newValue child).
    + destruct (getIndex k) as [idx|]; [| done].
      destruct (l !! idx) as [child|]; [| done].
      specialize (IH child ltac:(done)).
      by destruct (SetFrom (k2 :: rest) newValue child).
Qed.




(** Writing back the value [Get] finds changes nothing. *)
Lemma SetFrom_GetFrom subKeys v w :
  subKeys ≠ [] → GetFrom subKeys v = (w, true) →
  SetFrom subKeys w v = (v, None).
Proof.
  revert v. induction subKeys as [|k rest IH]; intros v Hne; [done |].
  destruct rest as [|k2 rest].
  - rewrite SetFrom_last. simpl. destruct v as [m|l| | | | |]; try done.
    + destruct (m !! k) as [x|] eqn:Hm; [| done]. intros [= ->].
      by rewrite insert_id.
    + destruct (getIndex k) as [idx|]; [| done].
      destruct (l !! idx) as [x|] eqn:Hl; [| done]. intros [= ->].
      rewrite bool_decide_eq_true_2 by (by eapply lookup_lt_Some).
      by rewrite list_insert_id.
  - rewrite SetFrom_step. cbn [GetFrom]. destruct v as [m|l| | | | |]; try done.
    + destruct (m !! k) as [child|] eqn:Hm; [| done]. intros Hget.
      rewrite (IH child) by done. by rewrite insert_id.
    + destruct (getIndex k) as [idx|]; [| done].
      destruct (l !! idx) as [child|] eqn:Hl; [| done]. intros Hget.
      rewrite (IH child) by done. by rewrite list_insert_id.
Qed.


End SetProperties.

(** ** [SetCreatingNew] *)

Section CreatingProperties.
Context `{External}.

Lemma SetCreatingNewFrom_cons k rest newValue config :
  rest ≠ [] →
  SetCreatingNewFrom (k :: rest) newValue config
  = <[k := Mapping (SetCreatingNewFrom rest newValue (childMap (config !! k)))]> config.
Proof. intros Hne. destruct rest; [done | apply SetCreatingNewFrom_step]. Qed.

(** Whatever the key, [SetCreatingNew] writes the entry of its first sub key
    in [config] and no other entry of [config]. *)
Lemma SetCreatingNewFrom_first k rest newValue config :
  ∃ x, SetCreatingNewFrom (k :: rest) newValue config = <[k := x]> config.
Proof.
  destruct rest as [|k2 rest]; [by eexists |].
  rewrite SetCreatingNewFrom_step. by eexists.
Qed.


(** Where the key already leads through nested maps, [Set] does what
    [SetCreatingNew] does. *)
Lemma SetFrom_SetCreatingNewFrom subKeys newValue config old :
  subKeys ≠ [] → lookupPath subKeys (Mapping config) = Some old →
  SetFrom subKeys newValue (Mapping config)
  = (Mapping (SetCreatingNewFrom subKeys newValue config), None).
Proof.
  revert config. induction subKeys as [|k rest IH]; intros config Hne; [done |].
  destruct rest as [|k2 rest].
  - rewrite SetFrom_last. simpl. by destruct (config !! k).
  - rewrite SetFrom_step, SetCreatingNewFrom_step. cbn [lookupPath].
    destruct (config !! k) as [child|]; [| done].
    destruct child as [m| | | | | |]; try done.
    intros Hl. by rewrite (IH m ltac:(done) Hl).
Qed.

(** The overwrite: a value that is not a map and stands where the key goes
    on is replaced by a new map that holds the written path and nothing
    else. *)
Lemma GetFrom_SetCreatingNewFrom_overwrite p k1 rest1 newValue config old :
  p ≠ [] → lookupPath p (Mapping config) = Some old → isMapping old = false →
  GetFrom p (Mapping (SetCreatingNewFrom (p ++ k1 :: rest1) newValue config))
  = (Mapping (SetCreatingNewFrom (k1 :: rest1) newValue ∅), true).
Proof.
  revert config. induction p as [|k p IH]; intros config Hne Hp Hold; [done |].
  change ((k :: p) ++ k1 :: rest1) with (k :: (p ++ k1 :: rest1)).
  rewrite SetCreatingNewFrom_cons by (by destruct p).
  cbn [GetFrom lookupPath] in *. rewrite lookup_insert_eq.
  destruct (config !! k) as [child|]; [| done].
  destruct p as [|k' p].
  - simpl in Hp. injection Hp as ->. simpl. by destruct old.
  - destruct child as [mc| | | | | |]; try done. simpl. by apply IH.
Qed.

End CreatingProperties.

(** ** The index keys [GetAll] writes *)

Lemma isDigit_pretty_N_char x : isDigit (pretty_N_char x) = true.
Proof. unfold pretty_N_char. by repeat case_match. Qed.

Lemma pretty_N_go_digits x s :
  allChars isDigit s = true → allChars isDigit (pretty_N_go x s) = true.
Proof.
  revert s. induction (N.lt_wf_0 x) as [x _ IH]; intros s Hs.
  destruct (decide (x = 0)%N) as [-> | Hx]; [by rewrite pretty_N_go_0 |].
  rewrite pretty_N_go_step by lia. apply IH; [apply N.div_lt; lia |].
  simpl. by rewrite isDigit_pretty_N_char.
Qed.

Lemma pretty_N_go_nonempty x s : s ≠ EmptyString → pretty_N_go x s ≠ EmptyString.
Proof.
  revert s. induction (N.lt_wf_0 x) as [x _ IH]; intros s Hs.
  destruct (decide (x = 0)%N) as [-> | Hx]; [by rewrite pretty_N_go_0 |].
  rewrite pretty_N_go_step by lia. apply IH; [apply N.div_lt; lia | done].
Qed.

Lemma pretty_nat_digits (j : nat) :
  pretty j ≠ EmptyString ∧ allChars isDigit (pretty j) = true.
Proof.
  unfold pretty, pretty_nat, pretty, pretty_N.
  destruct (decide (N.of_nat j = 0)%N) as [_ | Hj]; [done |]. split.
  - rewrite pretty_N_go_step by lia. by apply pretty_N_go_nonempty.
  - by apply pretty_N_go_digits.
Qed.

(** The sub key written for the element [j] is read as an index, and its
    digits are the decimal numeral of [j]. *)
Lemma arrayIndexRegex_indexKey j : arrayIndexRegex (indexKey j) = Some (pretty j).
Proof.
  apply arrayIndexRegex_spec. destruct (pretty_nat_digits j). by split_and!.
Qed.

Lemma isNormal_indexKey j : isNormal (indexKey j) = true.
Proof.
  unfold isNormal. rewrite arrayIndexRegex_indexKey.
  rewrite bool_decide_eq_true_2 by done. apply orb_true_r.
Qed.

(** The decimal reading of the decimal numeral of [j] is [j]. *)
Lemma decimalValue_pretty_N_go x s :
  ∃ p, ∀ acc, decimalValue acc (pretty_N_go x s)
              = decimalValue (acc * p + Z.of_N x) s.
Proof.
  revert s. induction (N.lt_wf_0 x) as [x _ IH]; intros s.
  destruct (decide (x = 0)%N) as [-> | Hx].
  { exists 1%Z. intros acc. rewrite pretty_N_go_0. f_equal.
    change (Z.of_N 0) with 0%Z. by rewrite Z.mul_1_r, Z.add_0_r. }
  assert (Hstep := pretty_N_go_step x s ltac:(lia)).
  destruct (IH (x `div` 10)%N ltac:(apply N.div_lt; lia)
              (String (pretty_N_char (x `mod` 10)) s)) as [p Hp].
  exists (p * 10)%Z. intros acc. rewrite Hstep, Hp. simpl.
  rewrite isDigit_pretty_N_char. f_equal.
  assert (Hd : (Z.of_N (N_of_ascii (pretty_N_char (x `mod` 10))) - 48
                = Z.of_N (x `mod` 10))%Z).
  { pose proof (N.mod_lt x 10 ltac:(done)) as Hlt.
    generalize dependent (x `mod` 10)%N. intros d _ _ Hlt.
    assert (d = 0 ∨ d = 1 ∨ d = 2 ∨ d = 3 ∨ d = 4 ∨ d = 5 ∨ d = 6 ∨ d = 7
            ∨ d = 8 ∨ d = 9)%N as Hcases by lia.
    destruct Hcases as [-> | [-> | [-> | [-> | [-> | [-> | [-> | [-> | [-> | ->]]]]]]]]];
      reflexivity. }
  rewrite Hd. pose proof (N.div_mod x 10 ltac:(done)) as Hdm.
  rewrite Hdm at 3. rewrite N2Z.inj_add, N2Z.inj_mul. simpl Z.of_N. lia.
Qed.

Lemma pretty_N_go_head x s :
  (0 < x)%N →
  ∃ c rest, pretty_N_go x s = String c rest ∧ Ascii.eqb c "0" = false.
Proof.
  revert s. induction (N.lt_wf_0 x) as [x _ IH]; intros s Hx.
  rewrite pretty_N_go_step by done.
  destruct (decide (x < 10)%N) as [Hlt | Hge].
  - rewrite N.div_small, N.mod_small, pretty_N_go_0 by done.
    eexists _, _. split; [done |].
    assert (x = 1 ∨ x = 2 ∨ x = 3 ∨ x = 4 ∨ x = 5 ∨ x = 6 ∨ x = 7 ∨ x = 8 ∨ x = 9)%N
      as Hcases by lia.
    destruct Hcases as [-> | [-> | [-> | [-> | [-> | [-> | [-> | [-> | ->]]]]]]]];
      reflexivity.
  - apply IH; [apply N.div_lt; lia |].
    assert (10 * (x `div` 10) + x `mod` 10 = x)%N
      by (symmetry; apply N.div_mod; done).
    pose proof (N.mod_lt x 10 ltac:(done)). lia.
Qed.

(** The stand-in reads the decimal numeral of every index that fits an
    [int] as that index. *)
Lemma specToIntE_pretty (j : nat) :
  (Z.of_nat j ≤ maxInt)%Z → specToIntE (pretty j) = Some (Z.of_nat j).
Proof.
  intros Hmax. unfold pretty, pretty_nat, pretty, pretty_N.
  destruct (decide (N.of_nat j = 0)%N) as [Hj | Hj].
  { simpl. f_equal. lia. }
  destruct (pretty_N_go_head (N.of_nat j) EmptyString ltac:(lia))
    as (c & rest & Hs & Hc).
  destruct (decimalValue_pretty_N_go (N.of_nat j) EmptyString) as [p Hp].
  specialize (Hp 0%Z). rewrite Hs in Hp |- *. unfold specToIntE. rewrite Hc, Hp.
  simpl decimalValue. rewrite Z.mul_0_l, Z.add_0_l, nat_N_Z.
  by rewrite (proj2 (Z.leb_le _ _) Hmax).
Qed.

(** ** The results of [GetAll] *)

Section Matches.
Context `{External}.

(** ** The concrete key path leads to the value *)

(** [Get] along the concrete key path of a branch arrives at its value,
    provided the index keys on it are read back as the indices they
    name. *)
Lemma GetFrom_concrete subKeys v ks caps w :
  Branch subKeys v ks caps w →
  (∀ j, indexKey j ∈ ks → ToIntE (pretty j) = Some (Z.of_nat j)) →
  GetFrom ks v = (w, true).
Proof.
  induction 1 as [ v | k rest v v' ks caps w Hn Hstep _ IH
                 | k rest l j e a name field filter ks caps w Hn Hp Hj Hsel _ IH ];
    intros Hread; [done | |].
  - assert (Hks : ∀ j, indexKey j ∈ ks → ToIntE (pretty j) = Some (Z.of_nat j)).
    { intros j Hin. apply Hread. by right. }
    simpl. destruct Hstep as [k m v' Hm | k l idx v' Hi Hl].
    + rewrite Hm. by apply IH.
    + rewrite Hi, Hl. by apply IH.
  - simpl. unfold getIndex. rewrite arrayIndexRegex_indexKey.
    rewrite (Hread j) by (by left).
    destruct (Z.ltb_spec (Z.of_nat j) 0) as [Hneg | _]; [lia |].
    rewrite Nat2Z.id, Hj. apply IH. intros j' Hin. apply Hread. by right.
Qed.

(** ** [Get] does not resolve predicates *)

Lemma isNormal_false_getIndex k : isNormal k = false → getIndex k = None.
Proof.
  unfold isNormal, getIndex. intros [_ Hidx]%orb_false_iff.
  destruct (arrayIndexRegex k); [| done].
  by rewrite bool_decide_eq_true_2 in Hidx.
Qed.

Lemma GetFrom_predicate subKeys v ks caps w :
  Branch subKeys v ks caps w →
  Exists (fun k => isNormal k = false) subKeys →
  (GetFrom subKeys v).2 = false.
Proof.
  induction 1 as [ v | k rest v v' ks caps w Hn Hstep _ IH
                 | k rest l j e a name field filter ks caps w Hn Hp Hj Hsel _ IH ];
    intros Hex.
  - by apply Exists_nil in Hex.
  - apply Exists_cons in Hex as [Hk | Hex]; [congruence |].
    simpl. destruct Hstep as [k m v' Hm | k l idx v' Hi Hl].
    + rewrite Hm. by apply IH.
    + rewrite Hi, Hl. by apply IH.
  - simpl. by rewrite isNormal_false_getIndex.
Qed.

End Matches.

(** ** The writers on trees and in place *)

Section TreeProofs.
Context `{External}.

(** A tree is still held when the objects of its footprint are kept. *)
Lemma Tree_kept σ σ' v n fp :
  Tree σ v n fp → (∀ a, a ∈ fp → σ' !! a = σ !! a) → Tree σ' v n fp.
Proof.
  induction 1 as [ | | | | | a mv mn fps fp Ha Hdom Hch IH Hroot Hdisj Hfp
                   | a lv ln fps fp Ha Hlen Hch IH Hroot Hdisj Hfp ];
    intros Hkept; try constructor.
  - eapply (tree_map σ' a mv mn fps); try done.
    + rewrite Hkept; [done |]. apply Hfp. by left.
    + intros k v n Hv Hn. apply (IH k v n Hv Hn).
      intros x Hx. apply Hkept, Hfp. right. eauto.
  - eapply (tree_slice σ' a lv ln fps); try done.
    + rewrite Hkept; [done |]. apply Hfp. by left.
    + intros i v n Hv Hn. apply (IH i v n Hv Hn).
      intros x Hx. apply Hkept, Hfp. right. eauto.
Qed.

(** The objects of a tree are objects of the store. *)
Lemma Tree_allocated σ v n fp :
  Tree σ v n fp → ∀ x, x ∈ fp → x < length σ.
Proof.
  induction 1 as [ | | | | | a mv mn fps fp Ha Hdom Hch IH Hroot Hdisj Hfp
                   | a lv ln fps fp Ha Hlen Hch IH Hroot Hdisj Hfp ];
    intros x Hx; try (by apply elem_of_empty in Hx).
  - apply Hfp in Hx as [-> | (k & v & Hv & Hx)]; [by eapply lookup_lt_Some |].
    destruct (mn !! k) as [n|] eqn:Hn; [by eapply IH |].
    apply Hdom in Hn. congruence.
  - apply Hfp in Hx as [-> | (i & v & Hv & Hx)]; [by eapply lookup_lt_Some |].
    destruct (ln !! i) as [n|] eqn:Hn; [by eapply IH |].
    apply lookup_lt_Some in Hv. apply lookup_ge_None in Hn. lia.
Qed.

(** On a configuration that is a tree, [Get] in place is [Get] on the
    tree: it finds a value exactly when the tree has one, and the value
    holds the tree found. *)
Lemma GetFrom_Tree subKeys :
  ∀ σ v n fp, Tree σ v n fp →
    ∃ w' fw,
      (InPlace.GetFrom subKeys v σ).2 = (GetFrom subKeys n).2
      ∧ ((GetFrom subKeys n).2 = true →
         InPlace.GetFrom subKeys v σ = (w', true)
         ∧ Tree σ w' (GetFrom subKeys n).1 fw ∧ fw ⊆ fp).
Proof.
  induction subKeys as [|k rest IH]; intros σ v n fp Ht.
  { exists v, fp. simpl. split; [done |]. intros _. split_and!; [done | done | set_solver]. }
  cbn [InPlace.GetFrom GetFrom].
  destruct Ht as [ | | | | | a mv mn fps fp Ha Hdom Hch Hroot Hdisj Hfp
                   | a lv ln fps fp Ha Hlen Hch Hroot Hdisj Hfp ];
    try (by exists InPlace.NullV, ∅).
  - simpl InPlace.mapAt. rewrite Ha.
    destruct (mn !! k) as [n|] eqn:Hn.
    + destruct (mv !! k) as [v|] eqn:Hv; [| apply Hdom in Hv; congruence].
      destruct (IH σ v n (fps k) (Hch k v n Hv Hn)) as (w' & fw & Hflag & Hfound).
      exists w', fw. split; [done |]. intros Hb.
      destruct (Hfound Hb) as (Hget & Hw & Hsub). split_and!; [done | done |].
      intros x Hx. apply Hfp. right. exists k, v. split; [done |]. by apply Hsub.
    + apply Hdom in Hn. rewrite Hn. by exists InPlace.NullV, ∅.
  - unfold InPlace.arrayAt. rewrite Ha.
    destruct (getIndex k) as [idx|]; [| by exists InPlace.NullV, ∅].
    destruct (ln !! idx) as [n|] eqn:Hn.
    + destruct (lv !! idx) as [v|] eqn:Hv.
      2: { apply lookup_lt_Some in Hn. apply lookup_ge_None in Hv. lia. }
      destruct (IH σ v n (fps idx) (Hch idx v n Hv Hn)) as (w' & fw & Hflag & Hfound).
      exists w', fw. split; [done |]. intros Hb.
      destruct (Hfound Hb) as (Hget & Hw & Hsub). split_and!; [done | done |].
      intros x Hx. apply Hfp. right. exists idx, v. split; [done |]. by apply Hsub.
    + assert (lv !! idx = None) as ->.
      { apply lookup_ge_None. apply lookup_ge_None in Hn. lia. }
      by exists InPlace.NullV, ∅.
Qed.

End TreeProofs.

Section TreeWrites.
Context `{External}.

(** A map of a tree with an entry replaced or added.  [part] is the
    footprint of the entry replaced. *)
Lemma Tree_map_put σ σ' a mv mn (fps : string → gset nat) fp k cv cn fc part :
  σ !! a = Some (InPlace.MapO mv) →
  (∀ k, mv !! k = None ↔ mn !! k = None) →
  (∀ k v n, mv !! k = Some v → mn !! k = Some n → Tree σ v n (fps k)) →
  (∀ k v, mv !! k = Some v → a ∉ fps k) →
  (∀ k1 k2 v1 v2, k1 ≠ k2 → mv !! k1 = Some v1 → mv !! k2 = Some v2 →
                  fps k1 ## fps k2) →
  (∀ x, x ∈ fp ↔ x = a ∨ ∃ k v, mv !! k = Some v ∧ x ∈ fps k) →
  part = match mv !! k with Some _ => fps k | None => ∅ end →
  σ' !! a = Some (InPlace.MapO (<[k := cv]> mv)) →
  (∀ x, x ∈ fp → x ≠ a → x ∉ part → σ' !! x = σ !! x) →
  Tree σ' cv cn fc → a ∉ fc →
  (∀ k2 v2, k2 ≠ k → mv !! k2 = Some v2 → fc ## fps k2) →
  Tree σ' (InPlace.MapV (Some a)) (Mapping (<[k := cn]> mn)) ((fp ∖ part) ∪ fc).
Proof.
  intros Ha Hdom Hch Hroot Hdisj Hfp Hpart Ha' Hkept Hc Hac Hcdisj.
  assert (Hnotpart : ∀ k' v x, k' ≠ k → mv !! k' = Some v → x ∈ fps k' → x ∉ part).
  { intros k' v x Hne Hv Hx. rewrite Hpart.
    destruct (mv !! k) as [oldv|] eqn:Hold; [| apply not_elem_of_empty].
    intros Hxk. by apply (Hdisj k' k v oldv Hne Hv Hold x). }
  assert (Hapart : a ∉ part).
  { rewrite Hpart. destruct (mv !! k) as [oldv|] eqn:Hold;
      [by apply (Hroot k oldv) | apply not_elem_of_empty]. }
  apply (tree_map σ' a (<[k := cv]> mv) (<[k := cn]> mn)
           (fun k' => if decide (k' = k) then fc else fps k')); [done | | | | |].
  - intros k'. destruct (decide (k' = k)) as [-> | Hne].
    + by rewrite !lookup_insert_eq.
    + by rewrite !lookup_insert_ne.
  - intros k' v n. destruct (decide (k' = k)) as [-> | Hne].
    + rewrite !lookup_insert_eq. by intros [= <-] [= <-].
    + rewrite !lookup_insert_ne by done. intros Hv Hn.
      apply (Tree_kept σ); [by eapply Hch |].
      intros x Hx. apply Hkept.
      * apply Hfp. right. eauto.
      * intros ->. by apply (Hroot k' v).
      * by eapply Hnotpart.
  - intros k' v. destruct (decide (k' = k)) as [-> | Hne]; [by intros _ |].
    rewrite lookup_insert_ne by done. apply Hroot.
  - intros k1 k2 v1 v2 Hne.
    destruct (decide (k1 = k)) as [-> | H1], (decide (k2 = k)) as [-> | H2];
      try done.
    + rewrite (lookup_insert_ne _ k k2) by done. intros _ Hv2. by eapply Hcdisj.
    + rewrite (lookup_insert_ne _ k k1) by done. intros Hv1 _. symmetry.
      by eapply Hcdisj.
    + rewrite !lookup_insert_ne by done. by apply Hdisj.
  - intros x. rewrite elem_of_union, elem_of_difference, Hfp. split.
    + intros [[[-> | (k' & v & Hv & Hx)] Hnot] | Hx].
      * by left.
      * right. exists k', v. destruct (decide (k' = k)) as [-> | Hne].
        -- rewrite Hpart, Hv in Hnot. done.
        -- by rewrite lookup_insert_ne.
      * right. exists k, cv. rewrite lookup_insert_eq.
        by destruct (decide (k = k)).
    + intros [-> | (k' & v & Hv & Hx)].
      * left. split; [by left | done].
      * destruct (decide (k' = k)) as [-> | Hne]; [by right |].
        rewrite lookup_insert_ne in Hv by done. left. split; [right; eauto |].
        by eapply Hnotpart.
Qed.

(** A map of a tree with one of its entries replaced. *)
Lemma Tree_map_insert σ σ' a mv mn (fps : string → gset nat) fp k oldv cv cn fc :
  σ !! a = Some (InPlace.MapO mv) →
  (∀ k, mv !! k = None ↔ mn !! k = None) →
  (∀ k v n, mv !! k = Some v → mn !! k = Some n → Tree σ v n (fps k)) →
  (∀ k v, mv !! k = Some v → a ∉ fps k) →
  (∀ k1 k2 v1 v2, k1 ≠ k2 → mv !! k1 = Some v1 → mv !! k2 = Some v2 →
                  fps k1 ## fps k2) →
  (∀ x, x ∈ fp ↔ x = a ∨ ∃ k v, mv !! k = Some v ∧ x ∈ fps k) →
  mv !! k = Some oldv →
  σ' !! a = Some (InPlace.MapO (<[k := cv]> mv)) →
  (∀ x, x ∈ fp → x ≠ a → x ∉ fps k → σ' !! x = σ !! x) →
  Tree σ' cv cn fc → a ∉ fc →
  (∀ k2 v2, k2 ≠ k → mv !! k2 = Some v2 → fc ## fps k2) →
  Tree σ' (InPlace.MapV (Some a)) (Mapping (<[k := cn]> mn)) ((fp ∖ fps k) ∪ fc).
Proof.
  intros Ha Hdom Hch Hroot Hdisj Hfp Hold Ha' Hkept Hc Hac Hcdisj.
  eapply (Tree_map_put σ σ' a mv mn fps fp k cv cn fc (fps k)); try done.
  by rewrite Hold.
Qed.

(** An array of a tree with one of its elements replaced. *)
Lemma Tree_slice_insert σ σ' a lv ln (fps : nat → gset nat) fp i oldv cv cn fc :
  σ !! a = Some (InPlace.ArrayO lv) →
  length lv = length ln →
  (∀ i v n, lv !! i = Some v → ln !! i = Some n → Tree σ v n (fps i)) →
  (∀ i v, lv !! i = Some v → a ∉ fps i) →
  (∀ i1 i2 v1 v2, i1 ≠ i2 → lv !! i1 = Some v1 → lv !! i2 = Some v2 →
                  fps i1 ## fps i2) →
  (∀ x, x ∈ fp ↔ x = a ∨ ∃ i v, lv !! i = Some v ∧ x ∈ fps i) →
  lv !! i = Some oldv →
  σ' !! a = Some (InPlace.ArrayO (<[i := cv]> lv)) →
  (∀ x, x ∈ fp → x ≠ a → x ∉ fps i → σ' !! x = σ !! x) →
  Tree σ' cv cn fc → a ∉ fc →
  (∀ i2 v2, i2 ≠ i → lv !! i2 = Some v2 → fc ## fps i2) →
  Tree σ' (InPlace.SliceV a) (Sequence (<[i := cn]> ln)) ((fp ∖ fps i) ∪ fc).
Proof.
  intros Ha Hlen Hch Hroot Hdisj Hfp Hold Ha' Hkept Hc Hac Hcdisj.
  assert (Hi : i < length lv) by (by eapply lookup_lt_Some).
  apply (tree_slice σ' a (<[i := cv]> lv) (<[i := cn]> ln)
           (fun i' => if decide (i' = i) then fc else fps i')); [done | | | | |].
  - by rewrite !length_insert.
  - intros i' v n. destruct (decide (i' = i)) as [-> | Hne].
    + rewrite !list_lookup_insert_eq by lia. by intros [= <-] [= <-].
    + rewrite !list_lookup_insert_ne by done. intros Hv Hn.
      apply (Tree_kept σ); [by eapply Hch |].
      intros x Hx. apply Hkept.
      * apply Hfp. right. eauto.
      * intros ->. by apply (Hroot i' v).
      * intros Hxk. by apply (Hdisj i' i v oldv Hne Hv Hold x).
  - intros i' v. destruct (decide (i' = i)) as [-> | Hne]; [by intros _ |].
    rewrite list_lookup_insert_ne by done. apply Hroot.
  - intros i1 i2 v1 v2 Hne.
    destruct (decide (i1 = i)) as [-> | H1], (decide (i2 = i)) as [-> | H2];
      try done.
    + rewrite (list_lookup_insert_ne _ i i2) by done. intros _ Hv2. by eapply Hcdisj.
    + rewrite (list_lookup_insert_ne _ i i1) by done. intros Hv1 _. symmetry.
      by eapply Hcdisj.
    + rewrite !list_lookup_insert_ne by done. by apply Hdisj.
  - intros x. rewrite elem_of_union, elem_of_difference, Hfp. split.
    + intros [[[-> | (i' & v & Hv & Hx)] Hnot] | Hx].
      * by left.
      * right. exists i', v. destruct (decide (i' = i)) as [-> | Hne]; [done |].
        by rewrite list_lookup_insert_ne.
      * right. exists i, cv. rewrite list_lookup_insert_eq by lia.
        by destruct (decide (i = i)).
    + intros [-> | (i' & v & Hv & Hx)].
      * left. split; [by left |]. by apply (Hroot i oldv).
      * destruct (decide (i' = i)) as [-> | Hne]; [by right |].
        rewrite list_lookup_insert_ne in Hv by done. left. split; [right; eauto |].
        intros Hxk. by apply (Hdisj i' i v oldv Hne Hv Hold x).
Qed.

End TreeWrites.

Section SetOnTrees.
Context `{External}.

(** On a configuration that is a tree, [Set] in place is [Set] on the
    tree: it returns the same error, and the configuration then holds the
    tree that [SetFrom] gives. *)
Lemma SetFrom_Tree subKeys xv xn fx :
  ∀ σ v n fp,
    Tree σ v n fp → Tree σ xv xn fx → fx ## fp → subKeys ≠ [] →
    ∃ σ' fp',
      InPlace.SetFrom subKeys xv v σ = (σ', (SetFrom subKeys xn n).2)
      ∧ Tree σ' v (SetFrom subKeys xn n).1 fp'
      ∧ fp' ⊆ fp ∪ fx
      ∧ (∀ a, a ∉ fp → σ' !! a = σ !! a).
Proof.
  assert (Hgrow : ∀ fp part new : gset nat,
            new ⊆ fp ∪ fx → (fp ∖ part) ∪ new ⊆ fp ∪ fx).
  { intros fp part new Hnew x [[Hxfp _]%elem_of_difference | Hxnew]%elem_of_union.
    - apply elem_of_union. by left.
    - by apply Hnew. }
  assert (disjoint_subseteq_r : ∀ part fp : gset nat, fx ## fp → part ⊆ fp → fx ## part).
  { intros part fp Hd Hs x Hx1 Hx2. apply (Hd x); [done |]. by apply Hs. }
  induction subKeys as [|k rest IH]; intros σ v n fp Ht Hx Hfx Hne; [done |].
  destruct rest as [|k2 rest].
  - rewrite SetFrom_last. cbn [InPlace.SetFrom].
    destruct Ht as [ | | | | | a mv mn fps fp Ha Hdom Hch Hroot Hdisj Hfp
                     | a lv ln fps fp Ha Hlen Hch Hroot Hdisj Hfp ];
      try (exists σ, ∅; split_and!; [done | constructor | apply empty_subseteq | done]).
    + assert (Hafp : a ∈ fp) by (apply Hfp; by left).
      simpl InPlace.mapAt. rewrite Ha.
      destruct (mn !! k) as [old|] eqn:Hn.
      * destruct (mv !! k) as [oldv|] eqn:Hv; [| apply Hdom in Hv; congruence].
        simpl fst. simpl snd.
        assert (Ha' : InPlace.assignKey a k xv σ !! a
                      = Some (InPlace.MapO (<[k := xv]> mv))).
        { unfold InPlace.assignKey. simpl InPlace.mapAt. rewrite Ha.
          apply list_lookup_insert_eq. by eapply lookup_lt_Some. }
        assert (Hother : ∀ x, x ≠ a → InPlace.assignKey a k xv σ !! x = σ !! x).
        { intros x Hxa. unfold InPlace.assignKey. by rewrite list_lookup_insert_ne. }
        exists (InPlace.assignKey a k xv σ), ((fp ∖ fps k) ∪ fx).
        split_and!; [done | | apply Hgrow, union_subseteq_r |].
        -- eapply (Tree_map_insert σ); try done.
           ++ intros x _ Hxa _. by apply Hother.
           ++ apply (Tree_kept σ); [done |]. intros x Hxfx. apply Hother.
              intros ->. by apply (Hfx a).
           ++ intros Hin. by apply (Hfx a).
           ++ intros k2 v2 Hne2 Hv2 x Hx1 Hx2. apply (Hfx x); [done |].
              apply Hfp. right. eauto.
        -- intros x Hxfp. apply Hother. by intros ->.
      * apply Hdom in Hn. rewrite Hn. exists σ, fp.
        split_and!; [done | by econstructor | apply union_subseteq_l | done].
    + assert (Hafp : a ∈ fp) by (apply Hfp; by left).
      assert (Harr : InPlace.arrayAt σ a = lv)
        by (unfold InPlace.arrayAt; by rewrite Ha).
      rewrite Harr, Hlen.
      destruct (getIndex k) as [idx|];
        [| exists σ, fp; split_and!; [done | by econstructor | apply union_subseteq_l | done]].
      case_bool_decide as Hlt;
        [| exists σ, fp; split_and!; [done | by econstructor | apply union_subseteq_l | done]].
      simpl fst. simpl snd.
      assert (Hsome : is_Some (lv !! idx)) by (apply lookup_lt_is_Some_2; lia).
      destruct Hsome as [oldv Hv].
      assert (Ha' : InPlace.assignIndex a idx xv σ !! a
                    = Some (InPlace.ArrayO (<[idx := xv]> lv))).
      { unfold InPlace.assignIndex, InPlace.arrayAt. rewrite Ha.
        apply list_lookup_insert_eq. by eapply lookup_lt_Some. }
      assert (Hother : ∀ x, x ≠ a → InPlace.assignIndex a idx xv σ !! x = σ !! x).
      { intros x Hxa. unfold InPlace.assignIndex. by rewrite list_lookup_insert_ne. }
      exists (InPlace.assignIndex a idx xv σ), ((fp ∖ fps idx) ∪ fx).
      split_and!; [done | | apply Hgrow, union_subseteq_r |].
      * eapply (Tree_slice_insert σ); try done.
        -- intros x _ Hxa _. by apply Hother.
        -- apply (Tree_kept σ); [done |]. intros x Hxfx. apply Hother.
           intros ->. by apply (Hfx a).
        -- intros Hin. by apply (Hfx a).
        -- intros i2 v2 Hne2 Hv2 x Hx1 Hx2. apply (Hfx x); [done |].
           apply Hfp. right. eauto.
      * intros x Hxfp. apply Hother. by intros ->.
  - rewrite SetFrom_step, SetFrom_in_place_step.
    destruct Ht as [ | | | | | a mv mn fps fp Ha Hdom Hch Hroot Hdisj Hfp
                     | a lv ln fps fp Ha Hlen Hch Hroot Hdisj Hfp ];
      try (exists σ, ∅; split_and!; [done | constructor | apply empty_subseteq | done]).
    + assert (Hafp : a ∈ fp) by (apply Hfp; by left).
      simpl InPlace.mapAt. rewrite Ha.
      destruct (mn !! k) as [child|] eqn:Hn.
      2: { apply Hdom in Hn. rewrite Hn. exists σ, fp.
           split_and!; [done | by econstructor | apply union_subseteq_l | done]. }
      destruct (mv !! k) as [cv|] eqn:Hv; [| apply Hdom in Hv; congruence].
      assert (Hsubk : fps k ⊆ fp).
      { intros x Hxk. apply Hfp. right. eauto. }
      destruct (IH σ cv child (fps k) (Hch k cv child Hv Hn) Hx
                  ltac:(by eapply disjoint_subseteq_r) ltac:(done))
        as (σ' & fpc & Hrun & Htree & Hsub & Hframe).
      destruct (SetFrom (k2 :: rest) xn child) as [child' err] eqn:E.
      simpl fst in *. simpl snd in *.
      exists σ', ((fp ∖ fps k) ∪ fpc).
      split_and!; [done | | apply Hgrow; etrans; [exact Hsub |];
                            apply union_mono_r, Hsubk |].
      * eapply (Tree_map_insert σ σ' a mv mn fps fp k cv cv); try done.
        -- rewrite insert_id by done. rewrite Hframe; [done |]. by eapply Hroot.
        -- intros x _ _ Hxk. by apply Hframe.
        -- intros Hin. apply Hsub in Hin. apply elem_of_union in Hin as [Hin | Hin].
           ++ by apply (Hroot k cv).
           ++ by apply (Hfx a).
        -- intros k3 v3 Hne3 Hv3 x Hx1 Hx2. apply Hsub in Hx1.
           apply elem_of_union in Hx1 as [Hx1 | Hx1].
           ++ by apply (Hdisj k k3 cv v3 ltac:(done) Hv Hv3 x).
           ++ apply (Hfx x); [done |]. apply Hfp. right. eauto.
      * intros x Hxfp. apply Hframe. intros Hxk. by apply Hxfp, Hsubk.
    + assert (Hafp : a ∈ fp) by (apply Hfp; by left).
      assert (Harr : InPlace.arrayAt σ a = lv)
        by (unfold InPlace.arrayAt; by rewrite Ha).
      rewrite Harr.
      destruct (getIndex k) as [idx|];
        [| exists σ, fp; split_and!; [done | by econstructor | apply union_subseteq_l | done]].
      destruct (ln !! idx) as [child|] eqn:Hn.
      2: { assert (lv !! idx = None) as ->.
           { apply lookup_ge_None. apply lookup_ge_None in Hn. lia. }
           exists σ, fp. split_and!; [done | by econstructor | apply union_subseteq_l | done]. }
      destruct (lv !! idx) as [cv|] eqn:Hv.
      2: { apply lookup_lt_Some in Hn. apply lookup_ge_None in Hv. lia. }
      assert (Hsubk : fps idx ⊆ fp).
      { intros x Hxk. apply Hfp. right. eauto. }
      destruct (IH σ cv child (fps idx) (Hch idx cv child Hv Hn) Hx
                  ltac:(by eapply disjoint_subseteq_r) ltac:(done))
        as (σ' & fpc & Hrun & Htree & Hsub & Hframe).
      destruct (SetFrom (k2 :: rest) xn child) as [child' err] eqn:E.
      simpl fst in *. simpl snd in *.
      exists σ', ((fp ∖ fps idx) ∪ fpc).
      split_and!; [done | | apply Hgrow; etrans; [exact Hsub |];
                            apply union_mono_r, Hsubk |].
      * eapply (Tree_slice_insert σ σ' a lv ln fps fp idx cv cv); try done.
        -- rewrite list_insert_id by done. rewrite Hframe; [done |].
           by eapply Hroot.
        -- intros x _ _ Hxk. by apply Hframe.
        -- intros Hin. apply Hsub in Hin. apply elem_of_union in Hin as [Hin | Hin].
           ++ by apply (Hroot idx cv).
           ++ by apply (Hfx a).
        -- intros i3 v3 Hne3 Hv3 x Hx1 Hx2. apply Hsub in Hx1.
           apply elem_of_union in Hx1 as [Hx1 | Hx1].
           ++ by apply (Hdisj idx i3 cv v3 ltac:(done) Hv Hv3 x).
           ++ apply (Hfx x); [done |]. apply Hfp. right. eauto.
      * intros x Hxfp. apply Hframe. intros Hxk. by apply Hxfp, Hsubk.
Qed.

End SetOnTrees.

Section CreateOnTrees.
Context `{External}.

Lemma Tree_MapV_inv σ c n fp :
  Tree σ (InPlace.MapV c) n fp → ∃ c0 child, c = Some c0 ∧ n = Mapping child.
Proof. inversion 1; subst. eauto. Qed.

Lemma Tree_Mapping_inv σ v child fp :
  Tree σ v (Mapping child) fp → ∃ c0, v = InPlace.MapV (Some c0).
Proof. inversion 1; subst. eauto. Qed.

(** A map just made holds the empty tree. *)
Lemma Tree_empty_map σ a :
  σ !! a = Some (InPlace.MapO ∅) →
  Tree σ (InPlace.MapV (Some a)) (Mapping ∅) {[ a ]}.
Proof.
  intros Ha. apply (tree_map σ a ∅ ∅ (fun _ => ∅)); try done.
  intros x. rewrite elem_of_singleton. split; [by left |].
  intros [-> | (k & v & Hv & _)]; [done |]. by rewrite lookup_empty in Hv.
Qed.

(** On a configuration that is a tree, [SetCreatingNew] in place is
    [SetCreatingNew] on the tree: it returns, and the configuration then
    holds the tree that [SetCreatingNewFrom] gives. *)
Lemma SetCreatingNewFrom_Tree subKeys xv xn fx :
  subKeys ≠ [] →
  ∀ σ a mn fp,
    Tree σ (InPlace.MapV (Some a)) (Mapping mn) fp → Tree σ xv xn fx → fx ## fp →
    ∃ σ' fp',
      InPlace.SetCreatingNewFrom subKeys xv (Some a) σ = Some σ'
      ∧ Tree σ' (InPlace.MapV (Some a))
          (Mapping (SetCreatingNewFrom subKeys xn mn)) fp'
      ∧ (∀ x, x ∈ fp' → x ∈ fp ∨ x ∈ fx ∨ length σ ≤ x)
      ∧ (∀ x, x < length σ → x ∉ fp → σ' !! x = σ !! x)
      ∧ length σ ≤ length σ'.
Proof.
  induction subKeys as [|k rest IH]; intros Hne σ a mn fp Ht Hx Hfx; [done |].
  assert (Hfxlt : ∀ x, x ∈ fx → x < length σ) by (by eapply Tree_allocated).
  assert (Hfplt : ∀ x, x ∈ fp → x < length σ) by (by eapply Tree_allocated).
  inversion Ht as [ | | | | | a' mv mn' fps fp' Ha Hdom Hch Hroot Hdisj Hfp | ];
    subst.
  assert (Hafp : a ∈ fp) by (apply Hfp; by left).
  assert (Hafx : a ∉ fx) by (intros Hin; by apply (Hfx a)).
  assert (Halt : a < length σ) by (by apply Hfplt).
  assert (Hsubk : ∀ k' v' x, mv !! k' = Some v' → x ∈ fps k' → x ∈ fp).
  { intros k' v' x Hv' Hxk. apply Hfp. right. eauto. }
  set (part := match mv !! k with Some _ => fps k | None => ∅ end).
  destruct rest as [|k2 rest].
  - (* the last sub key: one assignment *)
    cbn [InPlace.SetCreatingNewFrom InPlace.assign SetCreatingNewFrom].
    assert (Ha' : InPlace.assignKey a k xv σ !! a
                  = Some (InPlace.MapO (<[k := xv]> mv))).
    { unfold InPlace.assignKey. simpl InPlace.mapAt. rewrite Ha.
      by apply list_lookup_insert_eq. }
    assert (Hother : ∀ x, x ≠ a → InPlace.assignKey a k xv σ !! x = σ !! x).
    { intros x Hxa. unfold InPlace.assignKey. by rewrite list_lookup_insert_ne. }
    exists (InPlace.assignKey a k xv σ), ((fp ∖ part) ∪ fx).
    split_and!; [done | | | | by rewrite length_assignKey].
    + eapply (Tree_map_put σ _ a mv mn fps fp k xv xn fx part); try done.
      * intros x _ Hxa _. by apply Hother.
      * apply (Tree_kept σ); [done |]. intros x Hxfx. apply Hother.
        by intros ->.
      * intros k2 v2 Hne2 Hv2 x Hx1 Hx2. apply (Hfx x); [done |]. by eapply Hsubk.
    + intros x [[Hxfp _]%elem_of_difference | Hxfx]%elem_of_union; auto.
    + intros x _ Hxfp. apply Hother. by intros ->.
  - rewrite SetCreatingNewFrom_step, SetCreatingNewFrom_in_place_cons by done.
    simpl InPlace.mapAt. rewrite Ha.
    (* the map the call goes on in, and the tree it holds *)
    assert (Hnext : ∃ σ1 c1 fp1,
      match mv !! k with
      | Some (InPlace.MapV valueMap) =>
          InPlace.SetCreatingNewFrom (k2 :: rest) xv valueMap σ
      | _ =>
          match InPlace.assign (Some a) k (InPlace.MapV (Some (length σ)))
                  (σ ++ [InPlace.MapO ∅]) with
          | Some σ' =>
              InPlace.SetCreatingNewFrom (k2 :: rest) xv (Some (length σ)) σ'
          | None => None
          end
      end = InPlace.SetCreatingNewFrom (k2 :: rest) xv (Some c1) σ1
      ∧ σ1 !! a = Some (InPlace.MapO (<[k := InPlace.MapV (Some c1)]> mv))
      ∧ Tree σ1 (InPlace.MapV (Some c1)) (Mapping (childMap (mn !! k))) fp1
      ∧ Tree σ1 xv xn fx ∧ (fx ## fp1)
      ∧ (a ∉ fp1)
      ∧ (∀ x, x ∈ fp1 → x ∈ part ∨ length σ ≤ x)
      ∧ (∀ x, x < length σ → x ≠ a → σ1 !! x = σ !! x)
      ∧ length σ ≤ length σ1).
    { assert (Hcreate : (∀ c, mv !! k ≠ Some (InPlace.MapV c)) →
                        childMap (mn !! k) = ∅ →
        ∃ σ1 c1 fp1,
          match InPlace.assign (Some a) k (InPlace.MapV (Some (length σ)))
                  (σ ++ [InPlace.MapO ∅]) with
          | Some σ' =>
              InPlace.SetCreatingNewFrom (k2 :: rest) xv (Some (length σ)) σ'
          | None => None
          end = InPlace.SetCreatingNewFrom (k2 :: rest) xv (Some c1) σ1
          ∧ σ1 !! a = Some (InPlace.MapO (<[k := InPlace.MapV (Some c1)]> mv))
          ∧ Tree σ1 (InPlace.MapV (Some c1)) (Mapping (childMap (mn !! k))) fp1
          ∧ Tree σ1 xv xn fx ∧ (fx ## fp1)
          ∧ (a ∉ fp1)
          ∧ (∀ x, x ∈ fp1 → x ∈ part ∨ length σ ≤ x)
          ∧ (∀ x, x < length σ → x ≠ a → σ1 !! x = σ !! x)
          ∧ length σ ≤ length σ1).
      { intros _ ->. cbn [InPlace.assign].
        rewrite assignKey_app by done.
        set (σ0 := InPlace.assignKey a k (InPlace.MapV (Some (length σ))) σ).
        assert (Hlen0 : length σ0 = length σ) by apply length_assignKey.
        assert (Hnew : (σ0 ++ [InPlace.MapO ∅]) !! length σ = Some (InPlace.MapO ∅)).
        { by rewrite lookup_app_r, Hlen0, Nat.sub_diag by lia. }
        assert (Hold : ∀ x, x < length σ → x ≠ a →
                            (σ0 ++ [InPlace.MapO ∅]) !! x = σ !! x).
        { intros x Hxlt Hxa. rewrite lookup_app_l by lia.
          subst σ0. unfold InPlace.assignKey. by rewrite list_lookup_insert_ne. }
        exists (σ0 ++ [InPlace.MapO ∅]), (length σ), {[ length σ ]}.
        split_and!; [done | | by apply Tree_empty_map | | | | | done |].
        - rewrite lookup_app_l by lia. subst σ0. unfold InPlace.assignKey.
          simpl InPlace.mapAt. rewrite Ha. by apply list_lookup_insert_eq.
        - apply (Tree_kept σ); [done |]. intros x Hxfx. apply Hold; [by apply Hfxlt |].
          by intros ->.
        - intros x Hx1 ->%elem_of_singleton. apply Hfxlt in Hx1. lia.
        - intros ->%elem_of_singleton. lia.
        - intros x ->%elem_of_singleton. by right.
        - rewrite length_app. lia. }
      destruct (mv !! k) as [cv|] eqn:Hv.
      2: { apply Hcreate; [done |]. apply Hdom in Hv. by rewrite Hv. }
      destruct (mn !! k) as [cn|] eqn:Hn; [| apply Hdom in Hn; congruence].
      pose proof (Hch k cv cn Hv Hn) as Htc.
      destruct cv as [c| | | | | |];
        try (apply Hcreate; [done |]; by inversion Htc; subst).
      destruct (Tree_MapV_inv _ _ _ _ Htc) as (c0 & child & -> & ->).
      exists σ, c0, (fps k). simpl childMap.
      split_and!; [done | by rewrite insert_id | done | done | | | | done | done].
      - intros x Hx1 Hx2. apply (Hfx x); [done |]. by eapply Hsubk.
      - by eapply Hroot.
      - intros x Hxk. by left. }
    destruct Hnext as (σ1 & c1 & fp1 & -> & Ha1 & Ht1 & Hx1 & Hfx1 & Ha1fp & Hfp1
                       & Hold1 & Hlen1).
    destruct (IH ltac:(done) σ1 c1 (childMap (mn !! k)) fp1 Ht1 Hx1 Hfx1)
      as (σ' & fpc & Hrun & Htree & Hbound & Hframe & Hlen').
    exists σ', ((fp ∖ part) ∪ fpc).
    assert (Hfp1lt : ∀ x, x ∈ fp1 → x < length σ1) by (by eapply Tree_allocated).
    assert (Hkept' : ∀ x, x < length σ → x ≠ a → x ∉ part → σ' !! x = σ !! x).
    { intros x Hxlt Hxa Hxpart. rewrite Hframe; [by apply Hold1 | lia |].
      intros [Hin | Hge]%Hfp1; [done | lia]. }
    assert (Hbound' : ∀ x, x ∈ fpc → x ∈ part ∨ x ∈ fx ∨ length σ ≤ x).
    { intros x [Hin | [Hin | Hge]]%Hbound; [| by auto | right; right; lia].
      apply Hfp1 in Hin as [Hin | Hge]; auto. }
    assert (Hpartfp : ∀ x, x ∈ part → x ∈ fp).
    { intros x. subst part. destruct (mv !! k) as [cv|] eqn:Hv.
      - by apply (Hsubk k cv).
      - by intros ?%elem_of_empty. }
    split_and!; [done | | | | lia].
    + eapply (Tree_map_put σ σ' a mv mn fps fp k (InPlace.MapV (Some c1)) _ fpc part);
        try done.
      * rewrite Hframe; [done | lia | done].
      * intros x Hxfp Hxa Hxpart. apply Hkept'; [by apply Hfplt | done | done].
      * intros [Hin | [Hin | Hge]]%Hbound'; [| done | lia].
        subst part. destruct (mv !! k) as [cv|] eqn:Hv.
        -- by apply (Hroot k cv).
        -- by apply elem_of_empty in Hin.
      * intros k3 v3 Hne3 Hv3 x Hxc Hx3.
        apply Hbound' in Hxc as [Hin | [Hin | Hge]].
        -- subst part. destruct (mv !! k) as [cv|] eqn:Hv.
           ++ by apply (Hdisj k k3 cv v3 ltac:(done) Hv Hv3 x).
           ++ by apply elem_of_empty in Hin.
        -- apply (Hfx x); [done |]. by eapply Hsubk.
        -- assert (x < length σ) by (apply Hfplt; by eapply Hsubk). lia.
    + intros x [[Hxfp _]%elem_of_difference | Hxc]%elem_of_union; [by left |].
      apply Hbound' in Hxc as [Hin | [Hin | Hge]]; auto.
    + intros x Hxlt Hxfp. apply Hkept'; [done | by intros -> |].
      intros Hin. by apply Hxfp, Hpartfp.
Qed.

End CreateOnTrees.

(** ** The statements *)

Section Further.
Context `{External}.

(** X1.  [Set] returns nil exactly when the key is not empty, has sub keys,
    and [Get] finds the key in the configuration. *)
Theorem X1_set_succeeds_iff_get_finds key newValue config :
  (Set' key newValue config).2 = None
  ↔ key ≠ EmptyString ∧ GetSubKeys key ≠ [] ∧ (Get key config).2 = true.
Proof.
  unfold Set', Get. destruct (isEmpty key) eqn:Hkey.
  { apply isEmpty_true in Hkey. simpl. split; [done | by intros [? _]]. }
  apply isEmpty_false in Hkey. case_bool_decide as Hlen; simpl.
  { apply length_zero_iff_nil in Hlen. split; [done | by intros (_ & ? & _)]. }
  assert (Hne : GetSubKeys key ≠ []) by (by intros Hnil; rewrite Hnil in Hlen).
  rewrite SetFrom_ok_iff_found by done. tauto.
Qed.


(** X3.  A [Set] that returns an error has written nothing: the
    configuration is the one it was given. *)
Theorem X3_set_error_writes_nothing key newValue config config' e :
  Set' key newValue config = (config', Some e) → config' = config.
Proof.
  unfold Set'. destruct (isEmpty key); [by intros [= <-] |].
  case_bool_decide; [by intros [= <-] |]. apply SetFrom_error_unchanged.
Qed.


(** X5.  A [Set] that returns nil has assigned into one place of the
    store, the last one [Get] looks into for the key: the place holds the
    new value, every other place holds what it held, and a [Get] that does
    not look into that place, from any value and for any key, returns what
    it returned.  With a map held at two places of a configuration, the
    keys through either of them look into the place. *)
Theorem X5_set_leaves_other_paths key newValue config σ σ' :
  InPlace.Set' key newValue config σ = (σ', None) →
  ∃ s, last (InPlace.reads (GetSubKeys key) config σ) = Some s
       ∧ InPlace.holds σ' s = Some newValue
       ∧ (∀ s', s' ≠ s → InPlace.holds σ' s' = InPlace.holds σ s')
       ∧ ∀ key2 config2,
           s ∉ InPlace.reads (GetSubKeys key2) config2 σ →
           InPlace.Get key2 config2 σ' = InPlace.Get key2 config2 σ.
Proof.
  unfold InPlace.Set'. destruct (isEmpty key); [done |].
  case_bool_decide as Hlen; [done |]. intros Hset.
  destruct (SetFrom_writes _ _ _ _ _ Hset) as (s & Hlast & Hnew & Hother).
  { by intros Hnil; rewrite Hnil in Hlen. }
  exists s. split_and!; [done.. |].
  intros key2 config2 Hs. apply GetFrom_agree. intros s' Hs'.
  apply Hother. by intros ->.
Qed.


(** X7.  When the sub keys, read as literal map keys, already lead to a
    value through nested maps, [Set] and [SetCreatingNew] agree: both return
    nil and leave the same configuration. *)
Theorem X7_set_agrees_with_set_creating_new key newValue config old :
  key ≠ EmptyString → GetSubKeys key ≠ [] →
  lookupPath (GetSubKeys key) (Mapping config) = Some old →
  Set' key newValue (Mapping config)
  = (Mapping (SetCreatingNew key newValue config).1, None)
  ∧ (SetCreatingNew key newValue config).2 = None.
Proof.
  intros Hkey%isEmpty_false Hne Hl. unfold Set', SetCreatingNew. rewrite Hkey.
  rewrite bool_decide_eq_false_2 by (by intros ?%length_zero_iff_nil).
  split; [| done]. by eapply SetFrom_SetCreatingNewFrom.
Qed.

(** X8.  [SetCreatingNew] assigns into one place of the store it was
    given, and otherwise into maps it makes.  The place is the entry, in
    the map the sub keys before it lead to, of the last sub key or of the
    first one whose entry is absent or is not a map.  In a store whose
    references are sound, a [Get] that does not look into that place
    returns after the call what it returned before. *)
Theorem X8_set_creating_new_leaves_siblings
    key newValue config σ σ' p k q c key2 config2 :
  InPlace.closed σ → InPlace.refOk σ (InPlace.MapV config) = true →
  InPlace.SetCreatingNew key newValue config σ = InPlace.Returns σ' None →
  GetSubKeys key = p ++ k :: q → InPlace.Leads σ config p (Some c) →
  q = [] ∨ (∀ c', InPlace.mapAt σ (Some c) !! k ≠ Some (InPlace.MapV c')) →
  InPlace.refOk σ config2 = true →
  InPlace.KeySlot c k ∉ InPlace.reads (GetSubKeys key2) config2 σ →
  InPlace.Get key2 config2 σ' = InPlace.Get key2 config2 σ.
Proof.
  intros Hcl Hok Hrun Hp Hl Hfirst Hok2 Hs.
  unfold InPlace.SetCreatingNew in Hrun. destruct (isEmpty key); [done |].
  case_bool_decide; [done |].
  destruct (refOk_map _ _ (Leads_refOk _ _ _ _ Hcl Hok Hl)) as [m Hc].
  assert (Hshape : ∃ x tail, σ' = InPlace.assignKey c k x σ ++ tail).
  { rewrite Hp in Hrun. destruct (decide (q = [])) as [-> | Hq].
    - rewrite (SetCreatingNewFrom_leads _ _ _ _ _ _ Hl) in Hrun by done.
      cbn [InPlace.SetCreatingNewFrom InPlace.assign] in Hrun.
      injection Hrun as <-. exists newValue, []. by rewrite app_nil_r.
    - destruct Hfirst as [? | Hno]; [done |].
      destruct (SetCreatingNewFrom_creates σ config p k q c newValue)
        as (_ & tail & _ & Hrun' & _); [done.. |].
      rewrite Hrun' in Hrun. injection Hrun as <-. eauto. }
  destruct Hshape as (x & tail & ->).
  apply GetFrom_agree. intros s Hin.
  apply (holds_assignKey_app _ _ _ _ _ m); [done | | by intros ->].
  by eapply reads_allocated.
Qed.

(** X9.  The overwrite of [SetCreatingNew]: when a proper prefix [key2] of
    the key leads, through maps, to a value that is not a map, that value is
    replaced.  After the call [key2] holds a map whose only key is the next
    sub key, with the new value at the end of the remaining sub keys. *)
Theorem X9_set_creating_new_overwrites
    key key2 k1 rest1 newValue config old :
  key ≠ EmptyString →
  GetSubKeys key = GetSubKeys key2 ++ k1 :: rest1 → GetSubKeys key2 ≠ [] →
  lookupPath (GetSubKeys key2) (Mapping config) = Some old →
  isMapping old = false →
  ∃ mnew,
    Get key2 (Mapping (SetCreatingNew key newValue config).1) = (Mapping mnew, true)
    ∧ dom mnew = {[ k1 ]}
    ∧ lookupPath (k1 :: rest1) (Mapping mnew) = Some newValue.
Proof.
  intros Hkey%isEmpty_false Hsub Hp Hl Hold. unfold SetCreatingNew, Get.
  rewrite Hkey, bool_decide_eq_false_2
    by (rewrite Hsub, length_app; simpl; lia).
  rewrite Hsub. simpl.
  rewrite (GetFrom_SetCreatingNewFrom_overwrite _ _ _ _ _ old) by done.
  eexists. split_and!;
    [done | | exact (lookupPath_SetCreatingNewFrom (k1 :: rest1) newValue ∅ ltac:(done))].
  destruct (SetCreatingNewFrom_first k1 rest1 newValue ∅) as [x ->].
  by rewrite dom_insert_L, dom_empty_L, (right_id_L ∅ (∪)).
Qed.

(** X10.  A [GetAll] that returns nil has missed no match: every branch
    of the path is among the results, with its concrete key path, its value
    and its bindings. *)
Theorem X10_get_all_misses_no_branch key resource h rs h' ks caps w :
  GetAll key resource h = (rs, None, h') →
  Branch (GetSubKeys key) resource ks caps w →
  ∃ r, r ∈ rs ∧ Key r = ks ∧ Value r = w ∧ bindings h' r = capture ∅ caps.
Proof.
  destruct (GetAll_walk key resource h) as (rs' & hnew & -> & Hsame & _).
  intros [= <- Herr <-] Hbr.
  destruct (walk (GetSubKeys key) resource [] ∅) as [fs err] eqn:Hwalk.
  simpl in *. subst err.
  pose proof (walk_complete _ _ _ _ _ Hbr [] ∅ fs Hwalk) as Hin.
  destruct (proj1 (list_elem_of_lookup _ _) Hin) as [i Hi].
  destruct (Forall2_lookup_r _ _ _ _ _ Hsame Hi) as (r & Hr & Hk & Hv & Hb).
  exists r. split_and!; [by eapply list_elem_of_lookup_2 | done..].
Qed.

(** X11.  The concrete key paths of the results of a [GetAll] call are
    pairwise different, whether the call returns an error or not. *)
Theorem X11_get_all_key_paths_differ key resource h :
  NoDup (Key <$> (GetAll key resource h).1.1).
Proof.
  destruct (GetAll_walk key resource h) as (rs & hnew & -> & Hsame & _).
  simpl. pose proof (walk_NoDup (GetSubKeys key) resource [] ∅) as Hnd.
  assert (Hkeys : Key <$> rs = fKey <$> (walk (GetSubKeys key) resource [] ∅).1).
  { clear -Hsame. induction Hsame as [|r f rs fs (Hk & _) _ IH]; [done |].
    rewrite !fmap_cons. by rewrite Hk, IH. }
  by rewrite Hkeys.
Qed.

(** X12.  The concrete key path of a result leads back to its value: a
    key whose sub keys are that path is found by [Get] with the value of
    the result, provided [cast.ToIntE] reads the decimal numerals of the
    indices on the path as those indices. *)
Theorem X12_get_on_concrete_key_path key resource h rs err h' r key' :
  GetAll key resource h = (rs, err, h') → r ∈ rs →
  (∀ j, indexKey j ∈ Key r → ToIntE (pretty j) = Some (Z.of_nat j)) →
  GetSubKeys key' = Key r →
  Get key' resource = (Value r, true).
Proof.
  intros E Hr Hread Hkey'.
  destruct (GetAll_sound key resource h rs err h' r E Hr) as (caps & Hbr & _).
  unfold Get. rewrite Hkey'. by eapply GetFrom_concrete.
Qed.


(** X14.  [Get] does not resolve predicates: on a key with a predicate
    segment for which [GetAll] returns a result, [Get] answers
    [found = false]. *)
Theorem X14_get_finds_nothing_through_predicates key resource h rs err h' :
  GetAll key resource h = (rs, err, h') → rs ≠ [] →
  Exists (fun k => isNormal k = false) (GetSubKeys key) →
  (Get key resource).2 = false.
Proof.
  intros E Hrs Hex. destruct rs as [|r rs]; [done |].
  destruct (GetAll_sound key resource h (r :: rs) err h' r E) as (caps & Hbr & _);
    [by left |].
  by eapply GetFrom_predicate.
Qed.

(** X15.  A key without sub keys: the two readers accept it and answer the
    whole resource, [GetAll] as one result with an empty key path and nil
    bindings, while the two writers reject it and write nothing. *)
Theorem X15_key_without_sub_keys key resource h :
  GetSubKeys key = [] →
  GetAll key resource h = ([mkRT [] resource None], None, h)
  ∧ Get key resource = (resource, true)
  ∧ (∀ newValue, (Set' key newValue resource).1 = resource
                 ∧ (Set' key newValue resource).2 ≠ None)
  ∧ (∀ newValue config, (SetCreatingNew key newValue config).1 = config
                        ∧ (SetCreatingNew key newValue config).2 ≠ None).
Proof.
  intros Hsub. unfold GetAll, GetRecurse, Get, Set', SetCreatingNew.
  rewrite Hsub. split_and!; [done | done | |]; intros; by destruct (isEmpty key).
Qed.

(** X16.  [GetAll] writes into no map that existed before the call: the
    heap it leaves extends the heap it was given, and the [Matches] of
    every result is nil or a map allocated during the call. *)
Theorem X16_get_all_only_allocates key resource h :
  (∀ l, l < length h → (GetAll key resource h).2 !! l = h !! l)
  ∧ Forall (fun r => ∀ l, Matches r = Some l →
                      length h ≤ l < length (GetAll key resource h).2)
      (GetAll key resource h).1.1.
Proof.
  destruct (GetAll_walk key resource h) as (rs & hnew & -> & _ & _ & Hfresh).
  simpl. split.
  - intros l Hl. by rewrite lookup_app_l.
  - destruct Hfresh as [Hfresh | [_ Hnil]].
    + eapply Forall_impl; [exact Hfresh |]. intros r (l & Hl & Hlt) l' Hl'.
      rewrite Hl in Hl'. by injection Hl' as <-.
    + eapply Forall_impl; [exact Hnil |]. intros r Hr l Hl. congruence.
Qed.

(** X17.  A concrete key path has no predicate left: each of its entries
    is a normal sub key, a segment of the path as written or the index key
    of a chosen element. *)
Theorem X17_concrete_key_path_is_normal key resource h :
  Forall (fun r => Forall (fun k => isNormal k = true) (Key r))
    (GetAll key resource h).1.1.
Proof.
  apply Forall_forall. intros r Hr.
  destruct (GetAll key resource h) as [[rs err] h'] eqn:E.
  destruct (GetAll_sound key resource h rs err h' r E Hr) as (caps & Hbr & _).
  clear -Hbr. induction Hbr; constructor; auto using isNormal_indexKey.
Qed.

(** X18.  Writing back what was read changes nothing: [Set] with the
    value [Get] finds at the key returns nil and the configuration it was
    given. *)
Theorem X18_set_of_the_value_read key config w :
  key ≠ EmptyString → GetSubKeys key ≠ [] →
  Get key config = (w, true) →
  Set' key w config = (config, None).
Proof.
  intros Hkey%isEmpty_false Hne Hget. unfold Set'. rewrite Hkey.
  rewrite bool_decide_eq_false_2 by (by intros ?%length_zero_iff_nil).
  by apply SetFrom_GetFrom.
Qed.


(** X20.  On a configuration that is a tree (no map of it is nil, no map
    or slice of it is held at two places), [Get] in place is [Get] on the
    tree: the two find a value for the same keys, and the value found in
    place holds the tree found on the tree. *)
Theorem X20_get_in_place_on_a_tree key σ v n fp :
  Tree σ v n fp →
  (InPlace.Get key v σ).2 = (Get key n).2
  ∧ ((Get key n).2 = true →
     ∃ w' fw, InPlace.Get key v σ = (w', true) ∧ Tree σ w' (Get key n).1 fw).
Proof.
  intros Ht. unfold InPlace.Get, Get.
  destruct (GetFrom_Tree (GetSubKeys key) σ v n fp Ht) as (w' & fw & Hflag & Hfound).
  split; [done |]. intros Hb. destruct (Hfound Hb) as (Hget & Hw & _). eauto.
Qed.

(** X21.  On such a configuration, and for a new value that is a tree
    apart from it, [Set] in place is [Set] on the tree: the same error or
    nil, and the configuration then holds the tree that [Set] returns. *)
Theorem X21_set_in_place_on_a_tree key σ config n fp newValue newTree fx :
  Tree σ config n fp → Tree σ newValue newTree fx → fx ## fp →
  ∃ σ' fp',
    InPlace.Set' key newValue config σ = (σ', (Set' key newTree n).2)
    ∧ Tree σ' config (Set' key newTree n).1 fp'.
Proof.
  intros Ht Hx Hfx. unfold InPlace.Set', Set'.
  destruct (isEmpty key); [by exists σ, fp |].
  case_bool_decide as Hlen; [by exists σ, fp |].
  destruct (SetFrom_Tree (GetSubKeys key) newValue newTree fx σ config n fp)
    as (σ' & fp' & Hrun & Htree & _); [done | done | done | | by eauto].
  by intros Hnil; rewrite Hnil in Hlen.
Qed.

(** X22.  On such a configuration, a map, and for such a new value,
    [SetCreatingNew] in place is [SetCreatingNew] on the tree: it returns,
    with the same error or nil, and the configuration then holds the tree
    that [SetCreatingNew] returns. *)
Theorem X22_set_creating_new_in_place_on_a_tree
    key σ a config fp newValue newTree fx :
  Tree σ (InPlace.MapV (Some a)) (Mapping config) fp →
  Tree σ newValue newTree fx → fx ## fp →
  ∃ σ' fp',
    InPlace.SetCreatingNew key newValue (Some a) σ
    = InPlace.Returns σ' (SetCreatingNew key newTree config).2
    ∧ Tree σ' (InPlace.MapV (Some a))
        (Mapping (SetCreatingNew key newTree config).1) fp'.
Proof.
  intros Ht Hx Hfx. unfold InPlace.SetCreatingNew, SetCreatingNew.
  destruct (isEmpty key); [by exists σ, fp |].
  case_bool_decide as Hlen; [by exists σ, fp |].
  destruct (SetCreatingNewFrom_Tree (GetSubKeys key) newValue newTree fx)
    with (σ := σ) (a := a) (mn := config) (fp := fp)
    as (σ' & fp' & Hrun & Htree & _); [| done | done | done |].
  { by intros Hnil; rewrite Hnil in Hlen. }
  rewrite Hrun. eauto.
Qed.

End Further.

(** * The statements on concrete inputs

    The functions are run with [specExternal] for the code outside the
    file. *)

#[local] Existing Instance specExternal.

(** The scenarios of the spec, and the two writers at work. *)

Example scenario_one_match :
  GetAll "containers.[name=nginx].image" containers []
  = ([mkRT ["containers"; "[0]"; "image"] (Str "a") (Some 1)], None,
     [∅; {[ "name" := "nginx" ]}]).
Proof. vm_compute. reflexivity. Qed.

Example scenario_index_out_of_range :
  GetAll "containers.[5].image" containers [] = ([], Some (ErrIndexOutOfRange 5), []).
Proof. vm_compute. reflexivity. Qed.

Example scenario_no_match :
  GetAll "containers.[name=missing].image" containers [] = ([], None, []).
Proof. vm_compute. reflexivity. Qed.

Example scenario_sequence_replaced :
  SetCreatingNew "containers.image" (Str "c")
    {[ "containers" := Sequence [Str "a"] ]}
  = ({[ "containers" := Mapping {[ "image" := Str "c" ]} ]}, None).
Proof. vm_compute. reflexivity. Qed.

Example scenario_set_existing :
  Set' "containers.[1].image" (Str "c") containers
  = (Mapping {[ "containers" :=
       Sequence [ Mapping {[ "name" := Str "nginx"; "image" := Str "a" ]};
                  Mapping {[ "name" := Str "sidecar"; "image" := Str "c" ]} ] ]},
     None).
Proof. vm_compute. reflexivity. Qed.

Example scenario_segments :
  isNormal "image" = true ∧ isNormal "[12]" = true ∧ isNormal "[name=nginx]" = false
  ∧ predicateParts "[containerName:name=nginx]" = Some ("containerName", "name", "nginx")
  ∧ predicateParts "[name]" = Some ("name", "name", "")
  ∧ predicateParts "[name=]" = None
  ∧ getIndex "[12]" = Some 12 ∧ getIndex "12" = None.
Proof. by vm_compute. Qed.

(** The index numerals as [strconv.ParseInt] reads them in base 0: octal
    after a leading zero, and none above the largest [int]. *)
Example scenario_index_numerals :
  getIndex "[10]" = Some 10 ∧ getIndex "[010]" = Some 8 ∧ getIndex "[08]" = None
  ∧ getIndex "[9223372036854775808]" = None ∧ getIndex "[0]" = Some 0.
Proof. vm_compute. done. Qed.

(** Instances of the theorems, and inputs on which a statement of the
    specification fails as it is worded. *)

(** C1, amended, on a sequence with a stray string. *)
Lemma C1_witness :
  (GetAll "items.[name]" strayItems []).1.2 ≠ None.
Proof.
  apply (C1_non_mapping_element_fails "items.[name]" strayItems []
           "[name]" [] [ Mapping {[ "name" := Str "a" ]}; Str "stray" ]
           "name" "name" "" (Str "stray")).
  - change (GetSubKeys "items.[name]") with ["items"; "[name]"].
    eapply reaches_normal; [reflexivity | by apply nav_key | apply reaches_here].
  - reflexivity.
  - reflexivity.
  - apply elem_of_cons. right. apply elem_of_cons. by left.
  - reflexivity.
Defined.

(** C1 as stated fails: the element [Str "stray"] of the sequence is not
    skipped, it is the error of the call. *)
Lemma C1_counterexample :
  (GetAll "items.[name]" strayItems []).1.2
  = Some (ErrElementNotObject (Str "stray")).
Proof. vm_compute. done. Qed.

(** C2, amended, on a second element without the key ["x"]: the failure
    is at the second element, and the first branch is before it. *)
Lemma C2_witness :
  ∃ rs e h' pos,
    GetAll "items.[name].x" unevenItems [] = (rs, Some e, h')
    ∧ Fails (GetSubKeys "items.[name].x") unevenItems pos
    ∧ (∀ pos', Fails (GetSubKeys "items.[name].x") unevenItems pos' →
               ¬ before pos' pos)
    ∧ (∀ ks caps w,
         Branch (GetSubKeys "items.[name].x") unevenItems ks caps w →
         before ks pos →
         ∃ r, r ∈ rs ∧ Key r = ks ∧ Value r = w
              ∧ bindings h' r = capture ∅ caps)
    ∧ (∀ r, r ∈ rs →
         ∃ caps, Branch (GetSubKeys "items.[name].x") unevenItems
                   (Key r) caps (Value r)
                 ∧ bindings h' r = capture ∅ caps
                 ∧ before (Key r) pos)
    ∧ NoDup (Key <$> rs)
    ∧ inOrder (Key <$> rs).
Proof.
  apply (C2_missing_key_aborts "items.[name].x" unevenItems []
           "x" [] (Mapping {[ "name" := Str "b" ]})).
  - change (GetSubKeys "items.[name].x") with ["items"; "[name]"; "x"].
    eapply reaches_normal; [reflexivity | by apply nav_key |].
    eapply (reaches_predicate "[name]" ["x"] _ 1 _ "b" "name" "name" "");
      [reflexivity | reflexivity | reflexivity | | apply reaches_here].
    apply selects_intro; [reflexivity | by left].
  - reflexivity.
  - left. eexists. split; reflexivity.
Defined.

(** C2 as stated fails: the missing ["x"] of the second element makes the
    call fail, and the result of the first branch is returned with the
    error. *)
Lemma C2_counterexample :
  (GetAll "items.[name].x" unevenItems []).1
  = ([mkRT ["items"; "[0]"; "x"] (Int 1) (Some 1)], Some (ErrSubkeyNotInMap "x")).
Proof. vm_compute. done. Qed.

(** C3 on a predicate that matches both containers. *)
Lemma C3_witness :
  Independent (GetSubKeys "containers.[n:name].image") containers [2]
  ∧ ∃ rs h', GetAll "containers.[n:name].image" containers []
             = (rs, None, h') ∧ length rs = 2 ∧ NoDup (Key <$> rs).
Proof.
  assert (Hind : Independent
            (GetSubKeys "containers.[n:name].image") containers [2]).
  { change (GetSubKeys "containers.[n:name].image")
      with ["containers"; "[n:name]"; "image"].
    eapply independent_normal; [reflexivity | by apply nav_key |].
    assert (Hcount : length (List.filter (selected "name" "")
              [ Mapping {[ "name" := Str "nginx"; "image" := Str "a" ]};
                Mapping {[ "name" := Str "sidecar"; "image" := Str "b" ]} ]) = 2)
      by (vm_compute; reflexivity).
    rewrite <- Hcount.
    apply (independent_predicate "[n:name]" ["image"]
             [ Mapping {[ "name" := Str "nginx"; "image" := Str "a" ]};
               Mapping {[ "name" := Str "sidecar"; "image" := Str "b" ]} ]
             "n" "name" "" []);
      [reflexivity.. |].
    intros e He _.
    apply elem_of_cons in He as [-> | He];
      [| apply elem_of_cons in He as [-> | He]; [| by apply elem_of_nil in He]];
      (eapply independent_normal;
       [reflexivity | by apply nav_key | apply independent_nil]). }
  split; [exact Hind |].
  exact (C3_independent_predicates _ _ _ [] Hind).
Defined.

(** C3 as stated fails: the predicate of ["items.[name].x"] matches two
    elements of [unevenItems], and [GetAll] returns one result (and the
    error of the second branch, which has no ["x"]). *)
Lemma C3_counterexample :
  predicateParts "[name]" = Some ("name", "name", "")
  ∧ length (List.filter (selected "name" "")
              [ Mapping {[ "name" := Str "a"; "x" := Int 1 ]};
                Mapping {[ "name" := Str "b" ]} ]) = 2
  ∧ length (GetAll "items.[name].x" unevenItems []).1.1 = 1
  ∧ (GetAll "items.[name].x" unevenItems []).1.2
    = Some (ErrSubkeyNotInMap "x").
Proof. vm_compute. done. Qed.

(** C4, amended, on an empty map. *)
Lemma C4_witness :
  (∃ e, InPlace.Set' "a.b.c" (InPlace.StrV "v") (InPlace.MapV (Some 0))
          [InPlace.MapO ∅]
        = ([InPlace.MapO ∅], Some e))
  ∧ ∃ σ', InPlace.SetCreatingNew "a.b.c" (InPlace.StrV "v") (Some 0)
            [InPlace.MapO ∅]
          = InPlace.Returns σ' None
          ∧ InPlace.Get "a.b.c" (InPlace.MapV (Some 0)) σ'
            = (InPlace.StrV "v", true).
Proof.
  apply (C4_set_fails_set_creating_new_round_trip
           "a.b.c" (InPlace.StrV "v") (Some 0) [InPlace.MapO ∅] ["a"; "b"] "c").
  - discriminate.
  - reflexivity.
  - reflexivity.
  - apply (bool_decide_unpack _). vm_compute. reflexivity.
  - reflexivity.
  - change (GetSubKeys "a.b.c") with ["a"; "b"; "c"].
    intros (c' & Hk & _)%MeetsNil_cons_inv. done.
Defined.

(** C4 as stated fails on a nil map: [Get] does not find the parent,
    [Set] returns an error, and [SetCreatingNew] panics.  So it does on a
    nil map met on the way. *)
Lemma C4_counterexample :
  (InPlace.Get "a" (InPlace.MapV None) []).2 = false
  ∧ (InPlace.Set' "a.b" (InPlace.StrV "v") (InPlace.MapV None) []).2
    = Some (ErrSetSubkeyNotInMap "a")
  ∧ InPlace.SetCreatingNew "a.b" (InPlace.StrV "v") None [] = InPlace.Panics
  ∧ (InPlace.Get "a.b" (InPlace.MapV (Some 0)) nilStore).2 = false
  ∧ InPlace.SetCreatingNew "a.b.c" (InPlace.StrV "v") (Some 0) nilStore
    = InPlace.Panics.
Proof. vm_compute. done. Qed.

(** C5 on the path to the image of the second container. *)
Lemma C5_witness :
  predicateFree (GetSubKeys "containers.[1].image")
  ∧ ∃ r h', GetAll "containers.[1].image" containers []
            = ([r], None, h') ∧ Value r = Str "b".
Proof.
  assert (Hfree : predicateFree (GetSubKeys "containers.[1].image")).
  { vm_compute. repeat constructor. }
  split; [exact Hfree |].
  destruct (C5_get_agrees_with_navigation
              "containers.[1].image" containers [] Hfree) as [_ Hall].
  vm_compute in Hall. destruct Hall as (r & h' & E & Hk & Hv).
  exists r, h'. split; [| exact Hv]. vm_compute. exact E.
Defined.

(** C6 on the two results of a predicate that matches both containers:
    the call, and the bindings of the second result after any change to the
    map of the first. *)
Lemma C6_witness :
  GetAll "containers.[n:name].image" containers []
  = ([ mkRT ["containers"; "[0]"; "image"] (Str "a") (Some 1);
       mkRT ["containers"; "[1]"; "image"] (Str "b") (Some 2) ],
     None,
     [ ∅; {[ "n" := "nginx" ]}; {[ "n" := "sidecar" ]} ])
  ∧ ∀ f, bindings (alter f 1 [ ∅; {[ "n" := "nginx" ]}; {[ "n" := "sidecar" ]} ])
           (mkRT ["containers"; "[1]"; "image"] (Str "b") (Some 2)) !! "n"
         = Some "sidecar".
Proof.
  assert (E : GetAll "containers.[n:name].image" containers []
              = ([ mkRT ["containers"; "[0]"; "image"] (Str "a") (Some 1);
                   mkRT ["containers"; "[1]"; "image"] (Str "b") (Some 2) ],
                 None,
                 [ ∅; {[ "n" := "nginx" ]}; {[ "n" := "sidecar" ]} ]))
    by (vm_compute; reflexivity).
  split; [exact E |].
  destruct (C6_bindings_per_branch _ _ _ _ _ _ E) as [Hiso _].
  destruct (Hiso 0 1 _ _ ltac:(discriminate) eq_refl eq_refl)
    as (l1 & l2 & [= <-] & [= <-] & _ & Halter).
  intros f. rewrite Halter. reflexivity.
Defined.

(** C7, amended, on a predicate with a capture name and a filter, and on
    a segment that has neither form, met on the first container. *)
Lemma C7_witness :
  (PredicateSyntax "[n:name=nginx]" (Some "n") "name" (Some "nginx")
   ∧ isNormal "[n:name=nginx]" = false
   ∧ predicateParts "[n:name=nginx]" = Some ("n", "name", "nginx"))
  ∧ (containsBracket "[bad" = true
     ∧ (GetAll "containers.[name=nginx].[bad" containers []).1.2 ≠ None).
Proof.
  assert (Hindex : ∀ k, arrayIndexRegex k = None → ∀ digits, ¬ IndexSyntax k digits).
  { intros k Hk digits Hsyn%arrayIndexRegex_spec. congruence. }
  assert (Hpred : ∀ k, complexSubKeyRegex k = None →
            ∀ name field value, ¬ PredicateSyntax k name field value).
  { intros k Hk name field value Hsyn.
    assert (is_Some (complexSubKeyRegex k)) as [? Hsome]; [| congruence].
    eexists. apply complexSubKeyRegex_spec. by exists name, value. }
  assert (Hsyn : PredicateSyntax "[n:name=nginx]" (Some "n") "name" (Some "nginx")).
  { by split_and!. }
  split.
  - destruct (C7_segment_classification "[n:name=nginx]")
      as (_ & _ & _ & Hpredicate & _).
    destruct (Hpredicate (Some "n") "name" (Some "nginx") Hsyn
                (Hindex "[n:name=nginx]" eq_refl)) as (Hn & Hp & _).
    by split_and!.
  - destruct (C7_segment_classification "[bad") as (_ & _ & _ & _ & Hinvalid).
    destruct (Hinvalid eq_refl (Hindex "[bad" eq_refl) (Hpred "[bad" eq_refl))
      as [_ Hfail].
    split; [reflexivity |].
    apply (Hfail "containers.[name=nginx].[bad" containers [] []
             (Mapping {[ "name" := Str "nginx"; "image" := Str "a" ]})).
    change (GetSubKeys "containers.[name=nginx].[bad")
      with ["containers"; "[name=nginx]"; "[bad"].
    eapply reaches_normal; [reflexivity | by apply nav_key |].
    eapply (reaches_predicate "[name=nginx]" ["[bad"] _ 0 _ "nginx" "name" "name" "nginx");
      [reflexivity | reflexivity | reflexivity | | apply reaches_here].
    apply selects_intro; [reflexivity | by right].
Defined.

(** C7 as stated fails, twice.  ["[0]"] has the form ["[" digits "]"],
    and against a Mapping [GetAll] looks it up as the literal key ["[0]"].
    ["[bad"] contains a ["["] and has neither form, and the call on
    ["containers.[name=missing].[bad"] returns no error: no branch arrives
    at the segment. *)
Lemma C7_counterexample :
  (IndexSyntax "[0]" "0"
   ∧ GetAll "[0]" bracketKey [] = ([mkRT ["[0]"] (Str "x") None], None, []))
  ∧ (containsBracket "[bad" = true
     ∧ arrayIndexRegex "[bad" = None ∧ complexSubKeyRegex "[bad" = None
     ∧ GetAll "containers.[name=missing].[bad" containers [] = ([], None, [])).
Proof. split; split_and!; try done; by vm_compute. Qed.



(** C10 on a field that holds a number, with a predicate that has no
    filter. *)
Lemma C10_witness :
  (GetAll "items.[name]" numberedItems []).1.2 ≠ None.
Proof.
  apply (C10_non_string_field_fails "items.[name]" numberedItems []
           "[name]" [] [ Mapping {[ "name" := Int 7 ]} ]
           "name" "name" "" {[ "name" := Int 7 ]} (Int 7)).
  - change (GetSubKeys "items.[name]") with ["items"; "[name]"].
    eapply reaches_normal; [reflexivity | by apply nav_key | apply reaches_here].
  - reflexivity.
  - reflexivity.
  - apply elem_of_cons. by left.
  - reflexivity.
  - discriminate.
Defined.

(** ** The further properties on concrete inputs *)


(** X3 on an index out of range. *)
Lemma X3_witness :
  (Set' "containers.[5].image" (Str "c") containers).2
  = Some (ErrSetInvalidIndex "[5]")
  ∧ (Set' "containers.[5].image" (Str "c") containers).1 = containers.
Proof.
  split; [vm_compute; reflexivity |].
  apply (X3_set_error_writes_nothing "containers.[5].image" (Str "c") containers
           _ (ErrSetInvalidIndex "[5]")).
  vm_compute; reflexivity.
Defined.


(** The map under ["a"] is the map under ["b"]: the assignment under
    ["a"] is read under ["b"]. *)
Example shared_map_is_written_once :
  (InPlace.Get "b.v" (InPlace.MapV (Some 0)) sharedStore).1 = InPlace.IntV 1
  ∧ (InPlace.Get "b.v" (InPlace.MapV (Some 0))
       (InPlace.Set' "a.v" (InPlace.IntV 2) (InPlace.MapV (Some 0)) sharedStore).1).1
    = InPlace.IntV 2.
Proof. vm_compute. done. Qed.

(** X5: in [sharedStore], the assignment under ["c"] leaves what is read
    under ["b"]. *)
Lemma X5_witness :
  ∃ σ', InPlace.Set' "c.v" (InPlace.IntV 2) (InPlace.MapV (Some 0)) sharedStore
        = (σ', None)
        ∧ InPlace.Get "b.v" (InPlace.MapV (Some 0)) σ' = (InPlace.IntV 1, true).
Proof.
  destruct (InPlace.Set' "c.v" (InPlace.IntV 2) (InPlace.MapV (Some 0)) sharedStore)
    as [σ' e] eqn:Hset.
  assert (He : e = None) by (by vm_compute in Hset; injection Hset as _ <-).
  subst e. exists σ'. split; [done |].
  destruct (X5_set_leaves_other_paths _ _ _ _ _ Hset) as (s & Hlast & _ & _ & Hframe).
  rewrite Hframe; [reflexivity |].
  vm_compute in Hlast. injection Hlast as <-. vm_compute.
  intros Hin. repeat (apply elem_of_cons in Hin as [[=] | Hin]).
  by apply elem_of_nil in Hin.
Defined.

(** X7 on the name of [podConfig]. *)
Lemma X7_witness :
  Set' "metadata.name" (Str "api") (Mapping podConfig)
  = (Mapping (SetCreatingNew "metadata.name" (Str "api") podConfig).1, None)
  ∧ (SetCreatingNew "metadata.name" (Str "api") podConfig).2 = None.
Proof.
  apply (X7_set_agrees_with_set_creating_new
           "metadata.name" (Str "api") podConfig (Str "web")).
  - discriminate.
  - discriminate.
  - vm_compute; reflexivity.
Defined.

(** X8: in [sharedStore], a new entry under ["c"] leaves what is read
    under ["b"]. *)
Lemma X8_witness :
  ∃ σ', InPlace.SetCreatingNew "c.w" (InPlace.IntV 2) (Some 0) sharedStore
        = InPlace.Returns σ' None
        ∧ InPlace.Get "b.v" (InPlace.MapV (Some 0)) σ' = (InPlace.IntV 1, true).
Proof.
  assert (Hrun : ∃ σ', InPlace.SetCreatingNew "c.w" (InPlace.IntV 2) (Some 0)
                         sharedStore = InPlace.Returns σ' None).
  { eexists. vm_compute. reflexivity. }
  destruct Hrun as [σ' Hrun]. exists σ'. split; [done |].
  rewrite (X8_set_creating_new_leaves_siblings
             "c.w" (InPlace.IntV 2) (Some 0) sharedStore σ' ["c"] "w" [] 2
             "b.v" (InPlace.MapV (Some 0))); [reflexivity | | reflexivity | done | reflexivity | | by left | reflexivity |].
  - apply (bool_decide_unpack _). vm_compute. reflexivity.
  - econstructor; [reflexivity | constructor].
  - vm_compute. intros Hin. repeat (apply elem_of_cons in Hin as [[=] | Hin]).
    by apply elem_of_nil in Hin.
Defined.

(** X9: a key below the kind of [podConfig], a string, replaces the
    string. *)
Lemma X9_witness :
  ∃ mnew,
    Get "kind" (Mapping (SetCreatingNew "kind.group.name" (Str "apps") podConfig).1)
    = (Mapping mnew, true)
    ∧ dom mnew = {[ "group" ]}
    ∧ lookupPath ["group"; "name"] (Mapping mnew) = Some (Str "apps").
Proof.
  apply (X9_set_creating_new_overwrites
           "kind.group.name" "kind" "group" ["name"] (Str "apps") podConfig
           (Str "Pod")).
  - discriminate.
  - reflexivity.
  - discriminate.
  - vm_compute; reflexivity.
  - reflexivity.
Defined.

(** X10 on the branch through the second container. *)
Lemma X10_witness :
  ∃ r, r ∈ (GetAll "containers.[n:name].image" containers []).1.1
       ∧ Key r = ["containers"; "[1]"; "image"] ∧ Value r = Str "b"
       ∧ bindings (GetAll "containers.[n:name].image" containers []).2 r
         = {[ "n" := "sidecar" ]}.
Proof.
  assert (E : GetAll "containers.[n:name].image" containers []
              = ([ mkRT ["containers"; "[0]"; "image"] (Str "a") (Some 1);
                   mkRT ["containers"; "[1]"; "image"] (Str "b") (Some 2) ],
                 None,
                 [ ∅; {[ "n" := "nginx" ]}; {[ "n" := "sidecar" ]} ]))
    by (vm_compute; reflexivity).
  rewrite E. simpl.
  apply (X10_get_all_misses_no_branch _ _ _ _ _
           ["containers"; indexKey 1; "image"] [("n", "sidecar")] (Str "b") E).
  change (GetSubKeys "containers.[n:name].image")
    with ["containers"; "[n:name]"; "image"].
  eapply branch_normal; [reflexivity | by apply nav_key |].
  eapply (branch_predicate "[n:name]" ["image"] _ 1 _ "sidecar" "n" "name" "");
    [reflexivity | reflexivity | reflexivity | | ].
  - apply selects_intro; [reflexivity | by left].
  - eapply branch_normal; [reflexivity | by apply nav_key | apply branch_nil].
Defined.

(** X12 on the second result of a predicate over the containers. *)
Lemma X12_witness :
  Get "containers.[1].image" containers = (Str "b", true).
Proof.
  apply (X12_get_on_concrete_key_path
           "containers.[n:name].image" containers []
           [ mkRT ["containers"; "[0]"; "image"] (Str "a") (Some 1);
             mkRT ["containers"; "[1]"; "image"] (Str "b") (Some 2) ]
           None
           [ ∅; {[ "n" := "nginx" ]}; {[ "n" := "sidecar" ]} ]
           (mkRT ["containers"; "[1]"; "image"] (Str "b") (Some 2))
           "containers.[1].image").
  - vm_compute; reflexivity.
  - apply elem_of_cons. right. apply elem_of_cons. by left.
  - intros j Hj. assert (j = 1) as ->; [| by apply specToIntE_pretty].
    repeat (apply elem_of_cons in Hj as [Hj | Hj]); try discriminate.
    + by apply indexKey_inj.
    + by apply elem_of_nil in Hj.
  - reflexivity.
Defined.


(** X14 on the predicate that [GetAll] resolves to both containers. *)
Lemma X14_witness :
  (Get "containers.[n:name].image" containers).2 = false.
Proof.
  apply (X14_get_finds_nothing_through_predicates
           "containers.[n:name].image" containers []
           [ mkRT ["containers"; "[0]"; "image"] (Str "a") (Some 1);
             mkRT ["containers"; "[1]"; "image"] (Str "b") (Some 2) ]
           None
           [ ∅; {[ "n" := "nginx" ]}; {[ "n" := "sidecar" ]} ]).
  - vm_compute; reflexivity.
  - discriminate.
  - change (GetSubKeys "containers.[n:name].image")
      with ["containers"; "[n:name]"; "image"].
    apply Exists_cons_tl, Exists_cons_hd. reflexivity.
Defined.

(** X15 on the empty key. *)
Lemma X15_witness :
  GetAll "" containers [] = ([mkRT [] containers None], None, [])
  ∧ Get "" containers = (containers, true)
  ∧ (∀ newValue, (Set' "" newValue containers).1 = containers
                 ∧ (Set' "" newValue containers).2 ≠ None)
  ∧ (∀ newValue config, (SetCreatingNew "" newValue config).1 = config
                        ∧ (SetCreatingNew "" newValue config).2 ≠ None).
Proof. apply X15_key_without_sub_keys. reflexivity. Defined.

(** X18 on the image of the second container. *)
Lemma X18_witness :
  Set' "containers.[1].image" (Str "b") containers = (containers, None).
Proof.
  apply X18_set_of_the_value_read.
  - discriminate.
  - discriminate.
  - vm_compute; reflexivity.
Defined.

(** ** The writers on trees and in place, on a concrete store *)

Lemma nameStore_Tree :
  Tree nameStore (InPlace.MapV (Some 0)) (Mapping nameTree) {[ 0 ]}.
Proof.
  apply (tree_map nameStore 0 {[ "name" := InPlace.StrV "web" ]} nameTree
           (fun _ => ∅)).
  - reflexivity.
  - intros k. unfold nameTree. by rewrite !lookup_singleton_None.
  - intros k v n [<- <-]%lookup_singleton_Some Hn. unfold nameTree in Hn.
    apply lookup_singleton_Some in Hn as [_ <-]. constructor.
  - intros k v _. apply not_elem_of_empty.
  - intros k1 k2 v1 v2 _ _ _. apply disjoint_empty_l.
  - intros x. rewrite elem_of_singleton. split; [by left |].
    intros [-> | (k & v & _ & Hx)]; [done | by apply elem_of_empty in Hx].
Qed.

(** X20 on the name in [nameStore]. *)
Lemma X20_witness :
  InPlace.Get "name" (InPlace.MapV (Some 0)) nameStore = (InPlace.StrV "web", true)
  ∧ Get "name" (Mapping nameTree) = (Str "web", true).
Proof.
  destruct (X20_get_in_place_on_a_tree "name" nameStore (InPlace.MapV (Some 0))
              (Mapping nameTree) {[ 0 ]} nameStore_Tree) as [_ Hfound].
  destruct Hfound as (w' & fw & Hget & Hw); [reflexivity |].
  split; [| reflexivity]. rewrite Hget. f_equal.
  vm_compute in Hw. by inversion Hw.
Defined.

(** X21 on the name in [nameStore]. *)
Lemma X21_witness :
  ∃ σ' fp',
    InPlace.Set' "name" (InPlace.StrV "api") (InPlace.MapV (Some 0)) nameStore
    = (σ', None)
    ∧ Tree σ' (InPlace.MapV (Some 0)) (Mapping {[ "name" := Str "api" ]}) fp'.
Proof.
  destruct (X21_set_in_place_on_a_tree "name" nameStore (InPlace.MapV (Some 0))
              (Mapping nameTree) {[ 0 ]} (InPlace.StrV "api") (Str "api") ∅
              nameStore_Tree) as (σ' & fp' & Hrun & Htree).
  - constructor.
  - apply disjoint_empty_l.
  - exists σ', fp'. split; [exact Hrun |].
    assert (E : (Set' "name" (Str "api") (Mapping nameTree)).1
                = Mapping {[ "name" := Str "api" ]}) by (vm_compute; reflexivity).
    by rewrite E in Htree.
Defined.

(** X22 on a label made in [nameStore]. *)
Lemma X22_witness :
  ∃ σ' fp',
    InPlace.SetCreatingNew "labels.app" (InPlace.StrV "web") (Some 0) nameStore
    = InPlace.Returns σ' None
    ∧ Tree σ' (InPlace.MapV (Some 0))
        (Mapping {[ "labels" := Mapping {[ "app" := Str "web" ]};
                    "name" := Str "web" ]}) fp'.
Proof.
  destruct (X22_set_creating_new_in_place_on_a_tree "labels.app" nameStore 0
              nameTree {[ 0 ]} (InPlace.StrV "web") (Str "web") ∅
              nameStore_Tree) as (σ' & fp' & Hrun & Htree).
  - constructor.
  - apply disjoint_empty_l.
  - exists σ', fp'. split; [exact Hrun |].
    assert (E : (SetCreatingNew "labels.app" (Str "web") nameTree).1
                = {[ "labels" := Mapping {[ "app" := Str "web" ]};
                     "name" := Str "web" ]}) by (vm_compute; reflexivity).
    by rewrite E in Htree.
Defined.
